(** * beam-go: the BEAM feed model, its validation, serving and aggregation

    A shallow embedding of the Go package [beam] (feed.go, entry.go,
    aggregator.go, error.go) together with the properties its specification
    states about it.

    Conventions.
    - A Go [string] is a byte sequence: Rocq's [string] (a list of [ascii]).
    - A Go [int] is a [Z]; slice lengths never come near the 64-bit limit.
    - A pointer that may be [nil] ([*time.Time], [*Author], [*Feed]) is an
      [option].
    - A Go [error] is [option ErrorValue]; [None] is [nil].  A function
      that returns [(T, error)] returns a [Result].
    - A run-time panic is the constructor [Panic] of [Go].
    - [time.Now] reads a clock that is part of the [World]; the order in
      which the workers of a cycle finish is a schedule given to the cycle.
    - Output on standard output ([fmt.Printf], [fmt.Println]) is left out.
    - Functions of Go's standard library are written out where their
      behaviour is fixed (utf8, strings, the one regular expression,
      sha256, hex, the algorithm of sort.Slice) and are otherwise the
      fields of a class (encoding/json, time formatting).  The properties
      of a cycle rest on the documented contract of [sort.Slice] only. *)

From Stdlib Require Import ZArith Ascii String List Sorting.Sorted Sorting.Permutation Lia Bool.
From stdpp Require Import base option list strings gmap pretty.

Import ListNotations.
Local Open Scope string_scope.
Local Open Scope Z_scope.

(** ** Go strings as bytes and runes *)

Module Utf8.

Definition byteval (c : ascii) : Z := Z.of_N (N_of_ascii c).

(** [utf8.RuneError], U+FFFD. *)
Definition RuneError : Z := 0xFFFD.

(** The table [first] of package utf8, as [(size, lo, hi)]: the length of
    the sequence a leading byte announces and the range its second byte
    must fall in.  [None] is the table's [xx] (an invalid leading byte). *)
Definition first (b0 : Z) : option (Z * Z * Z) :=
  if (0xC2 <=? b0) && (b0 <=? 0xDF) then Some (2, 0x80, 0xBF)
  else if b0 =? 0xE0 then Some (3, 0xA0, 0xBF)
  else if (0xE1 <=? b0) && (b0 <=? 0xEC) then Some (3, 0x80, 0xBF)
  else if b0 =? 0xED then Some (3, 0x80, 0x9F)
  else if (0xEE <=? b0) && (b0 <=? 0xEF) then Some (3, 0x80, 0xBF)
  else if b0 =? 0xF0 then Some (4, 0x90, 0xBF)
  else if (0xF1 <=? b0) && (b0 <=? 0xF3) then Some (4, 0x80, 0xBF)
  else if b0 =? 0xF4 then Some (4, 0x80, 0x8F)
  else None.

Definition continuation (b : Z) : bool := (0x80 <=? b) && (b <=? 0xBF).

(** [utf8.DecodeRuneInString]: the first rune of [s] and its width in
    bytes; an invalid or truncated encoding is [RuneError] of width 1. *)
Definition DecodeRuneInString (s : list ascii) : Z * nat :=
  match s with
  | [] => (RuneError, 0%nat)
  | c0 :: s1 =>
    let b0 := byteval c0 in
    if b0 <? 0x80 then (b0, 1%nat) else
    match first b0, s1 with
    | None, _ => (RuneError, 1%nat)
    | Some _, [] => (RuneError, 1%nat)
    | Some (sz, lo, hi), c1 :: s2 =>
      let b1 := byteval c1 in
      if (b1 <? lo) || (hi <? b1) then (RuneError, 1%nat)
      else if sz <=? 2 then
        (Z.lor (Z.shiftl (Z.land b0 0x1F) 6) (Z.land b1 0x3F), 2%nat)
      else
      match s2 with
      | [] => (RuneError, 1%nat)
      | c2 :: s3 =>
        let b2 := byteval c2 in
        if negb (continuation b2) then (RuneError, 1%nat)
        else if sz <=? 3 then
          (Z.lor (Z.shiftl (Z.land b0 0x0F) 12)
             (Z.lor (Z.shiftl (Z.land b1 0x3F) 6) (Z.land b2 0x3F)), 3%nat)
        else
        match s3 with
        | [] => (RuneError, 1%nat)
        | c3 :: _ =>
          let b3 := byteval c3 in
          if negb (continuation b3) then (RuneError, 1%nat)
          else
            (Z.lor (Z.shiftl (Z.land b0 0x07) 18)
               (Z.lor (Z.shiftl (Z.land b1 0x3F) 12)
                  (Z.lor (Z.shiftl (Z.land b2 0x3F) 6) (Z.land b3 0x3F))), 4%nat)
        end
      end
    end
  end.

(** What [for i, r := range s] visits: each rune with the bytes that
    encode it.  The fuel is the number of bytes left; every step consumes
    at least one. *)
Fixpoint runes_fuel (fuel : nat) (s : list ascii) : list (Z * list ascii) :=
  match fuel, s with
  | O, _ => []
  | _, [] => []
  | S fuel', _ :: _ =>
    let '(r, w) := DecodeRuneInString s in
    (r, take w s) :: runes_fuel fuel' (drop w s)
  end.

Definition runes (s : string) : list (Z * list ascii) :=
  let bs := list_ascii_of_string s in runes_fuel (length bs) bs.

(** [unicode.IsSpace]: Latin-1 spaces, then the property White_Space. *)
Definition IsSpace (r : Z) : bool :=
  if r <=? 0xFF then
    (r =? 0x09) || (r =? 0x0A) || (r =? 0x0B) || (r =? 0x0C) || (r =? 0x0D)
    || (r =? 0x20) || (r =? 0x85) || (r =? 0xA0)
  else
    (r =? 0x1680) || ((0x2000 <=? r) && (r <=? 0x200A))
    || (r =? 0x2028) || (r =? 0x2029) || (r =? 0x202F)
    || (r =? 0x205F) || (r =? 0x3000).

End Utf8.

Module Strings.

(** [strings.Fields]: the maximal runs of non-space runes, in order.
    [cur] is the field being read, if any (Go keeps its start index). *)
Fixpoint fields_go (rs : list (Z * list ascii)) (cur : option (list ascii))
  : list string :=
  match rs with
  | [] =>
    match cur with
    | Some w => [string_of_list_ascii w]
    | None => []
    end
  | (r, bs) :: rs' =>
    if Utf8.IsSpace r then
      match cur with
      | Some w => string_of_list_ascii w :: fields_go rs' None
      | None => fields_go rs' None
      end
    else
      match cur with
      | Some w => fields_go rs' (Some (w ++ bs)%list)
      | None => fields_go rs' (Some bs)
      end
  end.

Definition Fields (s : string) : list string := fields_go (Utf8.runes s) None.

(** [strings.TrimSpace]: [s] without its leading and trailing white-space
    runes.  (Go reads the trailing ones backwards; a white-space rune has
    one encoding only, so both readings drop the same bytes.) *)
Definition notSpace (rb : Z * list ascii) : bool := negb (Utf8.IsSpace rb.1).

Fixpoint dropWhileSpace (rs : list (Z * list ascii)) : list (Z * list ascii) :=
  match rs with
  | [] => []
  | rb :: rs' => if notSpace rb then rs else dropWhileSpace rs'
  end.

Definition TrimSpace (s : string) : string :=
  let inner := rev (dropWhileSpace (rev (dropWhileSpace (Utf8.runes s)))) in
  string_of_list_ascii (concat (map snd inner)).

(** [strings.HasPrefix]. *)
Fixpoint HasPrefix (s p : string) : bool :=
  match p, s with
  | EmptyString, _ => true
  | String _ _, EmptyString => false
  | String c p', String d s' => Ascii.eqb c d && HasPrefix s' p'
  end.

End Strings.

Module Regexp.

Definition lt_sign : ascii := "<"%char.
Definition gt_sign : ascii := ">"%char.

Definition has_gt (s : list ascii) : bool := existsb (Ascii.eqb gt_sign) s.

(** [regexp.MustCompile(`<[^>]*>`).ReplaceAllString(s, repl)].

    A match starts at a "<" that is followed, somewhere, by a ">"; since
    [[^>]*] cannot step over a ">", the match ends at the first one.
    Matches are taken leftmost and do not overlap.  [inside] says that the
    scan is between the "<" of a match and its ">". *)
Fixpoint replaceTags (repl : list ascii) (inside : bool) (s : list ascii)
  : list ascii :=
  match s with
  | [] => []
  | c :: s' =>
    if inside then
      if Ascii.eqb c gt_sign then replaceTags repl false s'
      else replaceTags repl true s'
    else if Ascii.eqb c lt_sign && has_gt s' then
      (repl ++ replaceTags repl true s')%list
    else c :: replaceTags repl false s'
  end.

Definition ReplaceAllTags (s repl : string) : string :=
  string_of_list_ascii
    (replaceTags (list_ascii_of_string repl) false (list_ascii_of_string s)).

End Regexp.

(** ** time.Time *)

(** A [*time.Location]: UTC, the zone of the machine, a zone of a fixed
    offset in seconds east of UTC ([time.FixedZone], also what decoding a
    timestamp with a numeric offset gives), or a zone loaded by name. *)
Inductive Location :=
  | LocUTC
  | LocLocal
  | LocFixed (name : string) (offset : Z)
  | LocNamed (name : string).

(** A [time.Time]: the instant, as the seconds since the Unix epoch and the
    nanoseconds within the second, and the location the time is shown in.
    Two times of one instant in two locations are two values: they compare
    as equal instants, and print differently. *)
Record Time := mkTimeIn { unixSec : Z; nsec : Z; location : Location }.

(** [time.Unix(sec, nsec).UTC()] *)
Definition mkTime (sec nsec : Z) : Time := mkTimeIn sec nsec LocUTC.

Module TimeOps.

(** [t.Unix()] *)
Definition Unix (t : Time) : Z := unixSec t.

(** [t.After(u)] *)
Definition After (t u : Time) : bool :=
  (unixSec u <? unixSec t) || ((unixSec u =? unixSec t) && (nsec u <? nsec t)).

(** The zero [time.Time] is January 1, year 1, 00:00:00 UTC. *)
Definition zero : Time := mkTime (-62135596800) 0.

(** [t.IsZero()] *)
Definition IsZero (t : Time) : bool :=
  (unixSec t =? unixSec zero) && (nsec t =? 0).

(** [t.UTC()]: the same instant, shown in UTC. *)
Definition UTC (t : Time) : Time := mkTimeIn (unixSec t) (nsec t) LocUTC.

(** [t.In(loc)] *)
Definition In (t : Time) (loc : Location) : Time :=
  mkTimeIn (unixSec t) (nsec t) loc.

End TimeOps.

(** ** error.go *)

Record ValidationError := mkValidationError { Field : string; Message : string }.

(** The error values this package produces: a [ValidationError], or an
    [errors.New]/[fmt.Errorf] value with its text; [Wrapped] is
    [fmt.Errorf(prefix + "%w", err)]. *)
Inductive ErrorValue :=
| EValidation (v : ValidationError)
| EText (msg : string)
| EWrapped (prefix : string) (cause : ErrorValue).

Definition error : Type := option ErrorValue.

(** [NewError] *)
Definition NewError (field message : string) : error :=
  Some (EValidation (mkValidationError field message)).

(** [err.Error()] *)
Fixpoint Error (e : ErrorValue) : string :=
  match e with
  | EValidation v =>
    "validation error in field '" +:+ Field v +:+ "': " +:+ Message v
  | EText msg => msg
  | EWrapped prefix cause => prefix +:+ Error cause
  end.

(** The [ValidationError] an error carries ([errors.As]). *)
Fixpoint asValidationError (e : ErrorValue) : option ValidationError :=
  match e with
  | EValidation v => Some v
  | EText _ => None
  | EWrapped _ cause => asValidationError cause
  end.

(** ** entry.go *)

Record Author := mkAuthor { AuthorName : string; Email : string; AuthorURL : string }.

(** [Tags] is the list of the elements of the slice: the code never tells a
    nil [Tags] from an empty one, and [omitempty] leaves both out of the
    JSON. *)
Record Entry := mkEntry {
  ID : string;
  Title : string;
  Content : string;
  Summary : string;
  URL : string;
  Published : Time;
  Updated : option Time;
  EntryAuthor : option Author;
  Tags : list string;
  Category : string;
  Image : string;
  ReadingTime : Z
}.

(** [CalculateReadingTime] (feed.go) *)
Definition CalculateReadingTime (content : string) : Z :=
  if String.eqb content "" then 0
  else
    let plainText := Regexp.ReplaceAllTags content " " in
    let words := Strings.Fields plainText in
    let wordCount := Z.of_nat (length words) in
    let readingTime := Z.quot wordCount 200 in
    Z.max readingTime 1.

(** [isValidURL] (feed.go) *)
Definition isValidURL (str : string) : bool :=
  if String.eqb str "" then false
  else Strings.HasPrefix str "http://" || Strings.HasPrefix str "https://".

(** [NewEntry] *)
Definition NewEntry (id title url : string) (published : Time) : Entry :=
  {| ID := id; Title := title; Content := ""; Summary := ""; URL := url;
     Published := TimeOps.UTC published; Updated := None; EntryAuthor := None;
     Tags := []; Category := ""; Image := ""; ReadingTime := 0 |}.

(** [Entry.SetContent] *)
Definition SetContent (e : Entry) (content : string) : Entry :=
  {| ID := ID e; Title := Title e;
     Content := content;
     Summary := Summary e; URL := URL e; Published := Published e;
     Updated := Updated e; EntryAuthor := EntryAuthor e; Tags := Tags e;
     Category := Category e; Image := Image e;
     ReadingTime := CalculateReadingTime content |}.

(** [Entry.SetSummary] *)
Definition SetSummary (e : Entry) (summary : string) : Entry :=
  {| ID := ID e; Title := Title e; Content := Content e;
     Summary := summary;
     URL := URL e; Published := Published e;
     Updated := Updated e; EntryAuthor := EntryAuthor e; Tags := Tags e;
     Category := Category e; Image := Image e; ReadingTime := ReadingTime e |}.

(** [Entry.Validate] *)
Definition Entry_Validate (e : Entry) : error :=
  if String.eqb (Strings.TrimSpace (ID e)) "" then NewError "id" "id is required"
  else if String.eqb (Strings.TrimSpace (Title e)) "" then
    NewError "title" "title is required"
  else if negb (isValidURL (URL e)) then NewError "url" "url must be a valid URL"
  else if TimeOps.IsZero (Published e) then
    NewError "published" "published timestamp is required"
  else if negb (String.eqb (Image e) "") && negb (isValidURL (Image e)) then
    NewError "image" "image must be a valid URL"
  else None.


(** ** Outcomes of Go code *)

(** A function that returns [(T, error)]. *)
Inductive Result (A : Type) :=
| Ok (a : A)
| Err (e : ErrorValue).
Arguments Ok {A} a.
Arguments Err {A} e.

(** A call either returns or brings the goroutine down (a run-time panic
    such as a nil dereference or an index out of range, or a fatal error). *)
Inductive Go (A : Type) :=
| Ret (a : A)
| Panic (msg : string).
Arguments Ret {A} a.
Arguments Panic {A} msg.

(** The wall clock: [clock k] is what the [k]-th call of [time.Now] reads,
    [tick] counts the calls made so far. *)
Record World := mkWorld { clock : nat -> Time; tick : nat }.

(** Code that may read the clock and may panic. *)
Definition M (A : Type) : Type := World -> Go (A * World).

Definition ret {A} (a : A) : M A := fun w => Ret (a, w).

Definition bind {A B} (m : M A) (k : A -> M B) : M B :=
  fun w =>
    match m w with
    | Ret (a, w') => k a w'
    | Panic msg => Panic msg
    end.

Definition panic {A} (msg : string) : M A := fun _ => Panic msg.

Notation "'let*' x ':=' m 'in' k" := (bind m (fun x => k))
  (at level 10, x pattern, m at level 100, k at level 200,
   format "'[v' 'let*'  x  ':='  m  'in' '/' k ']'").

(** [time.Now()] *)
Definition time_Now : M Time :=
  fun w => Ret (clock w (tick w), mkWorld (clock w) (S (tick w))).

(** [*p] for a pointer that may be nil. *)
Definition deref {A} (p : option A) : M A :=
  match p with
  | Some a => ret a
  | None => panic "invalid memory address or nil pointer dereference"
  end.

(** ** feed.go: the feed and its validation *)

Definition Version : string := "1.0".
Definition ContentTypeJSON : string := "application/json; charset=utf-8".
Definition DefaultCacheControl : string := "public, max-age=3600".

(** [Items] holds the elements of the slice [f.Items]; [ItemsNil] is set
    when that slice is nil (a literal that leaves [Items] out, a document
    without [items]) and is read only when [Items] is empty. *)
Record Feed := mkFeed {
  FeedVersion : string;
  FeedTitle : string;
  Description : string;
  HomePageURL : string;
  FeedURL : string;
  Language : string;
  FeedAuthor : option Author;
  LastUpdated : option Time;
  Items : list Entry;
  ItemsNil : bool
}.

(** [f.Items] as Go has it: a slice is nil or holds elements, and the nil
    slice differs from the empty one that [make], [append] or decoding [[]]
    gives.  [None] stands for the nil slice. *)
Definition itemsSlice (f : Feed) : option (list Entry) :=
  match Items f with
  | [] => if ItemsNil f then None else Some []
  | items => Some items
  end.

(** [NewFeed] *)
Definition NewFeed (title feedURL : string) : M Feed :=
  let* now := time_Now in
  ret {| FeedVersion := Version; FeedTitle := title; Description := "";
         HomePageURL := ""; FeedURL := feedURL; Language := "";
         FeedAuthor := None; LastUpdated := Some (TimeOps.UTC now);
         Items := []; ItemsNil := false |}.

(** [Feed.AddEntry] *)
Definition AddEntry (f : Feed) (entry : Entry) : M Feed :=
  let* now := time_Now in
  ret {| FeedVersion := FeedVersion f; FeedTitle := FeedTitle f;
         Description := Description f; HomePageURL := HomePageURL f;
         FeedURL := FeedURL f; Language := Language f;
         FeedAuthor := FeedAuthor f;
         LastUpdated := Some (TimeOps.UTC now);
         Items := (Items f ++ [entry])%list; ItemsNil := false |}.

(** [Feed.SetDescription] *)
Definition SetDescription (f : Feed) (description : string) : Feed :=
  {| FeedVersion := FeedVersion f; FeedTitle := FeedTitle f;
     Description := description;
     HomePageURL := HomePageURL f; FeedURL := FeedURL f;
     Language := Language f; FeedAuthor := FeedAuthor f;
     LastUpdated := LastUpdated f; Items := Items f;
     ItemsNil := ItemsNil f |}.

(** [Feed.SetLanguage] *)
Definition SetLanguage (f : Feed) (language : string) : Feed :=
  {| FeedVersion := FeedVersion f; FeedTitle := FeedTitle f;
     Description := Description f; HomePageURL := HomePageURL f;
     FeedURL := FeedURL f;
     Language := language;
     FeedAuthor := FeedAuthor f; LastUpdated := LastUpdated f;
     Items := Items f; ItemsNil := ItemsNil f |}.

(** [fmt.Sprintf("%d", n)] *)
Definition fmt_d (n : Z) : string := pretty n.

(** The loop of [Feed.Validate] over [f.Items]: [i] is the index of the
    entry at the head of [items], [entryIDs] the identifiers seen so far
    (a [map[string]bool]; an absent key reads [false]). *)
Fixpoint validateItems (i : Z) (entryIDs : gmap string bool) (items : list Entry)
  : error :=
  match items with
  | [] => None
  | entry :: rest =>
    match Entry_Validate entry with
    | Some err => Some (EWrapped ("entry " +:+ fmt_d i +:+ ": ") err)
    | None =>
      if default false (entryIDs !! ID entry) then
        NewError "items" ("duplicate entry ID: " +:+ ID entry)
      else validateItems (i + 1) (<[ID entry := true]> entryIDs) rest
    end
  end.

(** [Feed.Validate] *)
Definition Feed_Validate (f : Feed) : error :=
  if negb (String.eqb (FeedVersion f) Version) then
    NewError "version"
      ("unsupported version: " +:+ FeedVersion f +:+ ", expected: " +:+ Version)
  else if String.eqb (Strings.TrimSpace (FeedTitle f)) "" then
    NewError "title" "title is required"
  else if negb (isValidURL (FeedURL f)) then
    NewError "feed_url" "feed_url must be a valid URL"
  else if negb (String.eqb (HomePageURL f) "") && negb (isValidURL (HomePageURL f)) then
    NewError "home_page_url" "home_page_url must be a valid URL"
  else validateItems 0 ∅ (Items f).

(** ** Functions of Go's standard library taken by their contract *)

(** [t.Format(layout)] *)
Class TimeFormat := time_Format : Time -> string -> string.

(** [encoding/json] at a Go type: [json.Marshal], [json.MarshalIndent] and
    [json.Unmarshal].  Marshalling can fail: a [time.Time] whose year is
    outside [0,9999] has no JSON form. *)
Class Json (A : Type) := {
  json_Marshal : A -> Result string;
  json_MarshalIndent : A -> string -> string -> Result string;
  json_Unmarshal : string -> Result A
}.

(** [crypto/sha256], written out from FIPS 180-4. *)
Module Sha256.

Definition mask32 (x : Z) : Z := Z.land x 0xFFFFFFFF.
Definition add32 (x y : Z) : Z := mask32 (x + y).
Definition rotr (n x : Z) : Z := mask32 (Z.lor (Z.shiftr x n) (Z.shiftl x (32 - n))).
Definition shr (n x : Z) : Z := Z.shiftr x n.
Definition not32 (x : Z) : Z := Z.lxor x 0xFFFFFFFF.

Definition Ch (x y z : Z) : Z := Z.lxor (Z.land x y) (Z.land (not32 x) z).
Definition Maj (x y z : Z) : Z :=
  Z.lxor (Z.lxor (Z.land x y) (Z.land x z)) (Z.land y z).
Definition bigSigma0 (x : Z) : Z := Z.lxor (Z.lxor (rotr 2 x) (rotr 13 x)) (rotr 22 x).
Definition bigSigma1 (x : Z) : Z := Z.lxor (Z.lxor (rotr 6 x) (rotr 11 x)) (rotr 25 x).
Definition smallSigma0 (x : Z) : Z := Z.lxor (Z.lxor (rotr 7 x) (rotr 18 x)) (shr 3 x).
Definition smallSigma1 (x : Z) : Z := Z.lxor (Z.lxor (rotr 17 x) (rotr 19 x)) (shr 10 x).

(** The prime numbers below [bound], by trial division. *)
Definition isPrime (n : nat) : bool :=
  (2 <=? n)%nat && forallb (fun d => negb (n mod d =? 0)%nat) (seq 2 (n - 2)).

Definition primesBelow (bound : nat) : list Z :=
  map Z.of_nat (filter (fun n => isPrime n = true) (seq 0 bound)).

(** The largest [r] below [2 ^ bits] whose cube does not exceed [n], bit by
    bit from the top. *)
Fixpoint cubeRoot (bits : nat) (n r : Z) : Z :=
  match bits with
  | O => r
  | S bits' =>
    let r' := r + Z.shiftl 1 (Z.of_nat bits') in
    cubeRoot bits' n (if r' * r' * r' <=? n then r' else r)
  end.

(** The first 32 bits of the fractional part of the cube root of [p]. *)
Definition fracCubeRoot (p : Z) : Z := mask32 (cubeRoot 36 (Z.shiftl p 96) 0).

(** The first 32 bits of the fractional part of the square root of [p]. *)
Definition fracSquareRoot (p : Z) : Z := mask32 (Z.sqrt (Z.shiftl p 64)).

(** The round constants: from the cube roots of the first 64 primes. *)
Definition K : list Z := Eval vm_compute in map fracCubeRoot (primesBelow 312).

(** The initial hash value: from the square roots of the first 8 primes. *)
Definition init : list Z := Eval vm_compute in map fracSquareRoot (primesBelow 20).

Definition bytes (s : string) : list Z :=
  map (fun c => Z.of_N (N_of_ascii c)) (list_ascii_of_string s).

(** Big-endian bytes of [x], [n] of them. *)
Fixpoint be_bytes (n : nat) (x : Z) : list Z :=
  match n with
  | O => []
  | S n' => Z.land (Z.shiftr x (8 * Z.of_nat n')) 0xFF :: be_bytes n' x
  end.

(** The message, the byte 0x80, zeros up to 56 modulo 64, the bit length
    on 64 bits. *)
Definition pad (msg : list Z) : list Z :=
  let len := Z.of_nat (length msg) in
  let zeros := Z.to_nat ((55 - len) mod 64) in
  (msg ++ [0x80] ++ repeat 0 zeros ++ be_bytes 8 (8 * len))%list.

Fixpoint words (fuel : nat) (bs : list Z) : list Z :=
  match fuel, bs with
  | S fuel', b0 :: b1 :: b2 :: b3 :: rest =>
    Z.lor (Z.shiftl b0 24) (Z.lor (Z.shiftl b1 16) (Z.lor (Z.shiftl b2 8) b3))
    :: words fuel' rest
  | _, _ => []
  end.

(** The message schedule, newest word first: [w] holds W[t-1], W[t-2], ... *)
Fixpoint schedule (n : nat) (w : list Z) : list Z :=
  match n with
  | O => w
  | S n' =>
    let wt := add32 (add32 (smallSigma1 (nth 1 w 0)) (nth 6 w 0))
                    (add32 (smallSigma0 (nth 14 w 0)) (nth 15 w 0)) in
    schedule n' (wt :: w)
  end.

Definition round (st : list Z) (kw : Z * Z) : list Z :=
  match st with
  | [a; b; c; d; e; f; g; h] =>
    let t1 := add32 (add32 (add32 h (bigSigma1 e)) (add32 (Ch e f g) (fst kw))) (snd kw) in
    let t2 := add32 (bigSigma0 a) (Maj a b c) in
    [add32 t1 t2; a; b; c; add32 d t1; e; f; g]
  | _ => st
  end.

Definition block (h : list Z) (m : list Z) : list Z :=
  let w := rev (schedule 48 (rev m)) in
  let st := fold_left round (combine K w) h in
  map (fun p => add32 (fst p) (snd p)) (combine h st).

Fixpoint blocks (fuel : nat) (h : list Z) (ws : list Z) : list Z :=
  match fuel, ws with
  | S fuel', _ :: _ => blocks fuel' (block h (take 16 ws)) (drop 16 ws)
  | _, _ => h
  end.

(** [sha256.Sum256]: the 32 bytes of the digest. *)
Definition Sum256 (data : string) : string :=
  let bs := pad (bytes data) in
  let ws := words (length bs) bs in
  let h := blocks (length ws) init ws in
  string_of_list_ascii
    (map (fun b => ascii_of_N (Z.to_N b)) (flat_map (be_bytes 4) h)).

End Sha256.

(** [sort.Slice(x, less)], with [less] read on the elements rather than on
    their indices. *)
Class SliceSorter := sort_Slice : forall A : Type, (A -> A -> bool) -> list A -> list A.

(** A strict weak ordering, which [sort.Slice] asks of [less]. *)
Record StrictWeak {A} (less : A -> A -> bool) : Prop := {
  sw_irrefl : forall x, less x x = false;
  sw_trans : forall x y z, less x y = true -> less y z = true -> less x z = true;
  sw_incomp : forall x y z,
    less x y = false -> less y x = false ->
    less y z = false -> less z y = false ->
    less x z = false /\ less z x = false
}.

(** [l] is in the order of [less]: no later element is less than an earlier
    one. *)
Definition SortedBy {A} (less : A -> A -> bool) (l : list A) : Prop :=
  StronglySorted (fun x y => less y x = false) l.

(** What the documentation of [sort.Slice] promises: the slice is
    rearranged, and ends up in the order of [less].  "The sort is not
    guaranteed to be stable: equal elements may be reversed from their
    original order." *)
Class SliceSorterSpec (S : SliceSorter) : Prop := {
  sort_Slice_perm : forall A (less : A -> A -> bool) (l : list A),
    Permutation l (sort_Slice A less l);
  sort_Slice_sorted : forall A (less : A -> A -> bool) (l : list A),
    StrictWeak less -> SortedBy less (sort_Slice A less l)
}.

(** [sort.Slice] as package sort implements it since Go 1.19
    (zsortfunc.go): pattern-defeating quicksort. *)
Module Pdqsort.
Section Pdqsort.

Context {A : Type} (less : A -> A -> bool).

(** [data.Less(i, j)] and [data.Swap(i, j)]; the indices the algorithm
    uses always lie within the slice. *)
Definition Less (d : list A) (i j : Z) : bool :=
  match d !! Z.to_nat i, d !! Z.to_nat j with
  | Some x, Some y => less x y
  | _, _ => false
  end.

Definition Swap (d : list A) (i j : Z) : list A :=
  match d !! Z.to_nat i, d !! Z.to_nat j with
  | Some x, Some y => <[Z.to_nat i := y]> (<[Z.to_nat j := x]> d)
  | _, _ => d
  end.

(** [for j := i; j > a && data.Less(j, j-1); j-- { data.Swap(j, j-1) }] *)
Fixpoint insertDown (fuel : nat) (d : list A) (a j : Z) : list A :=
  match fuel with
  | O => d
  | S fuel' =>
    if (a <? j) && Less d j (j - 1) then insertDown fuel' (Swap d j (j - 1)) a (j - 1)
    else d
  end.

Fixpoint insertionLoop (fuel : nat) (d : list A) (a b i : Z) : list A :=
  match fuel with
  | O => d
  | S fuel' =>
    if i <? b then insertionLoop fuel' (insertDown (Z.to_nat (i - a)) d a i) a b (i + 1)
    else d
  end.

(** [insertionSort_func] *)
Definition insertionSort (d : list A) (a b : Z) : list A :=
  insertionLoop (Z.to_nat (b - a)) d a b (a + 1).

(** [siftDown_func] *)
Fixpoint siftDown (fuel : nat) (d : list A) (root hi first : Z) : list A :=
  match fuel with
  | O => d
  | S fuel' =>
    let child := 2 * root + 1 in
    if hi <=? child then d
    else
      let child :=
        if (child + 1 <? hi) && Less d (first + child) (first + child + 1)
        then child + 1 else child in
      if negb (Less d (first + root) (first + child)) then d
      else siftDown fuel' (Swap d (first + root) (first + child)) child hi first
  end.

(** [for i := from; i >= 0; i-- { siftDown_func(data, i, hi, first) }] *)
Fixpoint heapify (fuel : nat) (d : list A) (i hi first : Z) : list A :=
  match fuel with
  | O => d
  | S fuel' =>
    if 0 <=? i then heapify fuel' (siftDown (Z.to_nat hi) d i hi first) (i - 1) hi first
    else d
  end.

(** [for i := hi - 1; i >= 0; i-- { data.Swap(first, first+i); siftDown_func(data, lo, i, first) }] *)
Fixpoint popAll (fuel : nat) (d : list A) (i first : Z) : list A :=
  match fuel with
  | O => d
  | S fuel' =>
    if 0 <=? i then
      popAll fuel' (siftDown (Z.to_nat i) (Swap d first (first + i)) 0 i first) (i - 1) first
    else d
  end.

(** [heapSort_func] *)
Definition heapSort (d : list A) (a b : Z) : list A :=
  let first := a in
  let hi := b - a in
  let d := heapify (Z.to_nat hi) d (Z.quot (hi - 1) 2) hi first in
  popAll (Z.to_nat hi) d (hi - 1) first.

(** The two scans of [partition_func]. *)
Fixpoint scanUp (fuel : nat) (d : list A) (a i j : Z) : Z :=
  match fuel with
  | O => i
  | S fuel' => if (i <=? j) && Less d i a then scanUp fuel' d a (i + 1) j else i
  end.

Fixpoint scanDown (fuel : nat) (d : list A) (a i j : Z) : Z :=
  match fuel with
  | O => j
  | S fuel' => if (i <=? j) && negb (Less d j a) then scanDown fuel' d a i (j - 1) else j
  end.

(** The closing [for] loop of [partition_func]; the result is the slice
    and [j]. *)
Fixpoint partitionLoop (fuel : nat) (d : list A) (a i j : Z) : list A * Z :=
  match fuel with
  | O => (d, j)
  | S fuel' =>
    let i := scanUp (S fuel) d a i j in
    let j := scanDown (S fuel) d a i j in
    if j <? i then (d, j)
    else partitionLoop fuel' (Swap d i j) a (i + 1) (j - 1)
  end.

(** [partition_func]: the slice, the pivot's final index, and whether the
    slice was already partitioned. *)
Definition partition (d : list A) (a b pivot : Z) : list A * Z * bool :=
  let n := Z.to_nat (b - a) in
  let d := Swap d a pivot in
  let i := a + 1 in
  let j := b - 1 in
  let i := scanUp n d a i j in
  let j := scanDown n d a i j in
  if j <? i then (Swap d j a, j, true)
  else
    let d := Swap d i j in
    let '(d, j) := partitionLoop n d a (i + 1) (j - 1) in
    (Swap d j a, j, false).

Fixpoint scanUpEq (fuel : nat) (d : list A) (a i j : Z) : Z :=
  match fuel with
  | O => i
  | S fuel' => if (i <=? j) && negb (Less d a i) then scanUpEq fuel' d a (i + 1) j else i
  end.

Fixpoint scanDownEq (fuel : nat) (d : list A) (a i j : Z) : Z :=
  match fuel with
  | O => j
  | S fuel' => if (i <=? j) && Less d a j then scanDownEq fuel' d a i (j - 1) else j
  end.

Fixpoint partitionEqualLoop (fuel : nat) (d : list A) (a i j : Z) : list A * Z :=
  match fuel with
  | O => (d, i)
  | S fuel' =>
    let i := scanUpEq (S fuel) d a i j in
    let j := scanDownEq (S fuel) d a i j in
    if j <? i then (d, i)
    else partitionEqualLoop fuel' (Swap d i j) a (i + 1) (j - 1)
  end.

(** [partitionEqual_func] *)
Definition partitionEqual (d : list A) (a b pivot : Z) : list A * Z :=
  partitionEqualLoop (Z.to_nat (b - a)) (Swap d a pivot) a (a + 1) (b - 1).

(** [partialInsertionSort_func]; [shiftLeft] and [shiftRight] are its two
    inner loops. *)
Fixpoint shiftLeft (fuel : nat) (d : list A) (j : Z) : list A :=
  match fuel with
  | O => d
  | S fuel' =>
    if 1 <=? j then
      if negb (Less d j (j - 1)) then d
      else shiftLeft fuel' (Swap d j (j - 1)) (j - 1)
    else d
  end.

Fixpoint shiftRight (fuel : nat) (d : list A) (j b : Z) : list A :=
  match fuel with
  | O => d
  | S fuel' =>
    if j <? b then
      if negb (Less d j (j - 1)) then d
      else shiftRight fuel' (Swap d j (j - 1)) (j + 1) b
    else d
  end.

Fixpoint skipOrdered (fuel : nat) (d : list A) (i b : Z) : Z :=
  match fuel with
  | O => i
  | S fuel' => if (i <? b) && negb (Less d i (i - 1)) then skipOrdered fuel' d (i + 1) b else i
  end.

Definition maxSteps : nat := 5.
Definition shortestShifting : Z := 50.

Fixpoint partialInsertionLoop (steps : nat) (d : list A) (a b i : Z) : list A * bool :=
  match steps with
  | O => (d, false)
  | S steps' =>
    let i := skipOrdered (Z.to_nat (b - a)) d i b in
    if i =? b then (d, true)
    else if b - a <? shortestShifting then (d, false)
    else
      let d := Swap d i (i - 1) in
      let d := if 2 <=? i - a then shiftLeft (Z.to_nat i) d (i - 1) else d in
      let d := if 2 <=? b - i then shiftRight (Z.to_nat b) d (i + 1) b else d in
      partialInsertionLoop steps' d a b i
  end.

Definition partialInsertionSort (d : list A) (a b : Z) : list A * bool :=
  partialInsertionLoop maxSteps d a b (a + 1).

(** [xorshift.Next] on 64 bits. *)
Definition mask64 (x : Z) : Z := Z.land x 0xFFFFFFFFFFFFFFFF.

Definition xorshiftNext (r : Z) : Z :=
  let r := Z.lxor r (mask64 (Z.shiftl r 13)) in
  let r := Z.lxor r (Z.shiftr r 7) in
  Z.lxor r (mask64 (Z.shiftl r 17)).

(** [bits.Len] *)
Definition bitsLen (n : Z) : Z := if n <=? 0 then 0 else Z.log2 n + 1.

Definition nextPowerOfTwo (length : Z) : Z := Z.shiftl 1 (bitsLen length).

Fixpoint breakLoop (n : nat) (d : list A) (a length idx i random modulus : Z) : list A :=
  match n with
  | O => d
  | S n' =>
    let random := xorshiftNext random in
    let other := Z.land random (modulus - 1) in
    let other := if length <=? other then other - length else other in
    breakLoop n' (Swap d (idx - 1 + i) (a + other)) a length idx (i + 1) random modulus
  end.

(** [breakPatterns_func] *)
Definition breakPatterns (d : list A) (a b : Z) : list A :=
  let length := b - a in
  if 8 <=? length then
    let idx := a + (Z.quot length 4) * 2 - 1 in
    breakLoop 3 d a length idx 0 length (nextPowerOfTwo length)
  else d.

Inductive sortedHint := unknownHint | increasingHint | decreasingHint.

(** [order2_func], [median_func], [medianAdjacent_func]: indices and the
    swap counter. *)
Definition order2 (d : list A) (a b : Z) (swaps : Z) : Z * Z * Z :=
  if Less d b a then (b, a, swaps + 1) else (a, b, swaps).

Definition median (d : list A) (a b c : Z) (swaps : Z) : Z * Z :=
  let '(a, b, swaps) := order2 d a b swaps in
  let '(b, c, swaps) := order2 d b c swaps in
  let '(a, b, swaps) := order2 d a b swaps in
  (b, swaps).

Definition medianAdjacent (d : list A) (a : Z) (swaps : Z) : Z * Z :=
  median d (a - 1) a (a + 1) swaps.

Definition shortestNinther : Z := 50.
Definition maxSwaps : Z := 4 * 3.

(** [choosePivot_func] *)
Definition choosePivot (d : list A) (a b : Z) : Z * sortedHint :=
  let l := b - a in
  let i := a + Z.quot l 4 * 1 in
  let j := a + Z.quot l 4 * 2 in
  let k := a + Z.quot l 4 * 3 in
  let '(j, swaps) :=
    if 8 <=? l then
      let '(i, j, k, swaps) :=
        if shortestNinther <=? l then
          let '(i, swaps) := medianAdjacent d i 0 in
          let '(j, swaps) := medianAdjacent d j swaps in
          let '(k, swaps) := medianAdjacent d k swaps in
          (i, j, k, swaps)
        else (i, j, k, 0) in
      median d i j k swaps
    else (j, 0) in
  if swaps =? 0 then (j, increasingHint)
  else if swaps =? maxSwaps then (j, decreasingHint)
  else (j, unknownHint).

(** [reverseRange_func] *)
Fixpoint reverseLoop (fuel : nat) (d : list A) (i j : Z) : list A :=
  match fuel with
  | O => d
  | S fuel' => if i <? j then reverseLoop fuel' (Swap d i j) (i + 1) (j - 1) else d
  end.

Definition reverseRange (d : list A) (a b : Z) : list A :=
  reverseLoop (Z.to_nat (b - a)) d a (b - 1).

Definition maxInsertion : Z := 12.

Definition isIncreasing (h : sortedHint) : bool :=
  match h with increasingHint => true | _ => false end.

Definition isDecreasing (h : sortedHint) : bool :=
  match h with decreasingHint => true | _ => false end.

(** [pdqsort_func]: one turn of its [for] loop for each unit of fuel, the
    recursive call on the smaller side included; a slice of [n] elements
    needs no more than [n + 1]. *)
Fixpoint pdqsort (fuel : nat) (d : list A) (a b limit : Z)
  (wasBalanced wasPartitioned : bool) : list A :=
  match fuel with
  | O => d
  | S fuel' =>
    let length := b - a in
    if length <=? maxInsertion then insertionSort d a b
    else if limit =? 0 then heapSort d a b
    else
      let '(d, limit) :=
        if negb wasBalanced then (breakPatterns d a b, limit - 1) else (d, limit) in
      let '(pivot, hint) := choosePivot d a b in
      let '(d, pivot, hint) :=
        if isDecreasing hint then
          (reverseRange d a b, (b - 1) - (pivot - a), increasingHint)
        else (d, pivot, hint) in
      let '(d, done) :=
        if wasBalanced && wasPartitioned && isIncreasing hint
        then partialInsertionSort d a b else (d, false) in
      if done then d
      else if (0 <? a) && negb (Less d (a - 1) pivot) then
        let '(d, mid) := partitionEqual d a b pivot in
        pdqsort fuel' d mid b limit wasBalanced wasPartitioned
      else
        let '(d, mid, alreadyPartitioned) := partition d a b pivot in
        let leftLen := mid - a in
        let rightLen := b - mid in
        let balanceThreshold := Z.quot length 8 in
        if leftLen <? rightLen then
          let d := pdqsort fuel' d a mid limit true true in
          pdqsort fuel' d (mid + 1) b limit (balanceThreshold <=? leftLen) alreadyPartitioned
        else
          let d := pdqsort fuel' d (mid + 1) b limit true true in
          pdqsort fuel' d a mid limit (balanceThreshold <=? rightLen) alreadyPartitioned
  end.

End Pdqsort.

(** [sort.Slice] *)
Definition Slice {A} (less : A -> A -> bool) (x : list A) : list A :=
  let length := Z.of_nat (List.length x) in
  pdqsort less (S (List.length x)) x 0 length (bitsLen length) true true.

End Pdqsort.

(** [hex.EncodeToString] *)
Module Hex.

Definition hextable : list ascii := list_ascii_of_string "0123456789abcdef".

Definition digit (n : N) : ascii := nth (N.to_nat n) hextable "0"%char.

Fixpoint EncodeToString (src : string) : string :=
  match src with
  | EmptyString => EmptyString
  | String c rest =>
    let v := N_of_ascii c in
    String (digit (N.shiftr v 4)) (String (digit (N.land v 15)) (EncodeToString rest))
  end.

End Hex.

(** ** net/http: requests and response writers *)

(** An [http.Header]. *)
Abbreviation Header := (gmap string (list string)).

(** [h.Get(key)]: the first value of a key, or the empty string. *)
Definition Header_Get (h : Header) (key : string) : string :=
  match h !! key with
  | Some (v :: _) => v
  | _ => ""
  end.

(** [h.Set(key, value)] *)
Definition Header_Set (h : Header) (key value : string) : Header :=
  <[key := [value]]> h.

Record Request := mkRequest { ReqHeader : Header }.

(** An [http.ResponseWriter]: the header map, the status line once it is
    written, the body written so far. *)
Record ResponseWriter := mkResponseWriter {
  RespHeader : Header;
  RespStatus : option Z;
  RespBody : string
}.

Definition newResponseWriter : ResponseWriter := mkResponseWriter ∅ None "".

Definition StatusOK : Z := 200.
Definition StatusNotModified : Z := 304.
Definition StatusInternalServerError : Z := 500.
Definition StatusServiceUnavailable : Z := 503.

(** [http.TimeFormat] *)
Definition http_TimeFormat : string := "Mon, 02 Jan 2006 15:04:05 GMT".

(** [w.Header().Set(key, value)] *)
Definition SetHeader (w : ResponseWriter) (key value : string) : ResponseWriter :=
  mkResponseWriter (Header_Set (RespHeader w) key value) (RespStatus w) (RespBody w).

(** [w.WriteHeader(code)]: only the first call counts. *)
Definition WriteHeader (w : ResponseWriter) (code : Z) : ResponseWriter :=
  match RespStatus w with
  | Some _ => w
  | None => mkResponseWriter (RespHeader w) (Some code) (RespBody w)
  end.

(** [w.Write(data)] writes the status 200 first if none was written. *)
Definition Write (w : ResponseWriter) (data : string) : ResponseWriter :=
  let w' := WriteHeader w StatusOK in
  mkResponseWriter (RespHeader w') (RespStatus w') (RespBody w' +:+ data).

Definition newline : string := String (ascii_of_nat 10) EmptyString.
Definition dquote : string := String (ascii_of_nat 34) EmptyString.

(** [http.Error(w, msg, code)] *)
Definition http_Error (w : ResponseWriter) (msg : string) (code : Z) : ResponseWriter :=
  let h := delete "Content-Length" (RespHeader w) in
  let h := Header_Set h "Content-Type" "text/plain; charset=utf-8" in
  let h := Header_Set h "X-Content-Type-Options" "nosniff" in
  let w' := WriteHeader (mkResponseWriter h (RespStatus w) (RespBody w)) code in
  Write w' (msg +:+ newline).

(** ** feed.go: serving and hashing *)

Section FeedServing.

Context {TF : TimeFormat} {JF : Json Feed} {JE : Json (option (list Entry))}.

(** [Feed.ToJSON] *)
Definition ToJSON (f : Feed) : Result string := json_MarshalIndent f "" "  ".

(** [FromJSON] *)
Definition FromJSON (data : string) : Result Feed :=
  match json_Unmarshal data with
  | Err err => Err (EWrapped "failed to parse JSON: " err)
  | Ok feed =>
    match Feed_Validate feed with
    | Some err => Err (EWrapped "validation failed: " err)
    | None => Ok feed
    end
  end.

(** The validator token: [fmt.Sprintf(`"beam-%d-%d"`, unix, count)],
    double quotes included. *)
Definition etagOf (unix count : Z) : string :=
  dquote +:+ "beam-" +:+ fmt_d unix +:+ "-" +:+ fmt_d count +:+ dquote.

(** [Feed.ServeHTTP] *)
Definition Feed_ServeHTTP (f : Feed) (w : ResponseWriter) (r : Request)
  : Go ResponseWriter :=
  let w := SetHeader w "Content-Type" ContentTypeJSON in
  let w := SetHeader w "Cache-Control" DefaultCacheControl in
  let w :=
    match LastUpdated f with
    | Some t => SetHeader w "Last-Modified" (time_Format t http_TimeFormat)
    | None => w
    end in
  match LastUpdated f with
  | None => Panic "invalid memory address or nil pointer dereference"
  | Some t =>
    let etag := etagOf (TimeOps.Unix t) (Z.of_nat (length (Items f))) in
    let w := SetHeader w "ETag" etag in
    if String.eqb (Header_Get (ReqHeader r) "If-None-Match") etag then
      Ret (WriteHeader w StatusNotModified)
    else
      match ToJSON f with
      | Err _ => Ret (http_Error w "Internal server error" StatusInternalServerError)
      | Ok data => Ret (Write (WriteHeader w StatusOK) data)
      end
  end.

(** [ComputeFeedHash] and [ValidateFeedHash] have the receiver [f *Feed]:
    each returns its results together with the feed it leaves behind the
    pointer. *)

(** [Feed.ComputeFeedHash]: [json.Marshal(f.Items)] sees the slice: [null]
    for the nil one, an array otherwise, each entry with its times in their
    own zones. *)
Definition ComputeFeedHash (f : Feed) : Result string * Feed :=
  match json_Marshal (itemsSlice f) with
  | Err err => (Err err, f)
  | Ok data => (Ok (Hex.EncodeToString (Sha256.Sum256 data)), f)
  end.



End FeedServing.

(** ** aggregator.go *)

Record FeedSource := mkFeedSource {
  SourceURL : string;
  Name : string;
  SourceDescription : string;
  LastFetch : Time;
  Status : string;
  ErrorMsg : string
}.

(** The mutex [mu] has no field here: every method below holds it from its
    first to its last statement, so methods run one after the other. *)
Record Aggregator := mkAggregator {
  Sources : list FeedSource;
  AggregatedFeed : option Feed;
  fetchTimeout : Z
}.

Definition Second : Z := 1000000000.

(** [NewAggregator] *)
Definition NewAggregator (title feedURL : string) : M Aggregator :=
  let* feed := NewFeed title feedURL in
  ret {| Sources := []; AggregatedFeed := Some feed; fetchTimeout := 30 * Second |}.

(** [Aggregator.AddSource] *)
Definition AddSource (a : Aggregator) (url name description : string) : Aggregator :=
  {| Sources :=
       (Sources a ++
        [ {| SourceURL := url; Name := name; SourceDescription := description;
             LastFetch := TimeOps.zero; Status := "new"; ErrorMsg := "" |} ])%list;
     AggregatedFeed := AggregatedFeed a;
     fetchTimeout := fetchTimeout a |}.

(** What [client.Get(url)] comes back with: an error of the transport (a
    refused connection, the timeout), or a response with its status and its
    body, the body given by what [json.Decoder.Decode] makes of it. *)
Inductive HttpOutcome :=
| TransportError (err : ErrorValue)
| HttpResponse (StatusCode : Z) (StatusText : string) (decoded : Result Feed).

(** The network during one cycle: the outcome of the request that worker
    [i] makes with a given timeout to a given URL. *)
Definition Network : Type := nat -> Z -> string -> HttpOutcome.

(** [Aggregator.fetchFeedWithTimeout], called by worker [i]. *)
Definition fetchFeedWithTimeout (net : Network) (i : nat) (a : Aggregator) (url : string)
  : Result Feed :=
  match net i (fetchTimeout a) url with
  | TransportError err => Err (EWrapped "HTTP request failed: " err)
  | HttpResponse code status decoded =>
    if negb (code =? StatusOK) then
      Err (EText ("HTTP error: " +:+ fmt_d code +:+ " " +:+ status))
    else
      match decoded with
      | Err err => Err (EWrapped "JSON decode error: " err)
      | Ok feed =>
        match Feed_Validate feed with
        | Some err => Err (EWrapped "feed validation error: " err)
        | None => Ok feed
        end
      end
  end.

(** The local type [fetchResult]; [feed] and [err] are one [Result]. *)
Record fetchResult := mkFetchResult { index : nat; outcome : Result Feed }.

(** The [go func(index, src)] statements: one worker per source, each to
    send one result. *)
Definition launch (net : Network) (a : Aggregator) : list fetchResult :=
  imap (fun i source => mkFetchResult i (fetchFeedWithTimeout net i a (SourceURL source)))
       (Sources a).

(** [<-results]: the workers finish in an order the code does not control.
    [choice] picks which of the results still to come arrives next. *)
Definition recv (choice : nat) (pending : list fetchResult)
  : option (fetchResult * list fetchResult) :=
  let k := (choice mod length pending)%nat in
  match pending !! k with
  | Some r => Some (r, delete k pending)
  | None => None
  end.

(** The summary of an entry taken over from the source called [name]. *)
Definition enrich (name : string) (entry : Entry) : Entry :=
  if negb (String.eqb (Summary entry) "") then
    SetSummary entry ("[" +:+ name +:+ "] " +:+ Summary entry)
  else SetSummary entry ("From " +:+ name).

Definition setFetched (src : FeedSource) (now : Time) (status errorMsg : string)
  : FeedSource :=
  {| SourceURL := SourceURL src; Name := Name src;
     SourceDescription := SourceDescription src;
     LastFetch := now; Status := status; ErrorMsg := errorMsg |}.

(** The state of the collecting loop. *)
Record Collected := mkCollected {
  sources : list FeedSource;
  allEntries : list Entry;
  successCount : Z
}.

(** One turn of the loop [for i := 0; i < len(a.Sources); i++]. *)
Definition collectOne (r : fetchResult) (c : Collected) : M Collected :=
  let* now := time_Now in
  match sources c !! index r with
  | None => panic "index out of range"
  | Some src =>
    match outcome r with
    | Err err =>
      ret (mkCollected (<[index r := setFetched src now "error" (Error err)]> (sources c))
                       (allEntries c) (successCount c))
    | Ok feed =>
      ret (mkCollected (<[index r := setFetched src now "active" ""]> (sources c))
                       (allEntries c ++ map (enrich (Name src)) (Items feed))%list
                       (successCount c + 1))
    end
  end.

(** The loop itself, [n] turns to go.  A receive with no result to come
    would block for ever. *)
Fixpoint collect (n : nat) (sched : list nat) (pending : list fetchResult)
  (c : Collected) : M Collected :=
  match n with
  | O => ret c
  | S n' =>
    match recv (hd O sched) pending with
    | None => panic "all goroutines are asleep - deadlock!"
    | Some (r, pending') =>
      let* c' := collectOne r c in
      collect n' (tl sched) pending' c'
    end
  end.

Definition maxEntries : nat := 100.

(** [allEntries = allEntries[:maxEntries]] when there are more. *)
Definition cap (entries : list Entry) : list Entry :=
  if (maxEntries <? length entries)%nat then take maxEntries entries else entries.

(** The comparison handed to [sort.Slice]: newest first. *)
Definition newerFirst (x y : Entry) : bool := TimeOps.After (Published x) (Published y).

(** [for _, entry := range allEntries { aggregatedFeed.AddEntry(entry) }] *)
Fixpoint addEntries (f : Feed) (entries : list Entry) : M Feed :=
  match entries with
  | [] => ret f
  | entry :: rest =>
    let* f' := AddEntry f entry in
    addEntries f' rest
  end.

Section Cycle.

Context {SS : SliceSorter}.

(** [Aggregator.FetchAllFeeds].  [net] is the network and [sched] the
    order in which the workers finish during this cycle.  The result is
    the returned error and the aggregator afterwards. *)
Definition FetchAllFeeds (net : Network) (sched : list nat) (a : Aggregator)
  : M (error * Aggregator) :=
  let results := launch net a in
  let* c := collect (length (Sources a)) sched results
                    (mkCollected (Sources a) [] 0) in
  let sorted := sort_Slice Entry newerFirst (allEntries c) in
  let capped := cap sorted in
  let* old := deref (AggregatedFeed a) in
  let* aggregatedFeed := NewFeed (FeedTitle old) (FeedURL old) in
  let aggregatedFeed :=
    SetDescription aggregatedFeed
      ("Aggregated content from " +:+ fmt_d (Z.of_nat (length (sources c)))
       +:+ " sources") in
  let aggregatedFeed := SetLanguage aggregatedFeed "en-US" in
  let* aggregatedFeed := addEntries aggregatedFeed capped in
  ret (None, {| Sources := sources c;
                AggregatedFeed := Some aggregatedFeed;
                fetchTimeout := fetchTimeout a |}).

End Cycle.

Section AggregatorServing.

Context {TF : TimeFormat} {JF : Json Feed}.

(** [Aggregator.ServeHTTP] *)
Definition Aggregator_ServeHTTP (a : Aggregator) (w : ResponseWriter) (r : Request)
  : Go ResponseWriter :=
  match AggregatedFeed a with
  | None =>
    Ret (http_Error w "Aggregated feed not available" StatusServiceUnavailable)
  | Some feed => Feed_ServeHTTP feed w r
  end.

End AggregatorServing.

(** The map [Aggregator.GetStats] returns. *)
Record Stats := mkStats {
  total_sources : Z;
  active_sources : Z;
  error_sources : Z;
  total_entries : Z;
  last_updated : option Time
}.

(** The [switch source.Status] of [GetStats], on the pair
    [(activeCount, errorCount)]. *)
Definition countSource (counts : Z * Z) (source : FeedSource) : Z * Z :=
  if String.eqb (Status source) "active" then (counts.1 + 1, counts.2)
  else if String.eqb (Status source) "error" then (counts.1, counts.2 + 1)
  else counts.

(** [Aggregator.GetStats] *)
Definition GetStats (a : Aggregator) : Go Stats :=
  let counts := fold_left countSource (Sources a) (0, 0) in
  let totalEntries :=
    match AggregatedFeed a with
    | Some feed => Z.of_nat (length (Items feed))
    | None => 0
    end in
  match AggregatedFeed a with
  | None => Panic "invalid memory address or nil pointer dereference"
  | Some feed =>
    Ret {| total_sources := Z.of_nat (length (Sources a));
           active_sources := counts.1;
           error_sources := counts.2;
           total_entries := totalEntries;
           last_updated := LastUpdated feed |}
  end.

(** ** Sorters to run the cycle with *)

(** Package sort's own algorithm. *)
Definition pdqSorter : SliceSorter := fun A less x => Pdqsort.Slice less x.

(** Insertion from the right, each element going in front of the first one
    that is not less than it: a sort that keeps equal elements in their
    order (what [sort.SliceStable] promises). *)
Fixpoint insertBefore {A} (less : A -> A -> bool) (x : A) (l : list A) : list A :=
  match l with
  | [] => [x]
  | y :: l' => if less y x then y :: insertBefore less x l' else x :: y :: l'
  end.

Definition stableSort {A} (less : A -> A -> bool) (l : list A) : list A :=
  foldr (insertBefore less) [] l.

Definition stableSorter : SliceSorter := fun A less x => stableSort less x.

(** The same on the reversed slice: equal elements come out in the reverse
    of their original order, which [sort.Slice] is free to do. *)
Definition reversingSorter : SliceSorter := fun A less x => stableSort less (rev x).

(** ** The merged sequence of a cycle *)

(** The results in the order the loop receives them. *)
Fixpoint arrival (n : nat) (sched : list nat) (pending : list fetchResult)
  : list fetchResult :=
  match n with
  | O => []
  | S n' =>
    match recv (hd O sched) pending with
    | None => []
    | Some (r, pending') => r :: arrival n' (tl sched) pending'
    end
  end.

(** The entries one result contributes, annotated with its source's name. *)
Definition entriesOf (srcs : list FeedSource) (r : fetchResult) : list Entry :=
  match outcome r, srcs !! index r with
  | Ok feed, Some src => map (enrich (Name src)) (Items feed)
  | _, _ => []
  end.

(** The merged sequence, in source-collection order. *)
Definition mergedEntries (net : Network) (sched : list nat) (a : Aggregator) : list Entry :=
  concat (map (entriesOf (Sources a))
              (arrival (length (Sources a)) sched (launch net a))).

(** Source [i] failed in this cycle. *)
Definition failed (net : Network) (a : Aggregator) (i : nat) (src : FeedSource) : bool :=
  match fetchFeedWithTimeout net i a (SourceURL src) with
  | Err _ => true
  | Ok _ => false
  end.

(** The number of sources that failed in this cycle. *)
Definition failures (net : Network) (a : Aggregator) : nat :=
  length (filter (fun b : bool => b = true) (imap (failed net a) (Sources a))).

(** ** Data to run the code on *)

(** A clock that starts on 2025-01-01 10:00:00 UTC and advances by a second
    at each reading; [time.Now] gives the time in the zone of the machine. *)
Definition world0 : World :=
  mkWorld (fun k => mkTimeIn (Z.of_nat k + 1735725600) 0 LocLocal) 0.

(** How the sample codecs show a location. *)
Definition zoneMark (loc : Location) : string :=
  match loc with
  | LocUTC => "Z"
  | LocLocal => "L"
  | LocFixed _ offset => if 0 <=? offset then "+" +:+ fmt_d offset else fmt_d offset
  | LocNamed name => name
  end.

(** A formatter that prints the Unix second whatever the layout. *)
Definition unixTimeFormat : TimeFormat := fun t _ => fmt_d (TimeOps.Unix t).

(** A formatter that, whatever the layout, prints the wall clock of the time
    in its own location, as seconds, followed by the location. *)
Definition zonedTimeFormat : TimeFormat :=
  fun t _ =>
    match location t with
    | LocFixed _ offset => fmt_d (TimeOps.Unix t + offset)
    | _ => fmt_d (TimeOps.Unix t)
    end +:+ zoneMark (location t).

Definition quoted (s : string) : string := dquote +:+ s +:+ dquote.

(** A feed document without [last_updated] and the feed it decodes to. *)
Definition bareDocument : string :=
  "{" +:+ quoted "version" +:+ ":" +:+ quoted "1.0" +:+ ","
  +:+ quoted "title" +:+ ":" +:+ quoted "Feed 01" +:+ ","
  +:+ quoted "feed_url" +:+ ":" +:+ quoted "http://localhost:8081/feed.json" +:+ ","
  +:+ quoted "items" +:+ ":[]}".

Definition bareFeed : Feed :=
  {| FeedVersion := "1.0"; FeedTitle := "Feed 01"; Description := "";
     HomePageURL := ""; FeedURL := "http://localhost:8081/feed.json";
     Language := ""; FeedAuthor := None; LastUpdated := None; Items := [];
     ItemsNil := false |}.

(** A codec that knows one document and prints a feed as its title and its
    number of items. *)
Definition oneDocumentJson : Json Feed :=
  {| json_Marshal f :=
       Ok ("{" +:+ quoted (FeedTitle f) +:+ ":" +:+ fmt_d (Z.of_nat (length (Items f))) +:+ "}");
     json_MarshalIndent f _ _ :=
       Ok ("{" +:+ quoted (FeedTitle f) +:+ ": " +:+ fmt_d (Z.of_nat (length (Items f))) +:+ "}");
     json_Unmarshal data :=
       if String.eqb data bareDocument then Ok bareFeed
       else Err (EText "unexpected end of JSON input") |}.

(** How the codec of entries below prints one entry: its identifier and its
    publication time in the zone of that time. *)
Definition stamped (e : Entry) : string :=
  quoted (ID e +:+ "@" +:+ fmt_d (TimeOps.Unix (Published e))
          +:+ zoneMark (location (Published e))).

(** A codec of entry slices: [null] for the nil slice, else the array of the
    entries. *)
Definition identifiersJson : Json (option (list Entry)) :=
  {| json_Marshal items :=
       match items with
       | None => Ok "null"
       | Some items => Ok ("[" +:+ String.concat "," (map stamped items) +:+ "]")
       end;
     json_MarshalIndent items _ _ :=
       match items with
       | None => Ok "null"
       | Some items => Ok ("[" +:+ String.concat ", " (map stamped items) +:+ "]")
       end;
     json_Unmarshal _ := Err (EText "unexpected end of JSON input") |}.

Definition sampleEntry (id : string) (published : Z) : Entry :=
  NewEntry id ("Title of " +:+ id) ("https://localhost:8081/" +:+ id) (mkTime published 0).

Definition sampleFeed (items : list Entry) : Feed :=
  {| FeedVersion := "1.0"; FeedTitle := "Feed 01"; Description := "";
     HomePageURL := ""; FeedURL := "http://localhost:8081/feed.json";
     Language := ""; FeedAuthor := None; LastUpdated := Some (mkTime 1735725000 0);
     Items := items; ItemsNil := false |}.

(** Source A of the specification's scenario: [a1] of 2025-01-01T10:00:00Z
    and [a2] of 2025-01-02T10:00:00Z. *)
Definition feedA : Feed :=
  sampleFeed [sampleEntry "a1" 1735725600; sampleEntry "a2" 1735812000].

(** Thirteen entries, the fourth, seventh and tenth a day newer than the
    rest. *)
Definition thirteen : list Entry :=
  imap (fun i id => sampleEntry id
          (if bool_decide (i = 3 \/ i = 6 \/ i = 9)%nat then 1735812000 else 1735725600))
       ["e00"; "e01"; "e02"; "e03"; "e04"; "e05"; "e06"; "e07"; "e08"; "e09";
        "e10"; "e11"; "e12"].

(** Two entries of the same instant. *)
Definition twins : list Entry := [sampleEntry "t1" 1735725600; sampleEntry "t2" 1735725600].

(** A network on which the URL ending in 8081 serves [feed] and every other
    request times out. *)
Definition netServing (feed : Feed) : Network := fun _ _ url =>
  if String.eqb url "http://localhost:8081/feed.json" then
    HttpResponse 200 "200 OK" (Ok feed)
  else TransportError (EText "context deadline exceeded").

(** The aggregator of the example program: two sources, A and B. *)
Definition exampleAggregator : M Aggregator :=
  let* a := NewAggregator "Tech News Aggregator" "http://localhost:8181/feed.json" in
  let a := AddSource a "http://localhost:8081/feed.json" "Feed 01" "Latest technology news" in
  let a := AddSource a "http://localhost:8082/feed.json" "Feed 02" "Social news" in
  ret a.

(** An aggregator with the single source A. *)
Definition singleSourceAggregator : M Aggregator :=
  let* a := NewAggregator "Tech News Aggregator" "http://localhost:8181/feed.json" in
  ret (AddSource a "http://localhost:8081/feed.json" "Feed 01" "Latest technology news").

(** The identifiers of the feed an aggregator publishes after [m]. *)
Definition publishedIDs (m : M (error * Aggregator)) (w : World) : option (list string) :=
  match m w with
  | Ret ((_, a), _) => (fun f => map ID (Items f)) <$> AggregatedFeed a
  | Panic _ => None
  end.

(** ** Notions the properties are stated with *)

(** The number of words [CalculateReadingTime] counts. *)
Definition wordCount (content : string) : Z :=
  Z.of_nat (length (Strings.Fields (Regexp.ReplaceAllTags content " "))).

(** The four checks [Feed.Validate] makes before it looks at the items. *)
Definition feedFieldsValid (f : Feed) : bool :=
  String.eqb (FeedVersion f) Version
  && negb (String.eqb (Strings.TrimSpace (FeedTitle f)) "")
  && isValidURL (FeedURL f)
  && (String.eqb (HomePageURL f) "" || isValidURL (HomePageURL f)).

(** [entryIDs] holds exactly the identifiers of [seen]. *)
Definition tracks (entryIDs : gmap string bool) (seen : list string) : Prop :=
  forall id, default false (entryIDs !! id) = true <-> id ∈ seen.

(** A feed of an unsupported version whose two items share an identifier. *)
Definition repeatedInVersion2 : Feed :=
  {| FeedVersion := "2.0"; FeedTitle := "Feed 01"; Description := "";
     HomePageURL := ""; FeedURL := "http://localhost:8081/feed.json";
     Language := ""; FeedAuthor := None; LastUpdated := None;
     Items := [sampleEntry "post" 1735725600; sampleEntry "post" 1735812000];
     ItemsNil := false |}.

(** The example feed with "a1" added a second time. *)
Definition repeatedA1 : Feed :=
  sampleFeed [sampleEntry "a1" 1735725600; sampleEntry "a2" 1735812000;
              sampleEntry "a1" 1735898400].

(** The loop of the cycle over the results in their order of arrival. *)
Fixpoint collectAll (order : list fetchResult) (c : Collected) : M Collected :=
  match order with
  | [] => ret c
  | r :: rest =>
    let* c' := collectOne r c in
    collectAll rest c'
  end.

(** The world after [n] more readings of the clock. *)
Definition advance (w : World) (n : nat) : World := mkWorld (clock w) (tick w + n)%nat.

(** A source after its result [r] was handled at the instant [now]. *)
Definition fetched (src : FeedSource) (now : Time) (r : fetchResult) : FeedSource :=
  match outcome r with
  | Err err => setFetched src now "error" (Error err)
  | Ok _ => setFetched src now "active" ""
  end.

(** The result worker [i] sends for the source [src]. *)
Definition resultOf (net : Network) (a : Aggregator) (i : nat) (src : FeedSource)
  : fetchResult :=
  mkFetchResult i (fetchFeedWithTimeout net i a (SourceURL src)).

(** The status the cycle leaves on a source that failed or not. *)
Definition statusOf (failedNow : bool) : string :=
  if failedNow then "error" else "active".

(** The published order keeps ties as they were merged: two distinct
    entries of the same published time stand in [items] as they stood in
    [merged]. *)
Definition KeepsTies (merged items : list Entry) : Prop :=
  forall (i j : nat) (x y : Entry),
    (i < j)%nat -> merged !! i = Some x -> merged !! j = Some y ->
    x <> y -> Published x = Published y ->
    forall i' j' : nat, items !! i' = Some x -> items !! j' = Some y -> (i' < j')%nat.

Definition urlA : string := "http://localhost:8081/feed.json".
Definition urlB : string := "http://localhost:8082/feed.json".

(** An aggregator that has published an empty feed and has no source. *)
Definition aggregatorNoSource : Aggregator :=
  {| Sources := [];
     AggregatedFeed :=
       Some {| FeedVersion := Version; FeedTitle := "Tech News Aggregator";
               Description := ""; HomePageURL := "";
               FeedURL := "http://localhost:8181/feed.json"; Language := "";
               FeedAuthor := None; LastUpdated := Some (mkTime 1735725000 0);
               Items := []; ItemsNil := false |};
     fetchTimeout := 30 * Second |}.

(** The same with the source A. *)
Definition aggregatorA : Aggregator :=
  AddSource aggregatorNoSource urlA "Feed 01" "Latest technology news".

(** The same with the sources A and B. *)
Definition aggregatorAB : Aggregator :=
  AddSource aggregatorA urlB "Feed 02" "Social news for hackers".

(** A network on which nothing answers. *)
Definition netDown : Network := fun _ _ _ =>
  TransportError (EText "dial tcp: connection refused").

(** [s] holds a minus sign. *)
Fixpoint hasDash (s : string) : bool :=
  match s with
  | EmptyString => false
  | String c rest => Ascii.eqb c "-" || hasDash rest
  end.

(** The feed [f] with its [LastUpdated] shown in [loc]. *)
Definition relocated (f : Feed) (loc : Location) : Feed :=
  {| FeedVersion := FeedVersion f; FeedTitle := FeedTitle f;
     Description := Description f; HomePageURL := HomePageURL f;
     FeedURL := FeedURL f; Language := Language f; FeedAuthor := FeedAuthor f;
     LastUpdated := (fun t => TimeOps.In t loc) <$> LastUpdated f;
     Items := Items f; ItemsNil := ItemsNil f |}.

(** One hour east of UTC. *)
Definition plusOne : Location := LocFixed "" 3600.

(** The entry [e] with its publication time shown in [loc]. *)
Definition publishedIn (e : Entry) (loc : Location) : Entry :=
  mkEntry (ID e) (Title e) (Content e) (Summary e) (URL e)
          (TimeOps.In (Published e) loc) (Updated e) (EntryAuthor e) (Tags e)
          (Category e) (Image e) (ReadingTime e).

(** Feed A with its two entries in the other order. *)
Definition feedAReversed : Feed :=
  sampleFeed [sampleEntry "a2" 1735812000; sampleEntry "a1" 1735725600].

(** Feed A with the first entry's time given as 11:00:00+01:00, the same
    instant. *)
Definition feedAZoned : Feed :=
  sampleFeed [publishedIn (sampleEntry "a1" 1735725600) plusOne;
              sampleEntry "a2" 1735812000].

(** A feed built by [NewFeed], whose [Items] is the empty slice, and the
    same feed as a literal that leaves [Items] out, the nil slice. *)
Definition emptyItemsFeed : Feed := sampleFeed [].

Definition nilItemsFeed : Feed :=
  {| FeedVersion := "1.0"; FeedTitle := "Feed 01"; Description := "";
     HomePageURL := ""; FeedURL := "http://localhost:8081/feed.json";
     Language := ""; FeedAuthor := None; LastUpdated := Some (mkTime 1735725000 0);
     Items := []; ItemsNil := true |}.

(** ** The rest of feed.go and entry.go *)

(** [t.Equal(u)] and [t.Before(u)] *)
Definition Time_Equal (t u : Time) : bool :=
  (unixSec t =? unixSec u) && (nsec t =? nsec u).

Definition Time_Before (t u : Time) : bool := TimeOps.After u t.

(** [Feed.SetHomePageURL] *)
Definition SetHomePageURL (f : Feed) (url : string) : Feed :=
  {| FeedVersion := FeedVersion f; FeedTitle := FeedTitle f;
     Description := Description f;
     HomePageURL := url;
     FeedURL := FeedURL f; Language := Language f; FeedAuthor := FeedAuthor f;
     LastUpdated := LastUpdated f; Items := Items f;
     ItemsNil := ItemsNil f |}.

(** [Feed.SetAuthor] *)
Definition Feed_SetAuthor (f : Feed) (name email url : string) : Feed :=
  {| FeedVersion := FeedVersion f; FeedTitle := FeedTitle f;
     Description := Description f; HomePageURL := HomePageURL f;
     FeedURL := FeedURL f; Language := Language f;
     FeedAuthor := Some (mkAuthor name email url);
     LastUpdated := LastUpdated f; Items := Items f;
     ItemsNil := ItemsNil f |}.

(** [Entry.SetTags], [Entry.SetCategory], [Entry.SetImage],
    [Entry.SetUpdated], [Entry.SetAuthor] *)
Definition SetTags (e : Entry) (tags : list string) : Entry :=
  mkEntry (ID e) (Title e) (Content e) (Summary e) (URL e) (Published e)
          (Updated e) (EntryAuthor e) tags (Category e) (Image e) (ReadingTime e).

Definition SetCategory (e : Entry) (category : string) : Entry :=
  mkEntry (ID e) (Title e) (Content e) (Summary e) (URL e) (Published e)
          (Updated e) (EntryAuthor e) (Tags e) category (Image e) (ReadingTime e).

Definition SetImage (e : Entry) (imageURL : string) : Entry :=
  mkEntry (ID e) (Title e) (Content e) (Summary e) (URL e) (Published e)
          (Updated e) (EntryAuthor e) (Tags e) (Category e) imageURL (ReadingTime e).

Definition SetUpdated (e : Entry) (updated : Time) : Entry :=
  mkEntry (ID e) (Title e) (Content e) (Summary e) (URL e) (Published e)
          (Some (TimeOps.UTC updated)) (EntryAuthor e) (Tags e) (Category e)
          (Image e) (ReadingTime e).

Definition Entry_SetAuthor (e : Entry) (name email url : string) : Entry :=
  mkEntry (ID e) (Title e) (Content e) (Summary e) (URL e) (Published e)
          (Updated e) (Some (mkAuthor name email url)) (Tags e) (Category e)
          (Image e) (ReadingTime e).

(** The test of [Feed.FilterByDateRange] on one entry. *)
Definition inDateRange (start end_ : Time) (entry : Entry) : bool :=
  (Time_Equal (Published entry) start || TimeOps.After (Published entry) start)
  && (Time_Equal (Published entry) end_ || Time_Before (Published entry) end_).

(** [Feed.FilterByDateRange]: the loop appends the entries that pass, in
    their order. *)
Definition FilterByDateRange (f : Feed) (start end_ : Time) : list Entry :=
  List.filter (inDateRange start end_) (Items f).

(** [for key := range m]: Go leaves the order in which a map is ranged over
    unspecified; it is some arrangement of the keys. *)
Class MapRange := {
  rangeKeys : gmap string bool -> list string;
  rangeKeys_perm : forall m, Permutation (rangeKeys m) (map fst (map_to_list m))
}.

(** The order in which the keys happen to be stored. *)
Definition storedOrder : MapRange :=
  {| rangeKeys m := map fst (map_to_list m);
     rangeKeys_perm m := Permutation_refl _ |}.

(** The first loop of [Feed.GetTags]: [tagSet[tag] = true] for every tag of
    every entry. *)
Definition tagSetOf (items : list Entry) : gmap string bool :=
  foldl (fun tagSet entry =>
           foldl (fun tagSet tag => <[tag := true]> tagSet) tagSet (Tags entry))
        ∅ items.

(** The first loop of [Feed.GetCategories]: empty categories are skipped. *)
Definition categorySetOf (items : list Entry) : gmap string bool :=
  foldl (fun categorySet entry =>
           if negb (String.eqb (Category entry) "") then
             <[Category entry := true]> categorySet
           else categorySet)
        ∅ items.

Section Ranging.

Context {MR : MapRange}.

(** [Feed.GetTags] *)
Definition GetTags (f : Feed) : list string := rangeKeys (tagSetOf (Items f)).

(** [Feed.GetCategories] *)
Definition GetCategories (f : Feed) : list string :=
  rangeKeys (categorySetOf (Items f)).

End Ranging.

(** What [http.Get(url)] followed by [io.ReadAll(resp.Body)] comes back
    with: an error of the transport, or a response with its status and its
    body, read in full or not. *)
Inductive GetOutcome :=
| GetFailed (err : ErrorValue)
| GetResponse (StatusCode : Z) (StatusText : string) (body : Result string).

Section Fetching.

Context {JF : Json Feed}.

(** [FetchFeed] *)
Definition FetchFeed (http_Get : string -> GetOutcome) (url : string) : Result Feed :=
  match http_Get url with
  | GetFailed err => Err (EWrapped "failed to fetch feed: " err)
  | GetResponse code status body =>
    if negb (code =? StatusOK) then
      Err (EText ("HTTP error: " +:+ fmt_d code +:+ " " +:+ status))
    else
      match body with
      | Err err => Err (EWrapped "failed to read response body: " err)
      | Ok data => FromJSON data
      end
  end.

End Fetching.

(** ** extension.go *)

(** An [ExtensionFields] is a map that may be nil; [V] stands for [any]. *)
Definition ExtensionFields (V : Type) : Type := option (gmap string V).

Definition underscore : ascii := "_"%char.

(** [ExtensionFields.Set] *)
Definition Extension_Set {V} (e : ExtensionFields V) (key : string) (value : V)
  : ExtensionFields V :=
  let m := match e with
           | None => ∅
           | Some m => m
           end in
  let key :=
    match key with
    | String c _ => if negb (Ascii.eqb c underscore) then "_" +:+ key else key
    | EmptyString => key
    end in
  Some (<[key := value]> m).

(** [ExtensionFields.Get]: the value and [ok] are one [option]; [key[0]]
    on an empty key is out of range. *)
Definition Extension_Get {V} (e : ExtensionFields V) (key : string) : Go (option V) :=
  match e with
  | None => Ret None
  | Some m =>
    match key with
    | EmptyString => Panic "index out of range [0] with length 0"
    | String c _ =>
      let key := if negb (Ascii.eqb c underscore) then "_" +:+ key else key in
      Ret (m !! key)
    end
  end.

(** ** Aggregators as a program comes to hold them *)

(** The aggregators a program obtains from [NewAggregator title feedURL]
    through [AddSource] and completed cycles. *)
Inductive Built (title feedURL : string) : Aggregator -> Prop :=
| Built_new w a w' :
    NewAggregator title feedURL w = Ret (a, w') -> Built title feedURL a
| Built_source a url name description :
    Built title feedURL a -> Built title feedURL (AddSource a url name description)
| Built_cycle (SS : SliceSorter) net sched a w err a' w' :
    Built title feedURL a ->
    FetchAllFeeds net sched a w = Ret ((err, a'), w') -> Built title feedURL a'.

(** A string that [strings.TrimSpace] empties: white-space runes only. *)
Definition blank (s : string) : bool :=
  forallb (fun rb : Z * list ascii => Utf8.IsSpace rb.1) (Utf8.runes s).

(** [t] is not after [u]: the same instant or an earlier one. *)
Definition notAfter (t u : Time) : Prop :=
  unixSec t < unixSec u \/ (unixSec t = unixSec u /\ nsec t <= nsec u).

(** The key under which [ExtensionFields.Set] and [ExtensionFields.Get]
    file [key]: with an underscore in front unless it starts with one; the
    empty key is left as it is. *)
Definition normalKey (key : string) : string :=
  match key with
  | EmptyString => key
  | String c _ => if negb (Ascii.eqb c underscore) then "_" +:+ key else key
  end.

(** [GetStats] counts these two kinds of sources. *)
Definition isActive (source : FeedSource) : bool := String.eqb (Status source) "active".
Definition isError (source : FeedSource) : bool := String.eqb (Status source) "error".

(** The years [time.Time.MarshalJSON] accepts: 0 to 9999. *)
Definition yearInRange (t : Time) : bool :=
  (-62167219200 <=? unixSec t) && (unixSec t <? 253402300800).

Definition timesInRange (f : Feed) : bool :=
  match LastUpdated f with
  | Some t => yearInRange t
  | None => true
  end
  && forallb (fun e => yearInRange (Published e)
                       && match Updated e with
                          | Some t => yearInRange t
                          | None => true
                          end) (Items f).

(** A codec that, like [encoding/json], refuses a feed holding a time
    outside these years, and otherwise prints the title and the number of
    items. *)
Definition yearCheckedJson : Json Feed :=
  {| json_Marshal f :=
       if timesInRange f then json_Marshal (Json := oneDocumentJson) f
       else Err (EText "Time.MarshalJSON: year outside of range [0,9999]");
     json_MarshalIndent f prefix indent :=
       if timesInRange f then json_MarshalIndent (Json := oneDocumentJson) f prefix indent
       else Err (EText "Time.MarshalJSON: year outside of range [0,9999]");
     json_Unmarshal := json_Unmarshal (Json := oneDocumentJson) |}.

(** A feed whose entry is dated in the year 10000. *)
Definition farFutureFeed : Feed := sampleFeed [sampleEntry "y10k" 253402300800].

(** The zero value of [Aggregator]. *)
Definition zeroAggregator : Aggregator := mkAggregator [] None 0.

(** A network on which every URL serves [feed]. *)
Definition netMirror (feed : Feed) : Network := fun _ _ _ =>
  HttpResponse 200 "200 OK" (Ok feed).

(** What [NewAggregator] returns in [world0] for the example program. *)
Definition freshAggregator : Aggregator :=
  {| Sources := [];
     AggregatedFeed :=
       Some (mkFeed Version "Tech News Aggregator" "" ""
                    "http://localhost:8181/feed.json" "" None
                    (Some (mkTime 1735725600 0)) [] false);
     fetchTimeout := 30 * Second |}.

(** A hundred and two entries, [n0] the oldest, each a second newer than
    the one before. *)
Definition hundredAndTwo : list Entry :=
  map (fun k : nat => sampleEntry ("n" +:+ pretty k) (Z.of_nat k + 1735725600)) (seq 0 102).
Example reading_time_empty : CalculateReadingTime "" = 0.
Proof. reflexivity. Qed.

Example reading_time_short :
  CalculateReadingTime "<p>Go has <b>become</b> popular.</p>" = 1.
Proof. vm_compute. reflexivity. Qed.

Example fields_tags :
  Strings.Fields (Regexp.ReplaceAllTags "<p>a<br/>b  c</p><" " ") = ["a"; "b"; "c"; "<"].
Proof. vm_compute. reflexivity. Qed.

Example fmt_d_ex : fmt_d 1234 = "1234" /\ fmt_d (-7) = "-7" /\ fmt_d 0 = "0".
Proof. vm_compute. auto. Qed.

Example hex_ex : Hex.EncodeToString "Go!" = "476f21".
Proof. vm_compute. reflexivity. Qed.

Example scenario_two_sources :
  publishedIDs (let* a := exampleAggregator in FetchAllFeeds (SS := pdqSorter) (netServing feedA) [1%nat; 0%nat] a) world0
  = Some ["a2"; "a1"].
Proof. vm_compute. reflexivity. Qed.

Example thirteen_pdq :
  publishedIDs (let* a := singleSourceAggregator in FetchAllFeeds (SS := pdqSorter) (netServing (sampleFeed thirteen)) [] a) world0
  = Some ["e06"; "e03"; "e09"; "e01"; "e02"; "e04"; "e05"; "e00"; "e07"; "e08";
          "e10"; "e11"; "e12"].
Proof. vm_compute. reflexivity. Qed.

Example sha256_constants :
  length Sha256.K = 64%nat
  /\ hd 0 Sha256.K = 0x428a2f98 /\ last Sha256.K = Some 0xc67178f2
  /\ length Sha256.init = 8%nat
  /\ hd 0 Sha256.init = 0x6a09e667 /\ last Sha256.init = Some 0x5be0cd19.
Proof. vm_compute. repeat split. Qed.

Example sha256_abc :
  Hex.EncodeToString (Sha256.Sum256 "abc")
  = "ba7816bf8f01cfea414140de5dae2223b00361a396177a9cb410ff61f20015ad".
Proof. vm_compute. reflexivity. Qed.

Example sha256_empty :
  Hex.EncodeToString (Sha256.Sum256 "")
  = "e3b0c44298fc1c149afbf4c8996fb92427ae41e4649b934ca495991b7852b855".
Proof. vm_compute. reflexivity. Qed.

Example sha256_two_blocks :
  Hex.EncodeToString
    (Sha256.Sum256 "abcdbcdecdefdefgefghfghighijhijkijkljklmklmnlmnomnopnopq")
  = "248d6a61d20638b8e5c026930c3e6039a33ce45964ff2167f6ecedd419db06c1".
Proof. vm_compute. reflexivity. Qed.

(** * Properties *)

(** ** Reading time *)

Lemma wordCount_nonneg content : 0 <= wordCount content.
Proof. unfold wordCount. lia. Qed.

Lemma eqb_empty_spec (s : string) : String.eqb s "" = true <-> s = "".
Proof. apply String.eqb_eq. Qed.

(** C7, as the specification states it, fails on the empty content: the
    estimate is 0 there, below the minimum of 1 that the formula gives. *)
Lemma reading_time_empty_is_zero :
  CalculateReadingTime "" = 0
  /\ Z.max (wordCount "" / 200) 1 = 1
  /\ ~ (forall content, 1 <= CalculateReadingTime content).
Proof.
  split; [reflexivity | split; [reflexivity |]].
  intros H. specialize (H ""). vm_compute in H. apply H. reflexivity.
Qed.

(** C7 (amended): the estimate is 0 for the empty content; for every other
    content it is the word count of the tag-stripped text divided by 200,
    floored, and raised to at least 1.  [Entry.SetContent] stores the
    content and this estimate, and leaves the other fields alone. *)
Theorem reading_time_estimate (content : string) (e : Entry) :
  CalculateReadingTime content
    = (if String.eqb content "" then 0 else Z.max (wordCount content / 200) 1)
  /\ (if String.eqb content "" then CalculateReadingTime content = 0
      else 1 <= CalculateReadingTime content)
  /\ Content (SetContent e content) = content
  /\ ReadingTime (SetContent e content) = CalculateReadingTime content
  /\ SetContent e content
      = mkEntry (ID e) (Title e) content (Summary e) (URL e) (Published e)
                (Updated e) (EntryAuthor e) (Tags e) (Category e) (Image e)
                (CalculateReadingTime content).
Proof.
  assert (Hq : Z.quot (wordCount content) 200 = wordCount content / 200).
  { apply Z.quot_div_nonneg; [apply wordCount_nonneg | lia]. }
  assert (Heq : CalculateReadingTime content
                = (if String.eqb content "" then 0 else Z.max (wordCount content / 200) 1)).
  { unfold CalculateReadingTime. fold (wordCount content). rewrite Hq. reflexivity. }
  split; [exact Heq |].
  split; [| repeat split; reflexivity].
  rewrite Heq. destruct (String.eqb content ""); [reflexivity | apply Z.le_max_r].
Qed.

(** ** Validation of a feed with a repeated identifier *)

Lemma tracks_empty : tracks ∅ [].
Proof.
  intros id. rewrite lookup_empty. cbn. split; [discriminate |].
  intros H. inversion H.
Qed.

Lemma tracks_insert entryIDs seen id :
  tracks entryIDs seen -> tracks (<[id := true]> entryIDs) (seen ++ [id])%list.
Proof.
  intros Ht id'. rewrite elem_of_app, list_elem_of_singleton.
  destruct (decide (id = id')) as [-> | Hne].
  - rewrite lookup_insert_eq. cbn. tauto.
  - rewrite lookup_insert_ne by done. rewrite (Ht id'). intuition congruence.
Qed.

Lemma Feed_Validate_fields_valid f :
  feedFieldsValid f = true -> Feed_Validate f = validateItems 0 ∅ (Items f).
Proof.
  unfold feedFieldsValid, Feed_Validate. intros H.
  apply andb_true_iff in H as [H Hhome].
  apply andb_true_iff in H as [H Hurl].
  apply andb_true_iff in H as [Hver Htitle].
  rewrite Hver, Hurl. cbn.
  apply negb_true_iff in Htitle. rewrite Htitle.
  destruct (String.eqb (HomePageURL f) ""); cbn; [reflexivity |].
  cbn in Hhome. rewrite Hhome. reflexivity.
Qed.

Lemma Feed_Validate_fields_invalid f :
  feedFieldsValid f = false -> Feed_Validate f <> None.
Proof.
  unfold feedFieldsValid, Feed_Validate. intros H.
  destruct (String.eqb (FeedVersion f) Version); cbn in *; [| discriminate].
  destruct (String.eqb (Strings.TrimSpace (FeedTitle f)) ""); cbn in *; [discriminate |].
  destruct (isValidURL (FeedURL f)); cbn in *; [| discriminate].
  destruct (String.eqb (HomePageURL f) ""); cbn in *; [discriminate |].
  rewrite H. cbn. discriminate.
Qed.

(** A repeated identifier stops the loop, whatever else is wrong. *)
Lemma validateItems_repeated items : forall i entryIDs seen,
  tracks entryIDs seen -> NoDup seen ->
  ~ NoDup (seen ++ map ID items) ->
  validateItems i entryIDs items <> None.
Proof.
  induction items as [| entry rest IH]; intros i entryIDs seen Ht Hnd Hdup.
  - exfalso. apply Hdup. cbn. rewrite app_nil_r. exact Hnd.
  - cbn [validateItems]. destruct (Entry_Validate entry); [discriminate |].
    destruct (default false (entryIDs !! ID entry)) eqn:Hseen; [discriminate |].
    apply (IH _ _ (seen ++ [ID entry])%list).
    + apply tracks_insert, Ht.
    + apply NoDup_app. split; [exact Hnd | split].
      * intros x Hx ->%list_elem_of_singleton.
        apply Ht in Hx. congruence.
      * apply NoDup_singleton.
    + rewrite <- app_assoc. exact Hdup.
Qed.

(** Over valid entries with fresh identifiers the loop just records them. *)
Lemma validateItems_fresh pre : forall rest i entryIDs seen,
  tracks entryIDs seen ->
  Forall (fun x => Entry_Validate x = None) pre ->
  NoDup (seen ++ map ID pre) ->
  exists entryIDs',
    tracks entryIDs' (seen ++ map ID pre)
    /\ validateItems i entryIDs (pre ++ rest)
       = validateItems (i + Z.of_nat (length pre)) entryIDs' rest.
Proof.
  induction pre as [| entry pre IH]; intros rest i entryIDs seen Ht Hval Hnd.
  - exists entryIDs. cbn. rewrite app_nil_r, Z.add_0_r. auto.
  - inversion Hval as [| ? ? Hentry Hpre]; subst.
    cbn [app validateItems]. rewrite Hentry.
    assert (Hfresh : default false (entryIDs !! ID entry) = false).
    { destruct (default false (entryIDs !! ID entry)) eqn:Hseen; [| reflexivity].
      exfalso. apply Ht in Hseen.
      cbn in Hnd. apply NoDup_app in Hnd as (_ & Hdisj & _).
      apply (Hdisj _ Hseen). left. }
    rewrite Hfresh.
    destruct (IH rest (i + 1) (<[ID entry := true]> entryIDs) (seen ++ [ID entry])%list)
      as (entryIDs' & Ht' & Heq).
    + apply tracks_insert, Ht.
    + exact Hpre.
    + rewrite <- app_assoc. exact Hnd.
    + exists entryIDs'. split.
      * cbn [map]. rewrite <- app_assoc in Ht'. exact Ht'.
      * rewrite Heq. f_equal. cbn [length]. lia.
Qed.

(** A list with a repetition splits at the first element that repeats an
    earlier one. *)
Lemma first_repetition {A} `{EqDecision A} (l : list A) :
  NoDup l \/ exists pre x post, l = (pre ++ x :: post)%list /\ NoDup pre /\ x ∈ pre.
Proof.
  induction l as [| x l IH] using rev_ind; [left; constructor |].
  destruct IH as [Hnd | (pre & y & post & -> & Hpre & Hy)].
  - destruct (decide (x ∈ l)) as [Hin | Hnin].
    + right. exists l, x, []. auto.
    + left. apply NoDup_app. split; [exact Hnd | split].
      * intros z Hz ->%list_elem_of_singleton. contradiction.
      * apply NoDup_singleton.
  - right. exists pre, y, (post ++ [x])%list. rewrite <- app_assoc. auto.
Qed.

Lemma first_repeated_entry (items : list Entry) :
  ~ NoDup (map ID items) ->
  exists pre e post,
    items = (pre ++ e :: post)%list /\ NoDup (map ID pre) /\ ID e ∈ map ID pre.
Proof.
  intros Hdup.
  destruct (first_repetition (map ID items)) as [Hnd | (pre & x & post & Heq & Hpre & Hx)];
    [contradiction |].
  apply map_eq_app in Heq as (pre' & rest & -> & <- & Hrest).
  apply map_eq_cons in Hrest as (e & post' & -> & <- & <-).
  exists pre', e, post'. auto.
Qed.

(** C8, as the specification states it, fails: this feed has two entries
    with the identifier "post", and its validation error references the
    field "version", not "items". *)
Lemma repeated_identifier_version_error :
  ~ NoDup (map ID (Items repeatedInVersion2))
  /\ Feed_Validate repeatedInVersion2
     = NewError "version" "unsupported version: 2.0, expected: 1.0"
  /\ Feed_Validate repeatedInVersion2
     <> NewError "items" "duplicate entry ID: post".
Proof.
  split; [| split].
  - cbn. intros H. apply NoDup_cons in H as [H _]. apply H. left.
  - reflexivity.
  - cbn. discriminate.
Qed.

(** C8 (amended): validating a feed whose items contain two entries with
    the same identifier always fails.  The items split at the first entry
    [e] that repeats an earlier identifier; when the four feed-level checks
    pass and the entries up to and including [e] are valid one by one, the
    error is the [ValidationError] of field "items" that names the
    identifier of [e].  (Otherwise the error is the one of the earlier
    check.) *)
Theorem validate_repeated_identifier (f : Feed) :
  ~ NoDup (map ID (Items f)) ->
  Feed_Validate f <> None
  /\ exists pre e post,
       Items f = (pre ++ e :: post)%list
       /\ NoDup (map ID pre)
       /\ ID e ∈ map ID pre
       /\ (feedFieldsValid f = true ->
           Forall (fun x => Entry_Validate x = None) (pre ++ [e]) ->
           Feed_Validate f
           = Some (EValidation
                     (mkValidationError "items" ("duplicate entry ID: " +:+ ID e)))).
Proof.
  intros Hdup. split.
  - destruct (feedFieldsValid f) eqn:Hfields.
    + rewrite Feed_Validate_fields_valid by exact Hfields.
      apply (validateItems_repeated _ _ _ []); [apply tracks_empty | constructor | exact Hdup].
    + apply Feed_Validate_fields_invalid, Hfields.
  - destruct (first_repeated_entry _ Hdup) as (pre & e & post & Hitems & Hpre & He).
    exists pre, e, post. repeat split; try assumption.
    intros Hfields Hvalid.
    rewrite Feed_Validate_fields_valid by exact Hfields. rewrite Hitems.
    apply Forall_app in Hvalid as [Hvpre Hve].
    destruct (validateItems_fresh pre (e :: post) 0 ∅ [] tracks_empty Hvpre Hpre)
      as (entryIDs' & Ht' & ->).
    cbn [validateItems]. inversion Hve as [| ? ? Hevalid _]; subst.
    rewrite Hevalid.
    apply Ht' in He. rewrite He. reflexivity.
Qed.

Lemma validate_repeated_identifier_witness :
  ~ NoDup (map ID (Items repeatedA1))
  /\ Feed_Validate repeatedA1 <> None
  /\ exists pre e post,
       Items repeatedA1 = (pre ++ e :: post)%list
       /\ NoDup (map ID pre)
       /\ ID e ∈ map ID pre
       /\ (feedFieldsValid repeatedA1 = true ->
           Forall (fun x => Entry_Validate x = None) (pre ++ [e]) ->
           Feed_Validate repeatedA1
           = Some (EValidation
                     (mkValidationError "items" ("duplicate entry ID: " +:+ ID e)))).
Proof.
  assert (Hdup : ~ NoDup (map ID (Items repeatedA1))).
  { cbn. intros H. apply NoDup_cons in H as [H _]. apply H. right. left. }
  split; [exact Hdup | exact (validate_repeated_identifier repeatedA1 Hdup)].
Defined.

Example validate_repeatedA1 :
  Feed_Validate repeatedA1
  = Some (EValidation (mkValidationError "items" "duplicate entry ID: a1")).
Proof. vm_compute. reflexivity. Qed.

(** ** Serving a feed *)

Definition nilDereference : string := "invalid memory address or nil pointer dereference".

(** C10: [Feed.ServeHTTP] dereferences [LastUpdated] whatever it holds: on
    a feed whose [LastUpdated] is nil it panics instead of responding.
    [FromJSON] hands out such a feed for any document that decodes to it
    and passes [Validate], which does not look at [LastUpdated]. *)
Theorem serve_nil_last_updated_panics {TF : TimeFormat} {JF : Json Feed}
  (f : Feed) (w : ResponseWriter) (r : Request) :
  LastUpdated f = None ->
  Feed_ServeHTTP f w r = Panic nilDereference
  /\ (forall data,
        json_Unmarshal data = Ok f -> Feed_Validate f = None -> FromJSON data = Ok f).
Proof.
  intros Hnil. split.
  - unfold Feed_ServeHTTP. rewrite Hnil. reflexivity.
  - intros data Hdecode Hvalid. unfold FromJSON. rewrite Hdecode, Hvalid. reflexivity.
Qed.

(** The document without [last_updated]: it parses, validates, and cannot
    be served. *)
Lemma serve_nil_last_updated_panics_witness :
  LastUpdated bareFeed = None
  /\ Feed_Validate bareFeed = None
  /\ FromJSON (JF := oneDocumentJson) bareDocument = Ok bareFeed
  /\ Feed_ServeHTTP (TF := unixTimeFormat) (JF := oneDocumentJson)
       bareFeed newResponseWriter (mkRequest ∅)
     = Panic nilDereference.
Proof.
  destruct (serve_nil_last_updated_panics (TF := unixTimeFormat) (JF := oneDocumentJson)
              bareFeed newResponseWriter (mkRequest ∅) eq_refl) as [Hpanic Hfrom].
  split; [reflexivity |].
  split; [vm_compute; reflexivity |].
  split; [apply Hfrom; vm_compute; reflexivity | exact Hpanic].
Defined.

Lemma Write_fresh w code data :
  RespStatus w = None ->
  Write (WriteHeader w code) data
  = mkResponseWriter (RespHeader w) (Some code) (RespBody w +:+ data).
Proof. intros H. unfold Write, WriteHeader. rewrite H. reflexivity. Qed.

Lemma http_Error_fresh w msg code :
  RespStatus w = None ->
  RespStatus (http_Error w msg code) = Some code
  /\ RespBody (http_Error w msg code) = RespBody w +:+ (msg +:+ newline)
  /\ forall key, key <> "Content-Length" -> key <> "Content-Type" ->
       key <> "X-Content-Type-Options" ->
       RespHeader (http_Error w msg code) !! key = RespHeader w !! key.
Proof.
  intros H. unfold http_Error, Write, WriteHeader. cbn. rewrite H. cbn.
  repeat split. intros key H1 H2 H3. unfold Header_Set.
  rewrite !lookup_insert_ne by congruence. rewrite lookup_delete_ne by congruence.
  reflexivity.
Qed.

(** What [Feed.ServeHTTP] answers on a feed whose [LastUpdated] is [t]. *)
Lemma Feed_ServeHTTP_spec {TF : TimeFormat} {JF : Json Feed}
  (f : Feed) (t : Time) (w : ResponseWriter) (r : Request) :
  LastUpdated f = Some t ->
  RespStatus w = None ->
  let etag := etagOf (TimeOps.Unix t) (Z.of_nat (length (Items f))) in
  exists w',
    Feed_ServeHTTP f w r = Ret w'
    /\ RespHeader w' !! "ETag" = Some [etag]
    /\ RespHeader w' !! "Last-Modified" = Some [time_Format t http_TimeFormat]
    /\ (Header_Get (ReqHeader r) "If-None-Match" = etag ->
        RespStatus w' = Some StatusNotModified /\ RespBody w' = RespBody w)
    /\ (Header_Get (ReqHeader r) "If-None-Match" <> etag ->
        forall data, ToJSON f = Ok data ->
          RespStatus w' = Some StatusOK /\ RespBody w' = RespBody w +:+ data).
Proof.
  intros Ht Hfresh etag. unfold Feed_ServeHTTP. rewrite Ht. fold etag.
  set (w1 := SetHeader (SetHeader (SetHeader (SetHeader w _ _) _ _) _ _) _ _).
  assert (Hst : RespStatus w1 = None) by exact Hfresh.
  assert (Hbody : RespBody w1 = RespBody w) by reflexivity.
  assert (Hetag : RespHeader w1 !! "ETag" = Some [etag]).
  { subst w1. cbn. unfold Header_Set. apply lookup_insert_eq. }
  assert (Hlm : RespHeader w1 !! "Last-Modified" = Some [time_Format t http_TimeFormat]).
  { subst w1. cbn. unfold Header_Set.
    rewrite lookup_insert_ne by discriminate. apply lookup_insert_eq. }
  destruct (String.eqb (Header_Get (ReqHeader r) "If-None-Match") etag) eqn:Hmatch.
  - apply String.eqb_eq in Hmatch.
    exists (WriteHeader w1 StatusNotModified). unfold WriteHeader. rewrite Hst. cbn.
    split; [reflexivity |]. split; [exact Hetag |]. split; [exact Hlm |].
    split; [intros _; split; [reflexivity | exact Hbody] | intros Hne; contradiction].
  - apply String.eqb_neq in Hmatch.
    destruct (ToJSON f) as [data | err] eqn:Hjson.
    + exists (Write (WriteHeader w1 StatusOK) data).
      rewrite Write_fresh by exact Hst. cbn.
      split; [reflexivity |]. split; [exact Hetag |]. split; [exact Hlm |].
      split; [intros He; contradiction |].
      intros _ data' [= <-]. split; reflexivity.
    + exists (http_Error w1 "Internal server error" StatusInternalServerError).
      destruct (http_Error_fresh w1 "Internal server error" StatusInternalServerError Hst)
        as (_ & _ & Hkeep).
      rewrite !Hkeep by discriminate.
      split; [reflexivity |]. split; [exact Hetag |]. split; [exact Hlm |].
      split; [intros He; contradiction |].
      intros _ data' [=].
Qed.

(** *** The text of the validator token *)

Lemma hasDash_app a b : hasDash (a +:+ b) = hasDash a || hasDash b.
Proof.
  induction a as [| c a IH]; [reflexivity |].
  change (Ascii.eqb c "-" || hasDash (a +:+ b) = Ascii.eqb c "-" || hasDash a || hasDash b).
  rewrite IH, orb_assoc. reflexivity.
Qed.

Lemma pretty_N_char_no_dash x : Ascii.eqb (pretty_N_char x) "-" = false.
Proof. unfold pretty_N_char. repeat case_match; reflexivity. Qed.

Lemma pretty_N_go_no_dash x :
  forall s, hasDash s = false -> hasDash (pretty_N_go x s) = false.
Proof.
  induction (N.lt_wf_0 x) as [x _ IH]. intros s Hs.
  destruct (decide (0 < x)%N) as [Hpos | Hzero].
  - rewrite pretty_N_go_step by exact Hpos.
    apply IH; [apply N.div_lt; lia |].
    cbn. rewrite pretty_N_char_no_dash. exact Hs.
  - assert (x = 0%N) as -> by lia. rewrite pretty_N_go_0. exact Hs.
Qed.

(** [%d] of a length prints digits only. *)
Lemma fmt_d_no_dash (n : nat) : hasDash (fmt_d (Z.of_nat n)) = false.
Proof.
  unfold fmt_d, pretty, pretty_Z.
  destruct (Z.of_nat n) as [| p | p] eqn:Hn; [reflexivity | | lia].
  change (hasDash (pretty_N_go (N.pos p) "") = false).
  apply pretty_N_go_no_dash. reflexivity.
Qed.

(** A text is cut in one way only at its last minus sign. *)
Lemma split_at_last_dash a : forall a' b b',
  hasDash b = false -> hasDash b' = false ->
  a +:+ String "-" b = a' +:+ String "-" b' -> a = a' /\ b = b'.
Proof.
  induction a as [| c a IH]; intros [| c' a'] b b' Hb Hb' Heq.
  - injection Heq as ->. split; reflexivity.
  - change (String "-" b = String c' (a' +:+ String "-" b')) in Heq.
    injection Heq as _ ->. rewrite hasDash_app in Hb. cbn in Hb.
    rewrite orb_true_r in Hb. discriminate.
  - change (String c (a +:+ String "-" b) = String "-" b') in Heq.
    injection Heq as _ <-. rewrite hasDash_app in Hb'. cbn in Hb'.
    rewrite orb_true_r in Hb'. discriminate.
  - change (String c (a +:+ String "-" b) = String c' (a' +:+ String "-" b')) in Heq.
    injection Heq as -> Heq. destruct (IH _ _ _ Hb Hb' Heq) as [-> ->].
    split; reflexivity.
Qed.

Lemma length_append a b :
  String.length (a +:+ b) = (String.length a + String.length b)%nat.
Proof.
  induction a as [| c a IH]; [reflexivity |].
  change (S (String.length (a +:+ b)) = S (String.length a + String.length b)).
  rewrite IH. reflexivity.
Qed.

Lemma append_inv_tail q : forall s s', s +:+ q = s' +:+ q -> s = s'.
Proof.
  intros s s' Heq.
  assert (Hlen : String.length s = String.length s').
  { apply (f_equal String.length) in Heq. rewrite !length_append in Heq. lia. }
  revert s' Heq Hlen. induction s as [| c s IH]; intros [| c' s'] Heq Hlen;
    try discriminate; [reflexivity |].
  change (String c (s +:+ q) = String c' (s' +:+ q)) in Heq.
  injection Heq as -> Heq. f_equal. apply IH; [exact Heq |].
  injection Hlen as Hlen. exact Hlen.
Qed.

(** Two tokens are the same text only for the same second and the same
    number of items. *)
Lemma etagOf_inj (u u' : Z) (n n' : nat) :
  etagOf u (Z.of_nat n) = etagOf u' (Z.of_nat n') -> u = u' /\ n = n'.
Proof.
  unfold etagOf. intros Heq.
  apply (inj (String.append dquote)) in Heq.
  apply (inj (String.append "beam-")) in Heq.
  assert (Hq : forall k : nat, hasDash (fmt_d (Z.of_nat k) +:+ dquote) = false).
  { intros k. rewrite hasDash_app, fmt_d_no_dash. reflexivity. }
  change (fmt_d u +:+ String "-" (fmt_d (Z.of_nat n) +:+ dquote)
          = fmt_d u' +:+ String "-" (fmt_d (Z.of_nat n') +:+ dquote)) in Heq.
  destruct (split_at_last_dash _ _ _ _ (Hq n) (Hq n') Heq) as [Hu Hn].
  apply append_inv_tail in Hn.
  unfold fmt_d in Hu, Hn.
  apply (inj pretty) in Hu. apply (inj pretty) in Hn. split; [exact Hu | lia].
Qed.

(** C6: on a feed that has a last-updated timestamp [t], [Feed.ServeHTTP]
    responds, and the ETag it sets is the text: a double quote, [beam-],
    the Unix second of [t] in decimal, a minus sign, the number of items in
    decimal, a double quote.  The token is computed from exactly these two
    values: a feed [g] is served under the same ETag if and only if it
    agrees with [f] on the Unix second and on the number of items.
    Last-Modified is [t], in the location it carries, in HTTP format.  If
    the request's If-None-Match is that ETag the status is 304 and nothing
    is written to the body; otherwise the status is 200 and the body is the
    JSON document [ToJSON] produces. *)
Theorem serve_conditional_get {TF : TimeFormat} {JF : Json Feed}
  (f : Feed) (t : Time) (w : ResponseWriter) (r : Request) :
  LastUpdated f = Some t ->
  RespStatus w = None ->
  let etag := dquote +:+ "beam-" +:+ fmt_d (TimeOps.Unix t) +:+ "-"
              +:+ fmt_d (Z.of_nat (length (Items f))) +:+ dquote in
  exists w',
    Feed_ServeHTTP f w r = Ret w'
    /\ RespHeader w' !! "ETag" = Some [etag]
    /\ RespHeader w' !! "Last-Modified" = Some [time_Format t http_TimeFormat]
    /\ (Header_Get (ReqHeader r) "If-None-Match" = etag ->
        RespStatus w' = Some StatusNotModified /\ RespBody w' = RespBody w)
    /\ (Header_Get (ReqHeader r) "If-None-Match" <> etag ->
        forall data, ToJSON f = Ok data ->
          RespStatus w' = Some StatusOK /\ RespBody w' = RespBody w +:+ data)
    /\ (forall (g : Feed) (u : Time) (r2 : Request),
          LastUpdated g = Some u ->
          exists w2,
            Feed_ServeHTTP g w r2 = Ret w2
            /\ (RespHeader w2 !! "ETag" = RespHeader w' !! "ETag"
                <-> TimeOps.Unix u = TimeOps.Unix t
                    /\ length (Items g) = length (Items f))).
Proof.
  intros Ht Hfresh etag.
  destruct (Feed_ServeHTTP_spec f t w r Ht Hfresh) as (w' & Hrun & Hetag & Hlm & H304 & H200).
  exists w'. repeat (split; [assumption |]).
  intros g u r2 Hu.
  destruct (Feed_ServeHTTP_spec g u w r2 Hu Hfresh) as (w2 & Hrun2 & Hetag2 & _).
  exists w2. split; [exact Hrun2 |].
  rewrite Hetag, Hetag2. split.
  - intros Heq.
    assert (Htoken : etagOf (TimeOps.Unix u) (Z.of_nat (length (Items g)))
                     = etagOf (TimeOps.Unix t) (Z.of_nat (length (Items f))))
      by congruence.
    apply etagOf_inj in Htoken. exact Htoken.
  - intros [Hunix Hlen]. rewrite Hunix, Hlen. reflexivity.
Qed.

(** The example feed A asked for with the ETag ["beam-1735725000-2"] of an
    earlier response: 304 and no body.  The same feed with its timestamp
    shown one hour east of UTC is served under the same ETag, and a feed of
    the same second without items under another. *)
Lemma serve_conditional_get_witness :
  LastUpdated feedA = Some (mkTime 1735725000 0)
  /\ RespStatus newResponseWriter = None
  /\ exists w',
    Feed_ServeHTTP (TF := zonedTimeFormat) (JF := oneDocumentJson) feedA newResponseWriter
      (mkRequest {[ "If-None-Match" := [quoted "beam-1735725000-2"] ]}) = Ret w'
    /\ RespHeader w' !! "ETag" = Some [quoted "beam-1735725000-2"]
    /\ RespHeader w' !! "Last-Modified" = Some ["1735725000Z"]
    /\ RespStatus w' = Some StatusNotModified
    /\ RespBody w' = ""
    /\ (exists w2,
          Feed_ServeHTTP (TF := zonedTimeFormat) (JF := oneDocumentJson)
            (relocated feedA plusOne) newResponseWriter (mkRequest ∅) = Ret w2
          /\ RespHeader w2 !! "ETag" = RespHeader w' !! "ETag")
    /\ (exists w3,
          Feed_ServeHTTP (TF := zonedTimeFormat) (JF := oneDocumentJson)
            emptyItemsFeed newResponseWriter (mkRequest ∅) = Ret w3
          /\ RespHeader w3 !! "ETag" <> RespHeader w' !! "ETag").
Proof.
  split; [reflexivity | split; [reflexivity |]].
  destruct (serve_conditional_get (TF := zonedTimeFormat) (JF := oneDocumentJson)
              feedA (mkTime 1735725000 0) newResponseWriter
              (mkRequest {[ "If-None-Match" := [quoted "beam-1735725000-2"] ]})
              eq_refl eq_refl)
    as (w' & Hrun & Hetag & Hlm & H304 & _ & Hexact).
  exists w'. split; [exact Hrun |]. split; [exact Hetag |]. split; [exact Hlm |].
  destruct (H304 eq_refl) as [Hstatus Hbody].
  split; [exact Hstatus |]. split; [exact Hbody |]. split.
  - destruct (Hexact (relocated feedA plusOne)
                (TimeOps.In (mkTime 1735725000 0) plusOne) (mkRequest ∅) eq_refl)
      as (w2 & Hrun2 & Hsame).
    exists w2. split; [exact Hrun2 |]. apply Hsame. split; reflexivity.
  - destruct (Hexact emptyItemsFeed (mkTime 1735725000 0) (mkRequest ∅) eq_refl)
      as (w3 & Hrun3 & Hsame).
    exists w3. split; [exact Hrun3 |]. intros Heq. apply Hsame in Heq.
    destruct Heq as [_ Hlen]. discriminate Hlen.
Defined.

Example serve_feedA_first :
  (fun w => (RespStatus w, RespBody w, Header_Get (RespHeader w) "ETag"))
    <$> (match Feed_ServeHTTP (TF := unixTimeFormat) (JF := oneDocumentJson) feedA
                 newResponseWriter (mkRequest ∅) with
         | Ret w => Some w
         | Panic _ => None
         end)
  = Some (Some 200, "{" +:+ quoted "Feed 01" +:+ ": 2}", quoted "beam-1735725000-2").
Proof. vm_compute. reflexivity. Qed.

(** [Last-Modified] is printed in the location of the timestamp: the feed
    A with its timestamp shown one hour east of UTC. *)
Example serve_feedA_relocated :
  (fun w => (Header_Get (RespHeader w) "Last-Modified", Header_Get (RespHeader w) "ETag"))
    <$> (match Feed_ServeHTTP (TF := zonedTimeFormat) (JF := oneDocumentJson)
                 (relocated feedA plusOne) newResponseWriter (mkRequest ∅) with
         | Ret w => Some w
         | Panic _ => None
         end)
  = Some ("1735728600+3600", quoted "beam-1735725000-2").
Proof. vm_compute. reflexivity. Qed.

(** ** The content hash *)



(** The hash depends on the order of the entries, on the location a
    publication time is given in, and on whether [Items] is the nil or the
    empty slice ([null] and [[]] in JSON). *)
Example feed_hash_distinguishes :
  (ComputeFeedHash (JE := identifiersJson) feedAReversed).1
  = Ok "e267cb5e24dd9a116132e773eb74ec37561b2e754f1d674cbb2e07d894996a57"
  /\ (ComputeFeedHash (JE := identifiersJson) feedAZoned).1
     = Ok "8e2854d5040abb8a9fe7ad6dbb721adec2b26da8c3342b2ec48f27c7a99db42b"
  /\ (ComputeFeedHash (JE := identifiersJson) emptyItemsFeed).1
     = Ok "4f53cda18c2baa0c0354bb5f9a3ecbe5ed12ab4d8e11ba873c2f11161202b945"
  /\ (ComputeFeedHash (JE := identifiersJson) nilItemsFeed).1
     = Ok "74234e98afe7498fb5daf1f36ac2d78acc339464f950703b8c019892f982b90b"
  /\ map (fun e => TimeOps.After (Published e) (Published (sampleEntry "a1" 1735725600)))
         (Items feedAZoned) = [false; true].
Proof. vm_compute. repeat split. Qed.

(** ** Sorting *)

Lemma After_spec t u :
  TimeOps.After t u = true
  <-> unixSec u < unixSec t \/ (unixSec u = unixSec t /\ nsec u < nsec t).
Proof.
  unfold TimeOps.After.
  rewrite orb_true_iff, andb_true_iff, !Z.ltb_lt, Z.eqb_eq. tauto.
Qed.

Lemma After_false t u :
  TimeOps.After t u = false
  <-> unixSec t < unixSec u \/ (unixSec u = unixSec t /\ nsec t <= nsec u).
Proof.
  rewrite <- not_true_iff_false, After_spec. lia.
Qed.

(** [newerFirst] is a strict weak ordering, as [sort.Slice] requires. *)
Lemma newerFirst_strict_weak : StrictWeak newerFirst.
Proof.
  unfold newerFirst. split.
  - intros x. apply After_false. lia.
  - intros x y z. rewrite !After_spec. lia.
  - intros x y z. rewrite !After_false. lia.
Qed.

(** What "not less" gives in a strict weak ordering. *)
Lemma strict_weak_asym {A} (less : A -> A -> bool) x y :
  StrictWeak less -> less x y = true -> less y x = false.
Proof.
  intros Hsw Hxy. destruct (less y x) eqn:Hyx; [| reflexivity].
  pose proof (sw_trans less Hsw _ _ _ Hxy Hyx) as Hxx.
  rewrite (sw_irrefl less Hsw) in Hxx. discriminate.
Qed.

Lemma strict_weak_not_less_trans {A} (less : A -> A -> bool) x y z :
  StrictWeak less -> less z y = false -> less y x = false -> less z x = false.
Proof.
  intros Hsw Hzy Hyx. destruct (less z x) eqn:Hzx; [| reflexivity]. exfalso.
  destruct (less y z) eqn:Hyz.
  { pose proof (sw_trans less Hsw _ _ _ Hyz Hzx). congruence. }
  destruct (less x y) eqn:Hxy.
  { pose proof (sw_trans less Hsw _ _ _ Hzx Hxy). congruence. }
  destruct (sw_incomp less Hsw z y x Hzy Hyz Hyx Hxy). congruence.
Qed.

Lemma insertBefore_perm {A} (less : A -> A -> bool) x l :
  Permutation (x :: l) (insertBefore less x l).
Proof.
  induction l as [| y l IH]; cbn; [reflexivity |].
  destruct (less y x); [| reflexivity].
  rewrite perm_swap. apply perm_skip, IH.
Qed.

Lemma stableSort_perm {A} (less : A -> A -> bool) l :
  Permutation l (stableSort less l).
Proof.
  induction l as [| x l IH]; cbn; [reflexivity |].
  rewrite <- insertBefore_perm. apply perm_skip, IH.
Qed.

Lemma insertBefore_sorted {A} (less : A -> A -> bool) x l :
  StrictWeak less -> SortedBy less l -> SortedBy less (insertBefore less x l).
Proof.
  intros Hsw. unfold SortedBy. induction 1 as [| y l Hl IH Hy]; cbn.
  - repeat constructor.
  - destruct (less y x) eqn:Hyx.
    + constructor; [exact IH |].
      rewrite <- (insertBefore_perm less x l). constructor; [| exact Hy].
      apply (strict_weak_asym less); assumption.
    + constructor; [constructor; assumption |].
      constructor; [exact Hyx |].
      eapply Forall_impl; [exact Hy |]. cbn. intros z Hzy.
      apply (strict_weak_not_less_trans less x y z); assumption.
Qed.

Lemma stableSort_sorted {A} (less : A -> A -> bool) l :
  StrictWeak less -> SortedBy less (stableSort less l).
Proof.
  intros Hsw. induction l as [| x l IH]; cbn.
  - constructor.
  - apply insertBefore_sorted; assumption.
Qed.

(** Both reference sorters meet the contract of [sort.Slice]. *)
Lemma stableSorter_spec : SliceSorterSpec stableSorter.
Proof.
  split.
  - intros A less l. apply stableSort_perm.
  - intros A less l Hsw. apply stableSort_sorted, Hsw.
Qed.

Lemma reversingSorter_spec : SliceSorterSpec reversingSorter.
Proof.
  split.
  - intros A less l. unfold sort_Slice, reversingSorter.
    rewrite <- stableSort_perm. apply Permutation_rev.
  - intros A less l Hsw. apply stableSort_sorted, Hsw.
Qed.

Lemma SortedBy_take {A} (less : A -> A -> bool) n l :
  SortedBy less l -> SortedBy less (take n l).
Proof.
  unfold SortedBy. intros H. revert n.
  induction H as [| x l Hl IH Hx]; intros [| n]; cbn; try constructor.
  - apply IH.
  - apply Forall_take, Hx.
Qed.

Lemma cap_take entries : cap entries = take maxEntries entries.
Proof.
  unfold cap. destruct (maxEntries <? length entries)%nat eqn:Hlen; [reflexivity |].
  apply Nat.ltb_ge in Hlen. symmetry. apply take_ge, Hlen.
Qed.

(** ** The collecting loop *)

Lemma advance_advance w n m : advance (advance w n) m = advance w (n + m)%nat.
Proof. unfold advance. cbn. f_equal. lia. Qed.

Lemma advance_0 w : advance w 0 = w.
Proof. destruct w. unfold advance. cbn. f_equal. lia. Qed.

Lemma bind_Ret {A B} (m : M A) (k : A -> M B) w a w' :
  m w = Ret (a, w') -> bind m k w = k a w'.
Proof. unfold bind. intros ->. reflexivity. Qed.

Lemma recv_nonempty choice pending :
  pending <> [] ->
  exists r pending',
    recv choice pending = Some (r, pending')
    /\ Permutation pending (r :: pending')
    /\ length pending = S (length pending').
Proof.
  intros Hne. unfold recv.
  assert (Hlen : (length pending <> 0)%nat) by (destruct pending; cbn; congruence).
  pose proof (Nat.mod_upper_bound choice _ Hlen) as Hk.
  destruct (lookup_lt_is_Some_2 _ _ Hk) as [r Hr]. rewrite Hr.
  exists r, (delete (choice mod length pending)%nat pending).
  split; [reflexivity |]. split.
  - apply delete_Permutation, Hr.
  - rewrite length_delete by eauto. lia.
Qed.

Lemma arrival_perm n : forall sched pending,
  length pending = n -> Permutation (arrival n sched pending) pending.
Proof.
  induction n as [| n IH]; intros sched pending Hlen.
  - destruct pending; [reflexivity | discriminate].
  - assert (Hne : pending <> []) by (destruct pending; [discriminate | congruence]).
    destruct (recv_nonempty (hd O sched) pending Hne) as (r & pending' & Hrecv & Hperm & Hl).
    cbn [arrival]. rewrite Hrecv, Hperm. apply perm_skip, IH. lia.
Qed.

Lemma collect_arrival n : forall sched pending c w,
  length pending = n ->
  collect n sched pending c w = collectAll (arrival n sched pending) c w.
Proof.
  induction n as [| n IH]; intros sched pending c w Hlen; [reflexivity |].
  assert (Hne : pending <> []) by (destruct pending; [discriminate | congruence]).
  destruct (recv_nonempty (hd O sched) pending Hne) as (r & pending' & Hrecv & _ & Hl).
  cbn [collect arrival collectAll]. rewrite Hrecv. cbn [collectAll].
  unfold bind. destruct (collectOne r c w) as [[c' w'] | msg]; [| reflexivity].
  apply IH. lia.
Qed.

Lemma collectOne_spec r c w src :
  sources c !! index r = Some src ->
  collectOne r c w
  = Ret (mkCollected (<[index r := fetched src (clock w (tick w)) r]> (sources c))
                     (allEntries c ++ entriesOf (sources c) r)%list
                     (successCount c + (if outcome r is Ok _ then 1 else 0)),
         advance w 1).
Proof.
  intros Hsrc. unfold collectOne, bind, time_Now, entriesOf, fetched, advance.
  rewrite Hsrc. destruct (outcome r); cbn.
  - rewrite Nat.add_1_r. reflexivity.
  - rewrite app_nil_r, Z.add_0_r, Nat.add_1_r. reflexivity.
Qed.

Lemma Name_fetched src now r : Name (fetched src now r) = Name src.
Proof. unfold fetched. destruct (outcome r); reflexivity. Qed.

Lemma entriesOf_names srcs srcs' r :
  (forall i, Name <$> srcs' !! i = Name <$> srcs !! i) ->
  entriesOf srcs' r = entriesOf srcs r.
Proof.
  intros Hn. unfold entriesOf. destruct (outcome r); [| reflexivity].
  specialize (Hn (index r)).
  destruct (srcs' !! index r), (srcs !! index r); cbn in Hn; congruence.
Qed.

(** What the loop leaves behind, the results arriving in [order]. *)
Lemma collectAll_spec order : forall c w,
  Forall (fun r => (index r < length (sources c))%nat) order ->
  exists c',
    collectAll order c w = Ret (c', advance w (length order))
    /\ length (sources c') = length (sources c)
    /\ (forall i, Name <$> sources c' !! i = Name <$> sources c !! i)
    /\ allEntries c' = (allEntries c ++ concat (map (entriesOf (sources c)) order))%list
    /\ (forall i, i ∉ map index order -> sources c' !! i = sources c !! i)
    /\ (NoDup (map index order) ->
        forall k r, order !! k = Some r ->
          exists src,
            sources c !! index r = Some src
            /\ sources c' !! index r = Some (fetched src (clock w (tick w + k)%nat) r)).
Proof.
  induction order as [| r rest IH]; intros c w Hidx.
  - exists c. cbn. rewrite advance_0, app_nil_r.
    repeat split; try reflexivity. intros _ k r Hk. discriminate.
  - inversion Hidx as [| ? ? Hr Hrest]; subst.
    destruct (lookup_lt_is_Some_2 _ _ Hr) as [src Hsrc].
    pose proof (collectOne_spec r c w src Hsrc) as Hone.
    set (c1 := mkCollected _ _ _) in Hone.
    assert (Hlen1 : length (sources c1) = length (sources c)).
    { subst c1. cbn. apply length_insert. }
    assert (Hnames1 : forall i, Name <$> sources c1 !! i = Name <$> sources c !! i).
    { intros i. subst c1. cbn. destruct (decide (index r = i)) as [<- | Hne].
      - rewrite list_lookup_insert_eq by exact Hr. rewrite Hsrc. cbn.
        rewrite Name_fetched. reflexivity.
      - rewrite list_lookup_insert_ne by exact Hne. reflexivity. }
    destruct (IH c1 (advance w 1)) as (c' & Hrun & Hlen & Hnames & Hentries & Hkeep & Hdone).
    { rewrite Hlen1. exact Hrest. }
    exists c'. split; [| split; [| split; [| split; [| split]]]].
    + cbn [collectAll]. rewrite (bind_Ret _ _ _ _ _ Hone), Hrun, advance_advance.
      reflexivity.
    + congruence.
    + intros i. rewrite Hnames. apply Hnames1.
    + rewrite Hentries. subst c1. cbn [allEntries sources map concat].
      rewrite <- app_assoc. do 2 f_equal. f_equal.
      apply map_ext. intros r'. apply entriesOf_names. exact Hnames1.
    + intros i Hi. cbn in Hi. apply not_elem_of_cons in Hi as [Hne Hi].
      rewrite (Hkeep i Hi). subst c1. cbn.
      apply list_lookup_insert_ne. congruence.
    + intros Hnd k r' Hk. cbn in Hnd. apply NoDup_cons in Hnd as [Hfresh Hnd].
      destruct k as [| k]; cbn in Hk.
      * injection Hk as <-. exists src. split; [exact Hsrc |].
        rewrite (Hkeep _ Hfresh). subst c1. cbn.
        rewrite Nat.add_0_r. apply list_lookup_insert_eq, Hr.
      * destruct (Hdone Hnd k r' Hk) as (src1 & Hsrc1 & Hfin).
        assert (Hne : index r <> index r').
        { intros Heq. apply Hfresh. rewrite Heq.
          apply list_elem_of_fmap_2. eapply list_elem_of_lookup_2, Hk. }
        subst c1. cbn in Hsrc1. rewrite list_lookup_insert_ne in Hsrc1 by exact Hne.
        exists src1. split; [exact Hsrc1 |].
        rewrite Hfin. cbn. do 3 f_equal. lia.
Qed.

Lemma launch_lookup net a i :
  launch net a !! i = resultOf net a i <$> Sources a !! i.
Proof. unfold launch. apply list_lookup_imap. Qed.

Lemma launch_length net a : length (launch net a) = length (Sources a).
Proof. unfold launch. apply length_imap. Qed.

Lemma launch_indices net a :
  map index (launch net a) = seq 0 (length (Sources a)).
Proof.
  apply list_eq. intros i.
  change (map index (launch net a)) with (index <$> launch net a).
  rewrite list_lookup_fmap, launch_lookup.
  destruct (Sources a !! i) as [src |] eqn:Hsrc; cbn.
  - symmetry. apply lookup_seq. split; [reflexivity |].
    apply lookup_lt_is_Some. eauto.
  - symmetry. apply lookup_seq_ge. apply lookup_ge_None. exact Hsrc.
Qed.

Lemma launch_elem net a r :
  r ∈ launch net a ->
  exists src, Sources a !! index r = Some src /\ r = resultOf net a (index r) src.
Proof.
  intros [i Hi]%list_elem_of_lookup. rewrite launch_lookup in Hi.
  destruct (Sources a !! i) as [src |] eqn:Hsrc; [| discriminate].
  cbn in Hi. injection Hi as <-. exists src. cbn. auto.
Qed.

(** The order of arrival is a rearrangement of the launched results: every
    source reports once. *)
Lemma arrival_launch net sched a :
  Permutation (arrival (length (Sources a)) sched (launch net a)) (launch net a).
Proof. apply arrival_perm, launch_length. Qed.

Lemma arrival_indices_NoDup net sched a :
  NoDup (map index (arrival (length (Sources a)) sched (launch net a))).
Proof.
  rewrite (Permutation_map index (arrival_launch net sched a)), launch_indices.
  apply NoDup_seq.
Qed.

Lemma arrival_in_range net sched a :
  Forall (fun r => (index r < length (Sources a))%nat)
         (arrival (length (Sources a)) sched (launch net a)).
Proof.
  apply Forall_forall. intros r Hr.
  rewrite (arrival_launch net sched a) in Hr.
  destruct (launch_elem _ _ _ Hr) as (src & Hsrc & _).
  apply lookup_lt_is_Some. eauto.
Qed.

Lemma addEntries_spec entries : forall f w,
  exists f',
    addEntries f entries w = Ret (f', advance w (length entries))
    /\ Items f' = (Items f ++ entries)%list
    /\ FeedVersion f' = FeedVersion f
    /\ FeedTitle f' = FeedTitle f
    /\ FeedURL f' = FeedURL f
    /\ Description f' = Description f
    /\ Language f' = Language f
    /\ (is_Some (LastUpdated f) -> is_Some (LastUpdated f')).
Proof.
  induction entries as [| entry rest IH]; intros f w.
  - exists f. cbn. rewrite advance_0, app_nil_r. repeat split; auto.
  - cbn [addEntries]. unfold bind at 1. cbn.
    set (f1 := mkFeed _ _ _ _ _ _ _ _ _ _).
    destruct (IH f1 (mkWorld (clock w) (S (tick w))))
      as (f' & Hrun & Hitems & Hv & Ht & Hu & Hd & Hl & Hlast).
    exists f'. rewrite Hrun. split.
    + unfold advance. cbn. do 3 f_equal. lia.
    + rewrite Hitems, Hv, Ht, Hu, Hd, Hl. subst f1. cbn.
      rewrite <- app_assoc. repeat split; try reflexivity.
      intros _. apply Hlast. cbn. eauto.
Qed.

(** The cycle as a whole, from an aggregator that holds a feed. *)
Lemma FetchAllFeeds_spec {SS : SliceSorter} net sched a w old :
  AggregatedFeed a = Some old ->
  exists srcs' feed w',
    FetchAllFeeds net sched a w
    = Ret ((None, mkAggregator srcs' (Some feed) (fetchTimeout a)), w')
    /\ length srcs' = length (Sources a)
    /\ Items feed = cap (sort_Slice Entry newerFirst (mergedEntries net sched a))
    /\ FeedVersion feed = Version
    /\ FeedTitle feed = FeedTitle old
    /\ FeedURL feed = FeedURL old
    /\ is_Some (LastUpdated feed)
    /\ (forall i src, Sources a !! i = Some src ->
          exists k, (k < length (Sources a))%nat
            /\ srcs' !! i
               = Some (fetched src (clock w (tick w + k)%nat) (resultOf net a i src))).
Proof.
  intros Hold. unfold FetchAllFeeds.
  set (N := length (Sources a)).
  set (order := arrival N sched (launch net a)).
  destruct (collectAll_spec order (mkCollected (Sources a) [] 0) w)
    as (c & Hrun & Hlen & Hnames & Hentries & Hkeep & Hdone).
  { apply arrival_in_range. }
  cbn [sources allEntries] in *.
  rewrite (bind_Ret _ _ w c (advance w (length order)));
    [| rewrite collect_arrival by apply launch_length; exact Hrun].
  rewrite Hold. cbn [deref]. unfold bind at 1, ret at 1.
  unfold bind at 1. cbn [NewFeed]. unfold bind at 1, time_Now, ret at 1. cbn.
  set (f0 := SetLanguage _ _).
  set (w0 := mkWorld _ _).
  set (capped := cap _).
  destruct (addEntries_spec capped f0 w0)
    as (feed & Haddrun & Hitems & Hv & Ht & Hu & _ & _ & Hlast).
  exists (sources c), feed, (advance w0 (length capped)).
  unfold bind, ret. rewrite Haddrun.
  split; [reflexivity |]. split; [exact Hlen |].
  split.
  { rewrite Hitems. subst f0 capped. cbn. rewrite Hentries. reflexivity. }
  split; [rewrite Hv; reflexivity |].
  split; [rewrite Ht; reflexivity |].
  split; [rewrite Hu; reflexivity |].
  split; [apply Hlast; subst f0; cbn; eauto |].
  intros i src Hsrc.
  assert (Hin : resultOf net a i src ∈ order).
  { subst order N. rewrite (arrival_launch net sched a).
    apply list_elem_of_lookup. exists i. rewrite launch_lookup, Hsrc. reflexivity. }
  apply list_elem_of_lookup in Hin as [k Hk].
  destruct (Hdone (arrival_indices_NoDup net sched a) k _ Hk) as (src1 & Hsrc1 & Hfin).
  cbn in Hsrc1, Hfin. rewrite Hsrc in Hsrc1. injection Hsrc1 as <-.
  exists k. split; [| exact Hfin].
  apply lookup_lt_Some in Hk. subst order N.
  rewrite (Permutation_length (arrival_launch net sched a)), launch_length in Hk. exact Hk.
Qed.

(** Every merged entry comes from a source whose fetch succeeded. *)
Lemma mergedEntries_origin net sched a e :
  e ∈ mergedEntries net sched a ->
  exists i src feed e0,
    Sources a !! i = Some src
    /\ fetchFeedWithTimeout net i a (SourceURL src) = Ok feed
    /\ e0 ∈ Items feed
    /\ e = enrich (Name src) e0.
Proof.
  unfold mergedEntries. intros He.
  apply list_elem_of_In, in_concat in He as (l & Hl & He).
  apply in_map_iff in Hl as (r & <- & Hr).
  apply list_elem_of_In in Hr. rewrite (arrival_launch net sched a) in Hr.
  destruct (launch_elem _ _ _ Hr) as (src & Hsrc & Hres).
  unfold entriesOf in He. rewrite Hsrc in He.
  destruct (outcome r) as [feed |] eqn:Hout; [| inversion He].
  apply in_map_iff in He as (e0 & <- & He0).
  exists (index r), src, feed, e0. repeat split; try assumption.
  - rewrite Hres in Hout. exact Hout.
  - apply list_elem_of_In, He0.
Qed.

Lemma mergedEntries_all_failed net sched a :
  (forall i src, Sources a !! i = Some src -> failed net a i src = true) ->
  mergedEntries net sched a = [].
Proof.
  intros Hall. destruct (mergedEntries net sched a) as [| e l] eqn:Hm; [reflexivity |].
  assert (He : e ∈ mergedEntries net sched a) by (rewrite Hm; left).
  destruct (mergedEntries_origin _ _ _ _ He) as (i & src & feed & e0 & Hsrc & Hok & _).
  specialize (Hall i src Hsrc). unfold failed in Hall. rewrite Hok in Hall. discriminate.
Qed.

Lemma sort_Slice_nil {SS : SliceSorter} {Spec : SliceSorterSpec SS} A (less : A -> A -> bool) :
  sort_Slice A less [] = [].
Proof. apply Permutation_nil, sort_Slice_perm. Qed.

Lemma SortedBy_lookup {A} (less : A -> A -> bool) l :
  SortedBy less l ->
  forall (i j : nat) x y,
    (i < j)%nat -> l !! i = Some x -> l !! j = Some y -> less y x = false.
Proof.
  unfold SortedBy. induction 1 as [| z l Hl IH Hz]; intros i j x y Hij Hi Hj.
  - discriminate.
  - destruct j as [| j]; [lia |]. cbn in Hj. destruct i as [| i]; cbn in Hi.
    + injection Hi as ->. rewrite Forall_forall in Hz. apply Hz.
      eapply list_elem_of_lookup_2, Hj.
    + apply (IH i j); [lia | assumption..].
Qed.

(** ** The cycle never reports a failure *)

(** C1, as the specification states it, fails: a cycle over no source at
    all returns no error (and publishes an empty feed). *)
Lemma cycle_without_sources_returns_nil :
  Sources aggregatorNoSource = []
  /\ exists a' w' feed,
       FetchAllFeeds (SS := pdqSorter) netDown [] aggregatorNoSource world0
       = Ret ((None, a'), w')
       /\ AggregatedFeed a' = Some feed
       /\ Items feed = [].
Proof.
  split; [reflexivity |].
  eexists _, _, _. split; [vm_compute; reflexivity |].
  split; reflexivity.
Qed.

(** C1 (amended): [FetchAllFeeds] never fails.  From an aggregator that
    holds a feed it returns a nil error whatever the number of sources and
    whatever their fetches do; when every fetch fails, and so too when
    there is no source, the feed it publishes is empty. *)
Theorem cycle_never_fails {SS : SliceSorter} {Spec : SliceSorterSpec SS}
  (net : Network) (sched : list nat) (a : Aggregator) (w : World) (old : Feed) :
  AggregatedFeed a = Some old ->
  exists a' w' feed,
    FetchAllFeeds net sched a w = Ret ((None, a'), w')
    /\ AggregatedFeed a' = Some feed
    /\ ((forall i src, Sources a !! i = Some src -> failed net a i src = true) ->
        Items feed = [])
    /\ (Sources a = [] -> Items feed = []).
Proof.
  intros Hold.
  destruct (FetchAllFeeds_spec net sched a w old Hold)
    as (srcs' & feed & w' & Hrun & _ & Hitems & _).
  exists (mkAggregator srcs' (Some feed) (fetchTimeout a)), w', feed.
  split; [exact Hrun |]. split; [reflexivity |].
  assert (Hall : (forall i src, Sources a !! i = Some src -> failed net a i src = true) ->
                 Items feed = []).
  { intros Hfail. rewrite Hitems, (mergedEntries_all_failed _ _ _ Hfail), sort_Slice_nil.
    reflexivity. }
  split; [exact Hall |].
  intros Hnone. apply Hall. intros i src Hsrc. rewrite Hnone in Hsrc. discriminate.
Qed.

(** Sources A and B both unreachable: the cycle succeeds and the feed is
    empty. *)
Lemma cycle_never_fails_witness :
  AggregatedFeed aggregatorAB <> None
  /\ exists a' w' feed,
       FetchAllFeeds (SS := stableSorter) netDown [1; 0]%nat aggregatorAB world0
       = Ret ((None, a'), w')
       /\ AggregatedFeed a' = Some feed
       /\ Items feed = [].
Proof.
  split; [discriminate |].
  destruct (cycle_never_fails (Spec := stableSorter_spec) netDown [1; 0]%nat
              aggregatorAB world0 _ eq_refl)
    as (a' & w' & feed & Hrun & Hfeed & Hall & _).
  exists a', w', feed. split; [exact Hrun |]. split; [exact Hfeed |].
  apply Hall. intros i src Hsrc. reflexivity.
Defined.

(** ** The published feed is sorted and capped *)

(** C2: after a cycle the items of the published feed are in descending
    order of their published timestamp (no item is followed by a newer
    one), there are at most 100 of them, and they are the first 100 of the
    sorted merged sequence, however long that sequence is. *)
Theorem published_sorted_and_capped {SS : SliceSorter} {Spec : SliceSorterSpec SS}
  (net : Network) (sched : list nat) (a : Aggregator) (w : World) (old : Feed) :
  AggregatedFeed a = Some old ->
  exists a' w' feed,
    FetchAllFeeds net sched a w = Ret ((None, a'), w')
    /\ AggregatedFeed a' = Some feed
    /\ Items feed = take 100 (sort_Slice Entry newerFirst (mergedEntries net sched a))
    /\ (length (Items feed) <= 100)%nat
    /\ SortedBy newerFirst (Items feed)
    /\ (forall (i j : nat) x y,
          (i < j)%nat -> Items feed !! i = Some x -> Items feed !! j = Some y ->
          TimeOps.After (Published y) (Published x) = false).
Proof.
  intros Hold.
  destruct (FetchAllFeeds_spec net sched a w old Hold)
    as (srcs' & feed & w' & Hrun & _ & Hitems & _).
  exists (mkAggregator srcs' (Some feed) (fetchTimeout a)), w', feed.
  rewrite cap_take in Hitems.
  assert (Hsorted : SortedBy newerFirst (Items feed)).
  { rewrite Hitems. apply SortedBy_take, sort_Slice_sorted, newerFirst_strict_weak. }
  split; [exact Hrun |]. split; [reflexivity |]. split; [exact Hitems |].
  split; [rewrite Hitems, length_take; unfold maxEntries; lia |].
  split; [exact Hsorted |].
  intros i j x y Hij Hi Hj.
  apply (SortedBy_lookup newerFirst _ Hsorted i j x y Hij Hi Hj).
Qed.

(** The scenario of the specification: A serves [a1] and [a2], B times
    out; the feed lists [a2] before [a1]. *)
Lemma published_sorted_and_capped_witness :
  AggregatedFeed aggregatorAB <> None
  /\ exists a' w' feed,
       FetchAllFeeds (SS := stableSorter) (netServing feedA) [1; 0]%nat aggregatorAB world0
       = Ret ((None, a'), w')
       /\ AggregatedFeed a' = Some feed
       /\ map ID (Items feed) = ["a2"; "a1"]
       /\ SortedBy newerFirst (Items feed).
Proof.
  split; [discriminate |].
  destruct (published_sorted_and_capped (Spec := stableSorter_spec) (netServing feedA)
              [1; 0]%nat aggregatorAB world0 _ eq_refl)
    as (a' & w' & feed & Hrun & Hfeed & Hitems & _ & Hsorted & _).
  exists a', w', feed. split; [exact Hrun |]. split; [exact Hfeed |].
  split; [| exact Hsorted].
  rewrite Hitems. vm_compute. reflexivity.
Defined.

(** ** The order of entries published at the same instant *)

(** C3, as the specification states it, fails: the cycle sorts with
    [sort.Slice], which does not keep equal elements in their order.  With
    the algorithm of package sort, thirteen entries of one source, of which
    "e00" and "e01" are of the same instant and arrive in this order, are
    published with "e01" before "e00".  And a sorter that reverses ties,
    which the contract of [sort.Slice] allows, publishes two entries of the
    same instant in the reverse of their order of arrival. *)
Lemma published_ties_reordered :
  (exists a' w' feed,
     FetchAllFeeds (SS := pdqSorter) (netServing (sampleFeed thirteen)) [] aggregatorA world0
     = Ret ((None, a'), w')
     /\ AggregatedFeed a' = Some feed
     /\ map ID (mergedEntries (netServing (sampleFeed thirteen)) [] aggregatorA)
        = ["e00"; "e01"; "e02"; "e03"; "e04"; "e05"; "e06"; "e07"; "e08"; "e09";
           "e10"; "e11"; "e12"]
     /\ map ID (Items feed)
        = ["e06"; "e03"; "e09"; "e01"; "e02"; "e04"; "e05"; "e00"; "e07"; "e08";
           "e10"; "e11"; "e12"]
     /\ ~ KeepsTies (mergedEntries (netServing (sampleFeed thirteen)) [] aggregatorA)
                    (Items feed))
  /\ (SliceSorterSpec reversingSorter
      /\ exists a' w' feed,
           FetchAllFeeds (SS := reversingSorter) (netServing (sampleFeed twins)) []
             aggregatorA world0
           = Ret ((None, a'), w')
           /\ AggregatedFeed a' = Some feed
           /\ map ID (mergedEntries (netServing (sampleFeed twins)) [] aggregatorA)
              = ["t1"; "t2"]
           /\ map ID (Items feed) = ["t2"; "t1"]
           /\ ~ KeepsTies (mergedEntries (netServing (sampleFeed twins)) [] aggregatorA)
                          (Items feed)).
Proof.
  split.
  - eexists _, _, _. split; [vm_compute; reflexivity |].
    split; [reflexivity |].
    split; [vm_compute; reflexivity |].
    split; [vm_compute; reflexivity |].
    intros Hkeep.
    specialize (Hkeep 0%nat 1%nat
                  (enrich "Feed 01" (sampleEntry "e00" 1735725600))
                  (enrich "Feed 01" (sampleEntry "e01" 1735725600))).
    assert (H : (7 < 3)%nat); [| lia].
    apply Hkeep; try (vm_compute; reflexivity); try lia.
    intros Heq. apply (f_equal ID) in Heq. vm_compute in Heq. discriminate.
  - split; [exact reversingSorter_spec |].
    eexists _, _, _. split; [vm_compute; reflexivity |].
    split; [reflexivity |].
    split; [vm_compute; reflexivity |].
    split; [vm_compute; reflexivity |].
    intros Hkeep.
    specialize (Hkeep 0%nat 1%nat
                  (enrich "Feed 01" (sampleEntry "t1" 1735725600))
                  (enrich "Feed 01" (sampleEntry "t2" 1735725600))).
    assert (H : (1 < 0)%nat); [| lia].
    apply Hkeep; try (vm_compute; reflexivity); try lia.
    intros Heq. apply (f_equal ID) in Heq. vm_compute in Heq. discriminate.
Qed.

(** C3 (amended): the cycle sorts the merged sequence by published
    timestamp alone, newest first: the published items are the first 100 of
    a rearrangement of the merged sequence in which no entry stands before
    a newer one.  The order among entries of the same instant is the one
    [sort.Slice] leaves, which need not be the order of arrival. *)
Theorem published_order_by_timestamp_only {SS : SliceSorter} {Spec : SliceSorterSpec SS}
  (net : Network) (sched : list nat) (a : Aggregator) (w : World) (old : Feed) :
  AggregatedFeed a = Some old ->
  exists a' w' feed sorted,
    FetchAllFeeds net sched a w = Ret ((None, a'), w')
    /\ AggregatedFeed a' = Some feed
    /\ sorted = sort_Slice Entry newerFirst (mergedEntries net sched a)
    /\ Permutation (mergedEntries net sched a) sorted
    /\ SortedBy newerFirst sorted
    /\ Items feed = take 100 sorted
    /\ (forall (i j : nat) x y,
          sorted !! i = Some x -> sorted !! j = Some y ->
          TimeOps.After (Published x) (Published y) = true -> (i < j)%nat).
Proof.
  intros Hold.
  destruct (FetchAllFeeds_spec net sched a w old Hold)
    as (srcs' & feed & w' & Hrun & _ & Hitems & _).
  exists (mkAggregator srcs' (Some feed) (fetchTimeout a)), w', feed,
         (sort_Slice Entry newerFirst (mergedEntries net sched a)).
  assert (Hsorted : SortedBy newerFirst (sort_Slice Entry newerFirst (mergedEntries net sched a))).
  { apply sort_Slice_sorted, newerFirst_strict_weak. }
  split; [exact Hrun |]. split; [reflexivity |]. split; [reflexivity |].
  split; [apply sort_Slice_perm |]. split; [exact Hsorted |].
  split; [rewrite Hitems; apply cap_take |].
  intros i j x y Hi Hj Hnewer.
  destruct (Nat.lt_trichotomy i j) as [Hlt | [-> | Hgt]]; [exact Hlt | |].
  - rewrite Hi in Hj. injection Hj as ->.
    change (newerFirst y y = true) in Hnewer.
    rewrite (sw_irrefl newerFirst newerFirst_strict_weak) in Hnewer. discriminate.
  - pose proof (SortedBy_lookup newerFirst _ Hsorted j i y x Hgt Hj Hi) as Hnot.
    unfold newerFirst in Hnot. congruence.
Qed.

(** The scenario of the specification once more: [a2], the newer, comes
    first whatever the sorter does with ties. *)
Lemma published_order_by_timestamp_only_witness :
  AggregatedFeed aggregatorAB <> None
  /\ exists a' w' feed,
       FetchAllFeeds (SS := reversingSorter) (netServing feedA) [0; 0]%nat aggregatorAB world0
       = Ret ((None, a'), w')
       /\ AggregatedFeed a' = Some feed
       /\ map ID (Items feed) = ["a2"; "a1"].
Proof.
  split; [discriminate |].
  destruct (published_order_by_timestamp_only (Spec := reversingSorter_spec)
              (netServing feedA) [0; 0]%nat aggregatorAB world0 _ eq_refl)
    as (a' & w' & feed & sorted & Hrun & Hfeed & Hs & _ & _ & Hitems & _).
  exists a', w', feed. split; [exact Hrun |]. split; [exact Hfeed |].
  rewrite Hitems, Hs. vm_compute. reflexivity.
Defined.

(** ** Status bookkeeping *)

Lemma Status_fetched net a i src now :
  Status (fetched src now (resultOf net a i src)) = statusOf (failed net a i src).
Proof.
  unfold fetched, failed, resultOf. cbn.
  destruct (fetchFeedWithTimeout net i a (SourceURL src)); reflexivity.
Qed.

Lemma LastFetch_fetched src now r : LastFetch (fetched src now r) = now.
Proof. unfold fetched. destruct (outcome r); reflexivity. Qed.

Lemma countSource_fold bs : forall srcs x y,
  map Status srcs = map statusOf bs ->
  fold_left countSource srcs (x, y)
  = (x + Z.of_nat (length (filter (fun b : bool => b = false) bs)),
     y + Z.of_nat (length (filter (fun b : bool => b = true) bs))).
Proof.
  induction bs as [| b bs IH]; intros [| s srcs] x y Hst; try discriminate.
  - cbn. f_equal; lia.
  - cbn in Hst. injection Hst as Hs Hst.
    cbn [fold_left]. unfold countSource at 2. rewrite Hs.
    destruct b; cbn [statusOf String.eqb Ascii.eqb Bool.eqb fst snd];
      rewrite (IH _ _ _ Hst).
    + rewrite filter_cons_False by discriminate.
      rewrite filter_cons_True by reflexivity. cbn [length]. f_equal; lia.
    + rewrite filter_cons_True by reflexivity.
      rewrite filter_cons_False by discriminate. cbn [length]. f_equal; lia.
Qed.

Lemma count_true_false (bs : list bool) :
  (length (filter (fun b : bool => b = false) bs)
   + length (filter (fun b : bool => b = true) bs) = length bs)%nat.
Proof.
  induction bs as [| [] bs IH]; [reflexivity | |].
  - rewrite filter_cons_False by discriminate.
    rewrite filter_cons_True by reflexivity. cbn [length]. lia.
  - rewrite filter_cons_True by reflexivity.
    rewrite filter_cons_False by discriminate. cbn [length]. lia.
Qed.

(** C4: a cycle over N sources, K of which fail, leaves every source with
    the status "active" or "error" (exactly the K that failed with
    "error"), so that the statistics count N - K active and K error
    sources; every source has its [LastFetch] set to a reading of the
    clock made during the cycle; and every entry of the published feed is
    an entry of the feed some source served successfully, annotated with
    that source's name. *)
Theorem cycle_status_bookkeeping {SS : SliceSorter} {Spec : SliceSorterSpec SS}
  (net : Network) (sched : list nat) (a : Aggregator) (w : World) (old : Feed) :
  AggregatedFeed a = Some old ->
  let N := length (Sources a) in
  let K := failures net a in
  exists a' w' feed stats,
    FetchAllFeeds net sched a w = Ret ((None, a'), w')
    /\ AggregatedFeed a' = Some feed
    /\ length (Sources a') = N
    /\ (K <= N)%nat
    /\ Forall (fun s => Status s = "active" \/ Status s = "error") (Sources a')
    /\ (forall i src s', Sources a !! i = Some src -> Sources a' !! i = Some s' ->
          Status s' = statusOf (failed net a i src)
          /\ exists k, (k < N)%nat /\ LastFetch s' = clock w (tick w + k)%nat)
    /\ GetStats a' = Ret stats
    /\ active_sources stats = Z.of_nat (N - K)
    /\ error_sources stats = Z.of_nat K
    /\ active_sources stats + error_sources stats = Z.of_nat N
    /\ (forall e, e ∈ Items feed ->
          exists i src served e0,
            Sources a !! i = Some src
            /\ failed net a i src = false
            /\ fetchFeedWithTimeout net i a (SourceURL src) = Ok served
            /\ e0 ∈ Items served
            /\ e = enrich (Name src) e0).
Proof.
  intros Hold N K.
  destruct (FetchAllFeeds_spec net sched a w old Hold)
    as (srcs' & feed & w' & Hrun & Hlen & Hitems & _ & _ & _ & _ & Hsrcs).
  set (bs := imap (failed net a) (Sources a)).
  assert (Hbs : length bs = N) by apply length_imap.
  assert (Hcount := count_true_false bs).
  assert (HK : K = length (filter (fun b : bool => b = true) bs)) by reflexivity.
  assert (Hstatus : map Status srcs' = map statusOf bs).
  { apply list_eq. intros i.
    change (map Status srcs') with (Status <$> srcs').
    change (map statusOf bs) with (statusOf <$> bs).
    rewrite !list_lookup_fmap. subst bs. rewrite list_lookup_imap.
    destruct (Sources a !! i) as [src |] eqn:Hsrc.
    - destruct (Hsrcs i src Hsrc) as (k & _ & ->). cbn.
      rewrite Status_fetched. reflexivity.
    - apply lookup_ge_None in Hsrc. rewrite <- Hlen in Hsrc.
      apply lookup_ge_None in Hsrc. rewrite Hsrc. reflexivity. }
  pose proof (countSource_fold bs srcs' 0 0 Hstatus) as Hfold.
  exists (mkAggregator srcs' (Some feed) (fetchTimeout a)), w', feed,
         {| total_sources := Z.of_nat (length srcs');
            active_sources := Z.of_nat (length (filter (fun b : bool => b = false) bs));
            error_sources := Z.of_nat K;
            total_entries := Z.of_nat (length (Items feed));
            last_updated := LastUpdated feed |}.
  cbn [Sources AggregatedFeed active_sources error_sources].
  split; [exact Hrun |]. split; [reflexivity |]. split; [exact Hlen |].
  split; [lia |].
  split.
  { apply Forall_lookup. intros i s' Hs'.
    destruct (Sources a !! i) as [src |] eqn:Hsrc.
    - destruct (Hsrcs i src Hsrc) as (k & _ & Hfin). rewrite Hfin in Hs'.
      injection Hs' as <-. rewrite Status_fetched.
      destruct (failed net a i src); cbn; auto.
    - apply lookup_ge_None in Hsrc. apply lookup_lt_Some in Hs'. lia. }
  split.
  { intros i src s' Hsrc Hs'.
    destruct (Hsrcs i src Hsrc) as (k & Hk & Hfin). rewrite Hfin in Hs'.
    injection Hs' as <-. split; [apply Status_fetched |].
    exists k. split; [exact Hk | apply LastFetch_fetched]. }
  split.
  { unfold GetStats. cbn [Sources AggregatedFeed]. rewrite Hfold. cbn.
    rewrite HK. reflexivity. }
  split; [f_equal; lia |]. split; [reflexivity |]. split; [lia |].
  intros e He. rewrite Hitems, cap_take in He.
  apply elem_of_take in He as (i & He & _).
  apply list_elem_of_lookup_2 in He.
  rewrite <- (sort_Slice_perm Entry newerFirst) in He.
  destruct (mergedEntries_origin _ _ _ _ He) as (j & src & served & e0 & Hsrc & Hok & He0 & ->).
  exists j, src, served, e0. repeat split; try assumption.
  unfold failed. rewrite Hok. reflexivity.
Qed.

(** The scenario of the specification: A is active, B in error, and the
    statistics count one of each. *)
Lemma cycle_status_bookkeeping_witness :
  AggregatedFeed aggregatorAB <> None
  /\ failures (netServing feedA) aggregatorAB = 1%nat
  /\ exists a' w' stats,
       FetchAllFeeds (SS := stableSorter) (netServing feedA) [1; 0]%nat aggregatorAB world0
       = Ret ((None, a'), w')
       /\ map Status (Sources a') = ["active"; "error"]
       /\ GetStats a' = Ret stats
       /\ active_sources stats = 1
       /\ error_sources stats = 1.
Proof.
  split; [discriminate |]. split; [reflexivity |].
  destruct (cycle_status_bookkeeping (Spec := stableSorter_spec) (netServing feedA)
              [1; 0]%nat aggregatorAB world0 _ eq_refl)
    as (a' & w' & feed & stats & Hrun & _ & Hlen & _ & _ & Hst & Hstats & Hact & Herr & _).
  exists a', w', stats. split; [exact Hrun |].
  split; [| split; [exact Hstats | split; [exact Hact | exact Herr]]].
  destruct a' as [[| s0 [| s1 [| s2 srcs]]] feed' timeout]; try discriminate.
  cbn in Hst |- *.
  destruct (Hst 0%nat _ s0 eq_refl eq_refl) as [-> _].
  destruct (Hst 1%nat _ s1 eq_refl eq_refl) as [-> _].
  reflexivity.
Defined.

(** ** Serving before the first cycle *)

Lemma Feed_ServeHTTP_status {TF : TimeFormat} {JF : Json Feed} f t w r :
  LastUpdated f = Some t ->
  RespStatus w = None ->
  exists w',
    Feed_ServeHTTP f w r = Ret w'
    /\ (RespStatus w' = Some StatusOK
        \/ RespStatus w' = Some StatusNotModified
        \/ RespStatus w' = Some StatusInternalServerError).
Proof.
  intros Ht Hfresh. unfold Feed_ServeHTTP. rewrite Ht.
  set (w1 := SetHeader (SetHeader (SetHeader (SetHeader w _ _) _ _) _ _) _ _).
  assert (Hst : RespStatus w1 = None) by exact Hfresh.
  destruct (String.eqb _ _).
  - eexists. split; [reflexivity |]. unfold WriteHeader. rewrite Hst. cbn. auto.
  - destruct (ToJSON f).
    + eexists. split; [reflexivity |]. rewrite Write_fresh by exact Hst. cbn. auto.
    + eexists. split; [reflexivity |].
      destruct (http_Error_fresh w1 "Internal server error" StatusInternalServerError Hst)
        as (-> & _). auto.
Qed.

(** C5, as the specification states it, fails: [NewAggregator] already
    installs an empty feed, so a GET that comes before any cycle is
    answered 200 with that feed's document, not 503. *)
Lemma first_get_before_any_cycle :
  exists a w rw,
    NewAggregator "Tech News Aggregator" "http://localhost:8181/feed.json" world0
    = Ret (a, w)
    /\ Sources a = []
    /\ Aggregator_ServeHTTP (TF := unixTimeFormat) (JF := oneDocumentJson)
         a newResponseWriter (mkRequest ∅) = Ret rw
    /\ RespStatus rw = Some StatusOK
    /\ RespBody rw = "{" +:+ quoted "Tech News Aggregator" +:+ ": 0}"
    /\ RespStatus rw <> Some StatusServiceUnavailable.
Proof.
  eexists _, _, _. split; [vm_compute; reflexivity |].
  split; [reflexivity |]. split; [reflexivity |].
  split; [vm_compute; reflexivity |].
  split; [vm_compute; reflexivity |].
  vm_compute. discriminate.
Qed.

(** C5 (amended): the aggregator answers 503 when it holds no feed at all
    (a nil [AggregatedFeed]), and only then: of an aggregator that holds a
    feed no response is a 503.  An aggregator made by [NewAggregator] holds
    an empty feed from the start, stamped with the time of its creation in
    UTC: a GET before the first cycle is handed to [Feed.ServeHTTP] for
    that feed and is answered 200, 304 or 500, never 503. *)
Theorem aggregator_serves_initial_feed {TF : TimeFormat} {JF : Json Feed}
  (title feedURL : string) (w : World) (rw : ResponseWriter) (r : Request)
  (srcs : list FeedSource) (timeout : Z) :
  RespStatus rw = None ->
  (exists rw',
     Aggregator_ServeHTTP (mkAggregator srcs None timeout) rw r = Ret rw'
     /\ RespStatus rw' = Some StatusServiceUnavailable)
  /\ (forall feed rw',
        Aggregator_ServeHTTP (mkAggregator srcs (Some feed) timeout) rw r = Ret rw' ->
        RespStatus rw' <> Some StatusServiceUnavailable)
  /\ exists a w' feed rw',
       NewAggregator title feedURL w = Ret (a, w')
       /\ Sources a = []
       /\ AggregatedFeed a = Some feed
       /\ Items feed = []
       /\ LastUpdated feed = Some (TimeOps.UTC (clock w (tick w)))
       /\ Aggregator_ServeHTTP a rw r = Feed_ServeHTTP feed rw r
       /\ Aggregator_ServeHTTP a rw r = Ret rw'
       /\ (RespStatus rw' = Some StatusOK
           \/ RespStatus rw' = Some StatusNotModified
           \/ RespStatus rw' = Some StatusInternalServerError)
       /\ RespStatus rw' <> Some StatusServiceUnavailable.
Proof.
  intros Hfresh. split.
  - eexists. split; [reflexivity |].
    destruct (http_Error_fresh rw "Aggregated feed not available"
                StatusServiceUnavailable Hfresh) as (-> & _).
    reflexivity.
  - split.
    { intros feed rw' Hrun. unfold Aggregator_ServeHTTP in Hrun. cbn in Hrun.
      destruct (LastUpdated feed) as [t |] eqn:Ht.
      - destruct (Feed_ServeHTTP_status feed t rw r Ht Hfresh) as (rw2 & Hserve & Hstatus).
        rewrite Hserve in Hrun. injection Hrun as <-.
        destruct Hstatus as [-> | [-> | ->]]; discriminate.
      - unfold Feed_ServeHTTP in Hrun. rewrite Ht in Hrun. discriminate. }
    set (feed := mkFeed Version title "" "" feedURL "" None
                   (Some (TimeOps.UTC (clock w (tick w)))) [] false).
    destruct (Feed_ServeHTTP_status feed (TimeOps.UTC (clock w (tick w))) rw r eq_refl Hfresh)
      as (rw' & Hserve & Hstatus).
    exists (mkAggregator [] (Some feed) (30 * Second)), (advance w 1), feed, rw'.
    split.
    { unfold NewAggregator, NewFeed, bind, time_Now, ret, advance. cbn.
      rewrite Nat.add_1_r. reflexivity. }
    repeat split; try assumption.
    destruct Hstatus as [-> | [-> | ->]]; discriminate.
Qed.

(** The aggregator of the example program, asked before its first cycle. *)
Lemma aggregator_serves_initial_feed_witness :
  RespStatus newResponseWriter = None
  /\ exists a w' rw',
       NewAggregator "Tech News Aggregator" "http://localhost:8181/feed.json" world0
       = Ret (a, w')
       /\ Aggregator_ServeHTTP (TF := unixTimeFormat) (JF := oneDocumentJson)
            a newResponseWriter (mkRequest ∅) = Ret rw'
       /\ RespStatus rw' <> Some StatusServiceUnavailable.
Proof.
  split; [reflexivity |].
  destruct (aggregator_serves_initial_feed (TF := unixTimeFormat) (JF := oneDocumentJson)
              "Tech News Aggregator" "http://localhost:8181/feed.json" world0
              newResponseWriter (mkRequest ∅) [] 0 eq_refl)
    as (_ & _ & a & w' & feed & rw' & Hnew & _ & _ & _ & _ & _ & Hserve & _ & Hnot).
  exists a, w', rw'. auto.
Defined.

(** * Further properties of the package *)

(** ** URLs *)

Lemma HasPrefix_iff s p :
  Strings.HasPrefix s p = true <-> exists rest, s = p +:+ rest.
Proof.
  revert s. induction p as [| c p IH]; intros s; cbn.
  - split; [intros _; exists s; reflexivity | destruct s; reflexivity].
  - destruct s as [| d s]; cbn.
    + split; [discriminate | intros [rest Hrest]; discriminate].
    + rewrite andb_true_iff, Ascii.eqb_eq, IH. split.
      * intros [-> [rest ->]]. exists rest. reflexivity.
      * intros [rest [= -> ->]]. split; [reflexivity | exists rest; reflexivity].
Qed.

(** X1: [isValidURL] accepts exactly the strings that start with "http://"
    or "https://"; nothing is asked of what follows the scheme, and the
    test for the empty string changes nothing. *)
Theorem isValidURL_iff (str : string) :
  isValidURL str = true
  <-> (exists rest, str = "http://" +:+ rest) \/ (exists rest, str = "https://" +:+ rest).
Proof.
  unfold isValidURL. rewrite <- !HasPrefix_iff.
  destruct (String.eqb str "") eqn:Hempty.
  - apply String.eqb_eq in Hempty. subst str. cbn. intuition discriminate.
  - rewrite orb_true_iff. reflexivity.
Qed.

(** ** Validation of feeds *)

Lemma validateItems_None items : forall i entryIDs seen,
  tracks entryIDs seen -> NoDup seen ->
  validateItems i entryIDs items = None ->
  Forall (fun e => Entry_Validate e = None) items /\ NoDup (seen ++ map ID items).
Proof.
  induction items as [| entry rest IH]; intros i entryIDs seen Ht Hnd Hval.
  - cbn. rewrite app_nil_r. auto.
  - cbn [validateItems] in Hval.
    destruct (Entry_Validate entry) eqn:Hentry; [discriminate |].
    destruct (default false (entryIDs !! ID entry)) eqn:Hseen; [discriminate |].
    assert (Hnd1 : NoDup (seen ++ [ID entry])).
    { apply NoDup_app. split; [exact Hnd | split].
      - intros x Hx ->%list_elem_of_singleton. apply Ht in Hx. congruence.
      - apply NoDup_singleton. }
    destruct (IH _ _ _ (tracks_insert _ _ (ID entry) Ht) Hnd1 Hval) as [Hrest Hnd'].
    split; [constructor; assumption |].
    cbn [map]. rewrite <- app_assoc in Hnd'. exact Hnd'.
Qed.

Lemma Feed_Validate_None_iff (f : Feed) :
  Feed_Validate f = None
  <-> feedFieldsValid f = true
      /\ Forall (fun e => Entry_Validate e = None) (Items f)
      /\ NoDup (map ID (Items f)).
Proof.
  split.
  - intros Hval. destruct (feedFieldsValid f) eqn:Hfields.
    + rewrite Feed_Validate_fields_valid in Hval by exact Hfields.
      destruct (validateItems_None _ _ _ [] tracks_empty (NoDup_nil_2) Hval) as [Hall Hnd].
      auto.
    + exfalso. exact (Feed_Validate_fields_invalid f Hfields Hval).
  - intros (Hfields & Hall & Hnd).
    rewrite Feed_Validate_fields_valid by exact Hfields.
    destruct (validateItems_fresh (Items f) [] 0 ∅ [] tracks_empty Hall Hnd)
      as (entryIDs' & _ & Heq).
    rewrite app_nil_r in Heq. rewrite Heq. reflexivity.
Qed.

(** X3: when the feed-level checks pass, the first entry that fails its own
    validation, if no identifier is repeated before it, decides the error:
    the entry's error wrapped with "entry i: ", [i] being the position of
    that entry counted from 0. *)
Theorem Feed_Validate_first_invalid_entry (f : Feed) (pre post : list Entry)
  (e : Entry) (err : ErrorValue) :
  feedFieldsValid f = true ->
  Items f = (pre ++ e :: post)%list ->
  Forall (fun x => Entry_Validate x = None) pre ->
  NoDup (map ID pre) ->
  Entry_Validate e = Some err ->
  Feed_Validate f
  = Some (EWrapped ("entry " +:+ fmt_d (Z.of_nat (length pre)) +:+ ": ") err).
Proof.
  intros Hfields Hitems Hpre Hnd He.
  rewrite Feed_Validate_fields_valid by exact Hfields. rewrite Hitems.
  destruct (validateItems_fresh pre (e :: post) 0 ∅ [] tracks_empty Hpre Hnd)
    as (entryIDs' & _ & ->).
  cbn [validateItems]. rewrite He. reflexivity.
Qed.

(** An entry without title behind a valid one: the error names entry 1. *)
Lemma Feed_Validate_first_invalid_entry_witness :
  Feed_Validate
    (sampleFeed [sampleEntry "a1" 1735725600;
                 NewEntry "a2" "" "https://localhost:8081/a2" (mkTime 1735812000 0);
                 sampleEntry "a1" 1735898400])
  = Some (EWrapped "entry 1: "
            (EValidation (mkValidationError "title" "title is required"))).
Proof.
  apply (Feed_Validate_first_invalid_entry _ [sampleEntry "a1" 1735725600]
           [sampleEntry "a1" 1735898400]
           (NewEntry "a2" "" "https://localhost:8081/a2" (mkTime 1735812000 0))).
  - vm_compute. reflexivity.
  - reflexivity.
  - repeat constructor.
  - repeat constructor. intros H. inversion H.
  - vm_compute. reflexivity.
Defined.

Lemma AddEntry_run f entry w :
  AddEntry f entry w
  = Ret (mkFeed (FeedVersion f) (FeedTitle f) (Description f) (HomePageURL f)
                (FeedURL f) (Language f) (FeedAuthor f)
                (Some (TimeOps.UTC (clock w (tick w)))) (Items f ++ [entry])%list false,
         advance w 1).
Proof.
  unfold AddEntry, bind, time_Now, ret, advance. cbn.
  rewrite Nat.add_1_r. reflexivity.
Qed.

(** X4: [Feed.AddEntry] checks nothing; it always appends the entry and
    stamps the feed with the clock.  The feed it leaves passes
    [Feed.Validate] exactly when the feed passed before, the entry is valid
    and its identifier is not yet in the feed. *)
Theorem AddEntry_then_Validate (f : Feed) (entry : Entry) (w : World) :
  exists f',
    AddEntry f entry w = Ret (f', advance w 1)
    /\ Items f' = (Items f ++ [entry])%list
    /\ LastUpdated f' = Some (TimeOps.UTC (clock w (tick w)))
    /\ (Feed_Validate f' = None
        <-> Feed_Validate f = None
            /\ Entry_Validate entry = None
            /\ ID entry ∉ map ID (Items f)).
Proof.
  eexists. split; [apply AddEntry_run |]. split; [reflexivity |].
  split; [reflexivity |].
  rewrite !Feed_Validate_None_iff. unfold feedFieldsValid. cbn.
  rewrite Forall_app, map_app, NoDup_app. cbn.
  rewrite Forall_singleton.
  split.
  - intros (Hf & (Hall & He) & Hnd & Hdisj & _).
    repeat split; try assumption.
    intros Hin. apply (Hdisj _ Hin). left.
  - intros ((Hf & Hall & Hnd) & He & Hfresh).
    repeat split; try assumption.
    + intros x Hx ->%list_elem_of_singleton. contradiction.
    + apply NoDup_singleton.
Qed.

(** ** Validation of entries *)

Lemma DecodeRuneInString_width c s :
  (1 <= (Utf8.DecodeRuneInString (c :: s)).2)%nat.
Proof.
  unfold Utf8.DecodeRuneInString.
  repeat (case_match; cbn [snd]; try lia).
Qed.

Lemma runes_fuel_chunks fuel : forall s,
  Forall (fun rb : Z * list ascii => rb.2 <> []) (Utf8.runes_fuel fuel s).
Proof.
  induction fuel as [| fuel IH]; intros s; cbn; [constructor |].
  destruct s as [| c s]; [constructor |].
  pose proof (DecodeRuneInString_width c s) as Hw.
  destruct (Utf8.DecodeRuneInString (c :: s)) as [r w]. cbn in Hw.
  constructor; [| apply IH].
  cbn. destruct w; [lia | discriminate].
Qed.

Lemma dropWhileSpace_nil rs :
  Strings.dropWhileSpace rs = []
  <-> forallb (fun rb : Z * list ascii => Utf8.IsSpace rb.1) rs = true.
Proof.
  induction rs as [| rb rs IH]; cbn; [tauto |].
  unfold Strings.notSpace. destruct (Utf8.IsSpace rb.1); cbn; [exact IH |].
  split; discriminate.
Qed.

Lemma dropWhileSpace_elem rs rb :
  rb ∈ Strings.dropWhileSpace rs -> rb ∈ rs.
Proof.
  induction rs as [| x rs IH]; cbn; [auto |].
  destruct (Strings.notSpace x); [auto |].
  intros H. right. apply IH, H.
Qed.

Lemma string_of_list_ascii_nil l : string_of_list_ascii l = "" <-> l = [].
Proof. destruct l; cbn; split; congruence. Qed.

(** [strings.TrimSpace(s) == ""] holds exactly for the strings made of
    white-space runes. *)
Lemma TrimSpace_blank s :
  String.eqb (Strings.TrimSpace s) "" = blank s.
Proof.
  apply eq_true_iff_eq. rewrite String.eqb_eq. unfold Strings.TrimSpace, blank.
  rewrite string_of_list_ascii_nil, <- dropWhileSpace_nil.
  set (rs := Utf8.runes s).
  assert (Hchunks : Forall (fun rb : Z * list ascii => rb.2 <> []) rs)
    by apply runes_fuel_chunks.
  split.
  - intros Hcat. destruct (Strings.dropWhileSpace rs) as [| rb rest] eqn:Hdrop;
      [reflexivity | exfalso].
    assert (Hnot : Strings.notSpace rb = true).
    { destruct rs as [| x rs']; [discriminate |]. clear Hchunks.
      revert Hdrop. generalize (x :: rs'). intros l. induction l as [| y l IH]; cbn;
        [discriminate |].
      destruct (Strings.notSpace y) eqn:Hy; [intros [= -> _]; exact Hy | exact IH]. }
    set (back := Strings.dropWhileSpace (rev (rb :: rest))) in Hcat.
    assert (Hback : back <> []).
    { subst back. intros Hnil. apply dropWhileSpace_nil in Hnil.
      rewrite forallb_forall in Hnil.
      assert (Hin : In rb (rev (rb :: rest))) by (apply in_rev; rewrite rev_involutive; left; reflexivity).
      specialize (Hnil rb Hin). unfold Strings.notSpace in Hnot.
      rewrite Hnil in Hnot. discriminate. }
    destruct back as [| y back'] eqn:Hb; [congruence |].
    assert (Hy : y ∈ rs).
    { apply dropWhileSpace_elem. rewrite Hdrop.
      apply list_elem_of_In, in_rev, list_elem_of_In.
      apply dropWhileSpace_elem. fold back. rewrite Hb. left. }
    rewrite Forall_forall in Hchunks. specialize (Hchunks y Hy).
    cbn [rev] in Hcat. rewrite map_app, concat_app in Hcat.
    apply app_eq_nil in Hcat as [_ Hcat]. cbn in Hcat.
    rewrite app_nil_r in Hcat. contradiction.
  - intros ->. reflexivity.
Qed.

(** X5: [Entry.Validate] accepts an entry exactly when its identifier and
    its title each hold a rune that is not white space (Unicode white space
    included), its URL starts with "http://" or "https://", its published
    timestamp is not the zero time, and its image is empty or such a URL.
    No other field is looked at. *)
Theorem Entry_Validate_accepts_iff (e : Entry) :
  Entry_Validate e = None
  <-> blank (ID e) = false
      /\ blank (Title e) = false
      /\ isValidURL (URL e) = true
      /\ TimeOps.IsZero (Published e) = false
      /\ (Image e = "" \/ isValidURL (Image e) = true).
Proof.
  unfold Entry_Validate. rewrite !TrimSpace_blank.
  destruct (blank (ID e)); [split; [discriminate | intros [? _]; discriminate] |].
  destruct (blank (Title e)); [split; [discriminate | intros (_ & ? & _); discriminate] |].
  destruct (isValidURL (URL e)); cbn;
    [| split; [discriminate | intros (_ & _ & ? & _); discriminate]].
  destruct (TimeOps.IsZero (Published e));
    [split; [discriminate | intros (_ & _ & _ & ? & _); discriminate] |].
  destruct (String.eqb (Image e) "") eqn:Himg; cbn.
  - apply String.eqb_eq in Himg. intuition.
  - apply String.eqb_neq in Himg.
    destruct (isValidURL (Image e)); cbn; [intuition |].
    split; [discriminate |]. intros (_ & _ & _ & _ & [? | ?]); [contradiction | discriminate].
Qed.

Example blank_unicode :
  blank (String (ascii_of_nat 32)
           (String (ascii_of_nat 194) (String (ascii_of_nat 160)
              (String (ascii_of_nat 227) (String (ascii_of_nat 128)
                 (String (ascii_of_nat 128) EmptyString))))))
  = true.
Proof. vm_compute. reflexivity. Qed.

(** X2: [Feed.Validate] accepts a feed exactly when its version, title,
    feed URL and home page URL pass, every entry passes [Entry.Validate],
    and no two entries have the same identifier. *)
Theorem Feed_Validate_accepts_iff (f : Feed) :
  Feed_Validate f = None
  <-> String.eqb (FeedVersion f) Version = true
      /\ blank (FeedTitle f) = false
      /\ isValidURL (FeedURL f) = true
      /\ (HomePageURL f = "" \/ isValidURL (HomePageURL f) = true)
      /\ Forall (fun e => Entry_Validate e = None) (Items f)
      /\ NoDup (map ID (Items f)).
Proof.
  rewrite Feed_Validate_None_iff. unfold feedFieldsValid.
  rewrite !andb_true_iff, orb_true_iff, negb_true_iff, TrimSpace_blank.
  rewrite (String.eqb_eq (HomePageURL f)). tauto.
Qed.

(** ** Parsing and fetching a feed *)

(** X6: [FetchFeed] returns a feed only from a response of status 200 whose
    body was read in full, parsed to that feed, and passed
    [Feed.Validate]; the same holds for [FromJSON] on the body.  What it
    returns therefore has valid entries with distinct identifiers. *)
Theorem FetchFeed_returns_valid_feed {JF : Json Feed}
  (http_Get : string -> GetOutcome) (url : string) (f : Feed) :
  FetchFeed http_Get url = Ok f
  <-> exists status data,
        http_Get url = GetResponse StatusOK status (Ok data)
        /\ FromJSON data = Ok f
        /\ json_Unmarshal data = Ok f
        /\ Feed_Validate f = None
        /\ Forall (fun e => Entry_Validate e = None) (Items f)
        /\ NoDup (map ID (Items f)).
Proof.
  unfold FetchFeed. split.
  - destruct (http_Get url) as [err | code status [data | err]]; try discriminate.
    + destruct (code =? StatusOK) eqn:Hcode; [| discriminate]. cbn.
      apply Z.eqb_eq in Hcode. subst code. intros Hfrom.
      exists status, data. split; [reflexivity |]. split; [exact Hfrom |].
      unfold FromJSON in Hfrom.
      destruct (json_Unmarshal data) as [feed | err]; [| discriminate].
      destruct (Feed_Validate feed) eqn:Hval; [discriminate |].
      injection Hfrom as ->. split; [reflexivity |]. split; [exact Hval |].
      apply Feed_Validate_None_iff in Hval. tauto.
    + destruct (code =? StatusOK); discriminate.
  - intros (status & data & -> & Hfrom & _). cbn. exact Hfrom.
Qed.

(** ** Filtering by date *)

Lemma Time_Equal_spec t u :
  Time_Equal t u = true <-> unixSec t = unixSec u /\ nsec t = nsec u.
Proof. unfold Time_Equal. rewrite andb_true_iff, !Z.eqb_eq. tauto. Qed.

Lemma inDateRange_spec start end_ entry :
  inDateRange start end_ entry = true
  <-> notAfter start (Published entry) /\ notAfter (Published entry) end_.
Proof.
  unfold inDateRange, Time_Before, notAfter.
  rewrite andb_true_iff, !orb_true_iff, !Time_Equal_spec, !After_spec. lia.
Qed.

(** X7: [Feed.FilterByDateRange] returns, in their order in the feed, the
    entries published from [start] to [end], both ends included, and only
    those; when [end] is before [start] it returns nothing. *)
Theorem FilterByDateRange_spec (f : Feed) (start end_ : Time) :
  (forall entry,
     entry ∈ FilterByDateRange f start end_
     <-> entry ∈ Items f
         /\ notAfter start (Published entry) /\ notAfter (Published entry) end_)
  /\ sublist (FilterByDateRange f start end_) (Items f)
  /\ (TimeOps.After start end_ = true -> FilterByDateRange f start end_ = []).
Proof.
  unfold FilterByDateRange. split; [| split].
  - intros entry. rewrite !list_elem_of_In, filter_In, inDateRange_spec. tauto.
  - induction (Items f) as [| x l IH]; cbn; [constructor |].
    destruct (inDateRange start end_ x); [apply sublist_skip | apply sublist_cons]; exact IH.
  - intros Hafter. apply After_spec in Hafter.
    induction (Items f) as [| x l IH]; cbn; [reflexivity |].
    destruct (inDateRange start end_ x) eqn:Hin; [| exact IH].
    apply inDateRange_spec in Hin. unfold notAfter in Hin. lia.
Qed.

Example filter_feedA :
  map ID (FilterByDateRange feedA (mkTime 1735725600 0) (mkTime 1735725600 0)) = ["a1"].
Proof. vm_compute. reflexivity. Qed.

(** ** Tags and categories *)

Lemma rangeKeys_elem {MR : MapRange} (m : gmap string bool) k :
  k ∈ rangeKeys m <-> is_Some (m !! k).
Proof.
  rewrite (rangeKeys_perm m).
  change (map fst (map_to_list m)) with ((map_to_list m).*1).
  rewrite list_elem_of_fmap. split.
  - intros ([k' v] & -> & Hin). apply elem_of_map_to_list in Hin. eauto.
  - intros [v Hv]. exists (k, v). split; [reflexivity |].
    apply elem_of_map_to_list, Hv.
Qed.

Lemma rangeKeys_NoDup {MR : MapRange} (m : gmap string bool) : NoDup (rangeKeys m).
Proof.
  rewrite (rangeKeys_perm m). apply NoDup_fst_map_to_list.
Qed.

Lemma insert_tags_lookup (tags : list string) : forall (m : gmap string bool) k,
  is_Some (foldl (fun tagSet tag => <[tag := true]> tagSet) m tags !! k)
  <-> is_Some (m !! k) \/ k ∈ tags.
Proof.
  induction tags as [| t tags IH]; intros m k; cbn.
  - rewrite elem_of_nil. tauto.
  - rewrite IH, elem_of_cons. destruct (decide (t = k)) as [-> | Hne].
    + rewrite lookup_insert_eq. intuition eauto.
    + rewrite lookup_insert_ne by exact Hne. intuition congruence.
Qed.

Lemma tagSet_lookup (items : list Entry) : forall (m : gmap string bool) k,
  is_Some (foldl (fun tagSet entry =>
                    foldl (fun tagSet tag => <[tag := true]> tagSet) tagSet (Tags entry))
                 m items !! k)
  <-> is_Some (m !! k) \/ exists entry, entry ∈ items /\ k ∈ Tags entry.
Proof.
  induction items as [| e items IH]; intros m k; cbn.
  - split; [auto |]. intros [H | (entry & Hin & _)]; [exact H | inversion Hin].
  - rewrite IH, insert_tags_lookup. split.
    + intros [[H | H] | (entry & Hin & Hk)]; [auto | |].
      * right. exists e. split; [left | exact H].
      * right. exists entry. split; [right; exact Hin | exact Hk].
    + intros [H | (entry & Hin & Hk)]; [auto |].
      apply elem_of_cons in Hin as [-> | Hin]; [auto |].
      right. exists entry. auto.
Qed.

(** X8: [Feed.GetTags] lists every tag carried by some entry of the feed,
    each once, and nothing else (in whatever order the map is ranged
    over). *)
Theorem GetTags_spec {MR : MapRange} (f : Feed) :
  NoDup (GetTags f)
  /\ forall tag,
       tag ∈ GetTags f <-> exists entry, entry ∈ Items f /\ tag ∈ Tags entry.
Proof.
  unfold GetTags. split; [apply rangeKeys_NoDup |].
  intros tag. rewrite rangeKeys_elem. unfold tagSetOf. rewrite tagSet_lookup.
  rewrite lookup_empty. split.
  - intros [[v Hv] | H]; [discriminate | exact H].
  - auto.
Qed.

Lemma categorySet_lookup (items : list Entry) : forall (m : gmap string bool) k,
  is_Some (foldl (fun categorySet entry =>
                    if negb (String.eqb (Category entry) "") then
                      <[Category entry := true]> categorySet
                    else categorySet)
                 m items !! k)
  <-> is_Some (m !! k)
      \/ (k <> "" /\ exists entry, entry ∈ items /\ Category entry = k).
Proof.
  induction items as [| e items IH]; intros m k; cbn.
  - split; [auto |]. intros [H | (_ & entry & Hin & _)]; [exact H | inversion Hin].
  - rewrite IH. destruct (String.eqb (Category e) "") eqn:Hc; cbn.
    + apply String.eqb_eq in Hc. split.
      * intros [H | (Hk & entry & Hin & Heq)]; [auto |].
        right. split; [exact Hk |]. exists entry. split; [right; exact Hin | exact Heq].
      * intros [H | (Hk & entry & Hin & Heq)]; [auto |].
        apply elem_of_cons in Hin as [-> | Hin]; [congruence |].
        right. split; [exact Hk |]. exists entry. auto.
    + apply String.eqb_neq in Hc. destruct (decide (Category e = k)) as [Heq | Hne].
      * subst k. rewrite lookup_insert_eq. split; [| intros _; left; eauto].
        intros _. right. split; [exact Hc |]. exists e. split; [left | reflexivity].
      * rewrite lookup_insert_ne by exact Hne. split.
        -- intros [H | (Hk & entry & Hin & Heq)]; [auto |].
           right. split; [exact Hk |]. exists entry. split; [right; exact Hin | exact Heq].
        -- intros [H | (Hk & entry & Hin & Heq)]; [auto |].
           apply elem_of_cons in Hin as [-> | Hin]; [congruence |].
           right. split; [exact Hk |]. exists entry. auto.
Qed.

(** X9: [Feed.GetCategories] lists every non-empty category of some entry
    of the feed, each once, and nothing else; the empty category never
    appears. *)
Theorem GetCategories_spec {MR : MapRange} (f : Feed) :
  NoDup (GetCategories f)
  /\ ("" ∉ GetCategories f)
  /\ forall category,
       category ∈ GetCategories f
       <-> category <> "" /\ exists entry, entry ∈ Items f /\ Category entry = category.
Proof.
  unfold GetCategories.
  assert (Hiff : forall category,
            category ∈ rangeKeys (categorySetOf (Items f))
            <-> category <> ""
                /\ exists entry, entry ∈ Items f /\ Category entry = category).
  { intros category. rewrite rangeKeys_elem. unfold categorySetOf.
    rewrite categorySet_lookup, lookup_empty. split.
    - intros [[v Hv] | H]; [discriminate | exact H].
    - auto. }
  split; [apply rangeKeys_NoDup |]. split; [| exact Hiff].
  intros Hin. apply Hiff in Hin as [Hne _]. congruence.
Qed.

(** ** Extension fields *)

(** X10: what [Set] stores under a non-empty key [Get] returns, whether or
    not either call writes the leading underscore; a [Get] for any other
    key finds what was there before the [Set].  [Set] makes a nil map
    non-nil. *)
Theorem Extension_Get_after_Set {V} (e : ExtensionFields V) (key key' : string) (value : V) :
  key' <> "" ->
  Extension_Set e key value <> None
  /\ Extension_Get (Extension_Set e key value) key'
     = Ret (if decide (normalKey key' = normalKey key) then Some value
            else match e with
                 | Some m => m !! normalKey key'
                 | None => None
                 end).
Proof.
  intros Hkey'. split; [discriminate |].
  destruct key' as [| c' rest']; [congruence |].
  unfold Extension_Set, Extension_Get.
  change (if negb (Ascii.eqb c' underscore) then "_" +:+ String c' rest' else String c' rest')
    with (normalKey (String c' rest')).
  change (match key with
          | EmptyString => key
          | String c _ => if negb (Ascii.eqb c underscore) then "_" +:+ key else key
          end) with (normalKey key).
  f_equal. case_decide as Heq.
  - rewrite Heq. apply lookup_insert_eq.
  - rewrite lookup_insert_ne by congruence. destruct e; [reflexivity | apply lookup_empty].
Qed.

(** Views stored as "views" are read back as "_views", on a nil map. *)
Lemma Extension_Get_after_Set_witness :
  "_views" <> ""
  /\ Extension_Get (Extension_Set (None : ExtensionFields Z) "views" 1500) "_views"
     = Ret (Some 1500).
Proof.
  split; [discriminate |].
  destruct (Extension_Get_after_Set (None : ExtensionFields Z) "views" "_views" 1500)
    as [_ Hget]; [discriminate |].
  rewrite Hget. reflexivity.
Defined.

(** X11: the empty key is accepted by [Set], which files the value under
    it, but not by [Get]: on any map that is not nil, and so after any
    [Set], [Get] of the empty key panics on [key[0]]; on a nil map it
    reports the key absent. *)
Theorem Extension_Get_empty_key {V} (e : ExtensionFields V) (m : gmap string V) (value : V) :
  (exists m', Extension_Set e "" value = Some m' /\ m' !! "" = Some value)
  /\ Extension_Get (Extension_Set e "" value) ""
     = Panic "index out of range [0] with length 0"
  /\ Extension_Get (Some m) "" = Panic "index out of range [0] with length 0"
  /\ Extension_Get (None : ExtensionFields V) "" = Ret None.
Proof.
  split; [| repeat split].
  eexists. split; [reflexivity |]. apply lookup_insert_eq.
Qed.

(** ** Statistics *)

Lemma countSource_counts srcs : forall x y,
  fold_left countSource srcs (x, y)
  = (x + Z.of_nat (length (List.filter isActive srcs)),
     y + Z.of_nat (length (List.filter isError srcs))).
Proof.
  induction srcs as [| s srcs IH]; intros x y; cbn [fold_left List.filter].
  - cbn. f_equal; lia.
  - assert (Hstep : countSource (x, y) s
                    = (x + (if isActive s then 1 else 0),
                       y + (if isActive s then 0 else if isError s then 1 else 0))).
    { unfold countSource, isActive, isError. cbn [fst snd].
      destruct (String.eqb (Status s) "active"); [f_equal; lia |].
      destruct (String.eqb (Status s) "error"); f_equal; lia. }
    rewrite Hstep, IH.
    destruct (isActive s) eqn:Ha, (isError s) eqn:He; cbn [length]; try (f_equal; lia).
    apply String.eqb_eq in Ha. apply String.eqb_eq in He. congruence.
Qed.

Lemma isActive_spec s : isActive s = true <-> Status s = "active".
Proof. apply String.eqb_eq. Qed.

Lemma isError_spec s : isError s = true <-> Status s = "error".
Proof. apply String.eqb_eq. Qed.

Lemma active_error_bound srcs :
  (length (List.filter isActive srcs) + length (List.filter isError srcs)
   <= length srcs)%nat
  /\ ((length (List.filter isActive srcs) + length (List.filter isError srcs)
       = length srcs)%nat
      <-> Forall (fun s => Status s = "active" \/ Status s = "error") srcs).
Proof.
  induction srcs as [| s srcs [IHle IHeq]]; cbn [List.filter length].
  - split; [lia |]. split; [constructor | reflexivity].
  - rewrite Forall_cons, <- IHeq, <- isActive_spec, <- isError_spec.
    destruct (isActive s) eqn:Ha, (isError s) eqn:He; cbn [length].
    + apply isActive_spec in Ha. apply isError_spec in He. congruence.
    + split; [lia |]. split; [intros H; split; [auto | lia] | intros [_ H]; lia].
    + split; [lia |]. split; [intros H; split; [auto | lia] | intros [_ H]; lia].
    + split; [lia |]. split; [lia |]. intros [[H | H] _]; discriminate.
Qed.

(** X12: [Aggregator.GetStats] panics on an aggregator without a feed, its
    nil check notwithstanding.  Otherwise it reports the number of
    sources, of those in status "active" and of those in status "error",
    the number of published items and the feed's timestamp; active and
    error sources together never exceed the total, and make it up exactly
    when no source has another status (such as "new"). *)
Theorem GetStats_spec (a : Aggregator) :
  match AggregatedFeed a with
  | None => GetStats a = Panic nilDereference
  | Some feed =>
    exists stats,
      GetStats a = Ret stats
      /\ total_sources stats = Z.of_nat (length (Sources a))
      /\ active_sources stats = Z.of_nat (length (List.filter isActive (Sources a)))
      /\ error_sources stats = Z.of_nat (length (List.filter isError (Sources a)))
      /\ active_sources stats + error_sources stats <= total_sources stats
      /\ (active_sources stats + error_sources stats = total_sources stats
          <-> Forall (fun s => Status s = "active" \/ Status s = "error") (Sources a))
      /\ total_entries stats = Z.of_nat (length (Items feed))
      /\ last_updated stats = LastUpdated feed
  end.
Proof.
  unfold GetStats. destruct (AggregatedFeed a) as [feed |]; [| reflexivity].
  eexists. split; [reflexivity |]. cbn.
  rewrite countSource_counts. cbn.
  destruct (active_error_bound (Sources a)) as [Hle Heq].
  repeat split; try reflexivity; try lia.
  - intros H. apply Heq. lia.
  - intros H. apply Heq in H. lia.
Qed.

(** X13: [Aggregator.AddSource] appends a source in status "new", never
    fetched, and touches nothing else; in the statistics the total grows by
    one while the active and error counts stay. *)
Theorem AddSource_then_GetStats (a : Aggregator) (url name description : string)
  (stats : Stats) :
  GetStats a = Ret stats ->
  Sources (AddSource a url name description)
  = (Sources a ++ [mkFeedSource url name description TimeOps.zero "new" ""])%list
  /\ AggregatedFeed (AddSource a url name description) = AggregatedFeed a
  /\ GetStats (AddSource a url name description)
     = Ret (mkStats (total_sources stats + 1) (active_sources stats)
                    (error_sources stats) (total_entries stats) (last_updated stats)).
Proof.
  intros Hstats. split; [reflexivity |]. split; [reflexivity |].
  unfold GetStats in *. cbn [AddSource Sources AggregatedFeed].
  destruct (AggregatedFeed a) as [feed |]; [| discriminate].
  injection Hstats as <-. cbn.
  rewrite fold_left_app. cbn. rewrite !countSource_counts. cbn.
  rewrite length_app. cbn. do 2 f_equal. lia.
Qed.

Lemma AddSource_then_GetStats_witness :
  GetStats aggregatorNoSource
  = Ret (mkStats 0 0 0 0 (Some (mkTime 1735725000 0)))
  /\ GetStats aggregatorA = Ret (mkStats 1 0 0 0 (Some (mkTime 1735725000 0))).
Proof.
  split; [reflexivity |].
  apply (AddSource_then_GetStats aggregatorNoSource urlA "Feed 01" "Latest technology news"
           (mkStats 0 0 0 0 (Some (mkTime 1735725000 0))) eq_refl).
Defined.

(** ** More on the cycle *)

Lemma addEntries_exact entries : forall f w,
  addEntries f entries w
  = Ret (mkFeed (FeedVersion f) (FeedTitle f) (Description f) (HomePageURL f)
                (FeedURL f) (Language f) (FeedAuthor f)
                (match entries with
                 | [] => LastUpdated f
                 | _ :: _ => Some (TimeOps.UTC (clock w (tick w + length entries - 1)%nat))
                 end)
                (Items f ++ entries)%list
                (match entries with
                 | [] => ItemsNil f
                 | _ :: _ => false
                 end),
         advance w (length entries)).
Proof.
  induction entries as [| entry rest IH]; intros f w.
  - cbn. rewrite advance_0, app_nil_r. destruct f; reflexivity.
  - cbn [addEntries]. rewrite (bind_Ret _ _ _ _ _ (AddEntry_run f entry w)).
    rewrite IH. cbn. rewrite <- app_assoc. cbn.
    rewrite advance_advance. do 2 f_equal.
    f_equal; destruct rest; cbn; try reflexivity; do 3 f_equal; lia.
Qed.

Lemma NewFeed_run title feedURL w :
  NewFeed title feedURL w
  = Ret (mkFeed Version title "" "" feedURL "" None (Some (TimeOps.UTC (clock w (tick w)))) [] false,
         advance w 1).
Proof.
  unfold NewFeed, bind, time_Now, ret, advance. cbn.
  rewrite Nat.add_1_r. reflexivity.
Qed.

Lemma collect_returns net sched a w :
  exists c,
    collect (length (Sources a)) sched (launch net a) (mkCollected (Sources a) [] 0) w
    = Ret (c, advance w (length (Sources a)))
    /\ length (sources c) = length (Sources a)
    /\ allEntries c = mergedEntries net sched a
    /\ (forall i src, Sources a !! i = Some src ->
          exists k, (k < length (Sources a))%nat
            /\ sources c !! i
               = Some (fetched src (clock w (tick w + k)%nat) (resultOf net a i src))).
Proof.
  set (order := arrival (length (Sources a)) sched (launch net a)).
  destruct (collectAll_spec order (mkCollected (Sources a) [] 0) w)
    as (c & Hrun & Hlen & _ & Hentries & _ & Hdone).
  { apply arrival_in_range. }
  assert (Hlo : length order = length (Sources a)).
  { subst order. rewrite (Permutation_length (arrival_launch net sched a)).
    apply launch_length. }
  exists c. rewrite collect_arrival by apply launch_length. fold order.
  rewrite Hrun, Hlo. split; [reflexivity |]. split; [exact Hlen |].
  split; [exact Hentries |].
  intros i src Hsrc.
  assert (Hin : resultOf net a i src ∈ order).
  { subst order. rewrite (arrival_launch net sched a).
    apply list_elem_of_lookup. exists i. rewrite launch_lookup, Hsrc. reflexivity. }
  apply list_elem_of_lookup in Hin as [k Hk].
  destruct (Hdone (arrival_indices_NoDup net sched a) k _ Hk) as (src1 & Hsrc1 & Hfin).
  cbn in Hsrc1, Hfin. rewrite Hsrc in Hsrc1. injection Hsrc1 as <-.
  exists k. split; [| exact Hfin].
  apply lookup_lt_Some in Hk. lia.
Qed.

(** The cycle in full: what it returns and the world it leaves. *)
Lemma FetchAllFeeds_full {SS : SliceSorter} net sched a w old :
  AggregatedFeed a = Some old ->
  let N := length (Sources a) in
  let items := cap (sort_Slice Entry newerFirst (mergedEntries net sched a)) in
  exists srcs',
    FetchAllFeeds net sched a w
    = Ret ((None,
            mkAggregator srcs'
              (Some (mkFeed Version (FeedTitle old)
                       ("Aggregated content from " +:+ fmt_d (Z.of_nat N) +:+ " sources")
                       "" (FeedURL old) "en-US" None
                       (Some (TimeOps.UTC (clock w (tick w + N + length items)%nat))) items false))
              (fetchTimeout a)),
           advance w (N + 1 + length items))
    /\ length srcs' = N
    /\ (forall i src, Sources a !! i = Some src ->
          exists k, (k < N)%nat
            /\ srcs' !! i
               = Some (fetched src (clock w (tick w + k)%nat) (resultOf net a i src))).
Proof.
  intros Hold N items.
  destruct (collect_returns net sched a w) as (c & Hrun & Hlen & Hentries & Hsrcs).
  exists (sources c). split; [| split; [exact Hlen | exact Hsrcs]].
  unfold FetchAllFeeds. rewrite (bind_Ret _ _ _ _ _ Hrun).
  rewrite Hold. cbn [deref]. unfold bind at 1, ret at 1.
  unfold bind. rewrite NewFeed_run, addEntries_exact. unfold ret.
  rewrite Hentries, Hlen. fold N. fold items.
  cbn [SetLanguage SetDescription FeedVersion FeedTitle Description HomePageURL FeedURL
       Language FeedAuthor LastUpdated Items app advance clock tick].
  assert (Hstamp : match items with
                   | [] => Some (TimeOps.UTC (clock w (tick w + N)%nat))
                   | _ :: _ => Some (TimeOps.UTC (clock w (tick w + N + 1 + length items - 1)%nat))
                   end = Some (TimeOps.UTC (clock w (tick w + N + length items)%nat))).
  { destruct items; cbn [length]; do 3 f_equal; lia. }
  assert (Hflag : match items with
                  | [] => false
                  | _ :: _ => false
                  end = false) by (destruct items; reflexivity).
  cbn [ItemsNil SetLanguage SetDescription]. rewrite Hstamp, Hflag. do 2 f_equal. unfold advance. cbn. f_equal. lia.
Qed.

(** X14: a cycle on an aggregator that holds no feed (a zero-value
    [Aggregator], not one made by [NewAggregator]) fetches every source
    and then panics when it reads the title of the feed to replace; it
    returns neither nil nor an error. *)
Theorem FetchAllFeeds_without_feed_panics {SS : SliceSorter}
  (net : Network) (sched : list nat) (a : Aggregator) (w : World) :
  AggregatedFeed a = None ->
  FetchAllFeeds net sched a w = Panic nilDereference.
Proof.
  intros Hnil.
  destruct (collect_returns net sched a w) as (c & Hrun & _).
  unfold FetchAllFeeds. rewrite (bind_Ret _ _ _ _ _ Hrun).
  rewrite Hnil. reflexivity.
Qed.

Lemma FetchAllFeeds_without_feed_panics_witness :
  AggregatedFeed zeroAggregator = None
  /\ FetchAllFeeds (SS := pdqSorter) netDown [] zeroAggregator world0 = Panic nilDereference.
Proof.
  split; [reflexivity |].
  apply (FetchAllFeeds_without_feed_panics (SS := pdqSorter) netDown [] zeroAggregator
           world0 eq_refl).
Defined.

(** X15: a completed cycle replaces the published feed by a new one that
    takes over the title and the feed URL only: the description is the
    sentence on the number of sources, the language "en-US", and home
    page URL and author are empty whatever the old feed had.  The clock is
    read once per source, once for the new feed and once per published
    item, and the feed's timestamp is the last of these readings. *)
Theorem cycle_publishes_fresh_feed {SS : SliceSorter}
  (net : Network) (sched : list nat) (a : Aggregator) (w : World) (old : Feed) :
  AggregatedFeed a = Some old ->
  let N := length (Sources a) in
  exists a' feed,
    FetchAllFeeds net sched a w
    = Ret ((None, a'), advance w (N + 1 + length (Items feed)))
    /\ AggregatedFeed a' = Some feed
    /\ fetchTimeout a' = fetchTimeout a
    /\ FeedVersion feed = Version
    /\ FeedTitle feed = FeedTitle old
    /\ FeedURL feed = FeedURL old
    /\ Description feed
       = "Aggregated content from " +:+ fmt_d (Z.of_nat N) +:+ " sources"
    /\ Language feed = "en-US"
    /\ HomePageURL feed = ""
    /\ FeedAuthor feed = None
    /\ LastUpdated feed = Some (TimeOps.UTC (clock w (tick w + N + length (Items feed))%nat)).
Proof.
  intros Hold N.
  destruct (FetchAllFeeds_full net sched a w old Hold) as (srcs' & Hrun & _).
  match type of Hrun with
  | _ = Ret ((None, mkAggregator _ (Some ?f) _), _) =>
    exists (mkAggregator srcs' (Some f) (fetchTimeout a)), f
  end.
  split; [exact Hrun |]. repeat split.
Qed.

Lemma cycle_publishes_fresh_feed_witness :
  AggregatedFeed aggregatorAB <> None
  /\ exists a' feed,
       FetchAllFeeds (SS := pdqSorter) (netServing feedA) [1; 0]%nat aggregatorAB world0
       = Ret ((None, a'), advance world0 5)
       /\ AggregatedFeed a' = Some feed
       /\ Description feed = "Aggregated content from 2 sources"
       /\ LastUpdated feed = Some (mkTime 1735725604 0).
Proof.
  split; [discriminate |].
  destruct (cycle_publishes_fresh_feed (SS := pdqSorter) (netServing feedA) [1; 0]%nat
              aggregatorAB world0 _ eq_refl)
    as (a' & feed & Hrun & Hfeed & _ & _ & _ & _ & Hdesc & _ & _ & _ & Hlast).
  assert (Hitems : length (Items feed) = 2%nat).
  { assert (H := Hrun). vm_compute in H. injection H as Ha' _.
    rewrite <- Ha' in Hfeed. injection Hfeed as <-. reflexivity. }
  rewrite Hitems in Hrun, Hlast.
  exists a', feed. split; [exact Hrun |]. split; [exact Hfeed |].
  split; [rewrite Hdesc; vm_compute; reflexivity |].
  rewrite Hlast. vm_compute. reflexivity.
Defined.

Lemma append_nonempty (p s : string) : p <> "" -> p +:+ s <> "".
Proof. destruct p; [congruence | discriminate]. Qed.

Lemma fetch_error_text net i a url err :
  fetchFeedWithTimeout net i a url = Err err -> Error err <> "".
Proof.
  unfold fetchFeedWithTimeout.
  destruct (net i (fetchTimeout a) url) as [e | code status [feed | e]].
  - intros [= <-]. cbn. discriminate.
  - destruct (negb (code =? StatusOK)); [intros [= <-]; cbn; discriminate |].
    destruct (Feed_Validate feed); [intros [= <-]; cbn; discriminate | discriminate].
  - destruct (negb (code =? StatusOK)); intros [= <-]; cbn; discriminate.
Qed.

(** X16: of a source a cycle changes the last-fetch time, the status and
    the error message, and nothing else.  A source whose fetch succeeded is
    left "active" with an empty message; one whose fetch failed is left in
    "error" with the text of the error, which is never empty. *)
Theorem cycle_updates_source_status_only {SS : SliceSorter}
  (net : Network) (sched : list nat) (a : Aggregator) (w : World) (old : Feed) :
  AggregatedFeed a = Some old ->
  exists a' w',
    FetchAllFeeds net sched a w = Ret ((None, a'), w')
    /\ length (Sources a') = length (Sources a)
    /\ forall i src, Sources a !! i = Some src ->
         exists src',
           Sources a' !! i = Some src'
           /\ SourceURL src' = SourceURL src
           /\ Name src' = Name src
           /\ SourceDescription src' = SourceDescription src
           /\ match fetchFeedWithTimeout net i a (SourceURL src) with
              | Ok _ => Status src' = "active" /\ ErrorMsg src' = ""
              | Err err =>
                Status src' = "error" /\ ErrorMsg src' = Error err /\ ErrorMsg src' <> ""
              end.
Proof.
  intros Hold.
  destruct (FetchAllFeeds_full net sched a w old Hold) as (srcs' & Hrun & Hlen & Hsrcs).
  eexists _, _. split; [exact Hrun |]. split; [exact Hlen |].
  intros i src Hsrc. destruct (Hsrcs i src Hsrc) as (k & _ & Hfin).
  eexists. split; [exact Hfin |].
  unfold fetched, resultOf. cbn [outcome].
  destruct (fetchFeedWithTimeout net i a (SourceURL src)) as [feed | err] eqn:Hfetch; cbn.
  - repeat split.
  - repeat split. eapply fetch_error_text, Hfetch.
Qed.

(** The scenario of the specification: B is left in error with the text of
    its time-out. *)
Lemma cycle_updates_source_status_only_witness :
  AggregatedFeed aggregatorAB <> None
  /\ exists a' w' srcB,
       FetchAllFeeds (SS := pdqSorter) (netServing feedA) [1; 0]%nat aggregatorAB world0
       = Ret ((None, a'), w')
       /\ Sources a' !! 1%nat = Some srcB
       /\ Name srcB = "Feed 02"
       /\ Status srcB = "error"
       /\ ErrorMsg srcB = "HTTP request failed: context deadline exceeded".
Proof.
  split; [discriminate |].
  destruct (cycle_updates_source_status_only (SS := pdqSorter) (netServing feedA)
              [1; 0]%nat aggregatorAB world0 _ eq_refl)
    as (a' & w' & Hrun & _ & Hsrcs).
  destruct (Hsrcs 1%nat _ eq_refl) as (srcB & HB & _ & Hname & _ & Hst).
  exists a', w', srcB. split; [exact Hrun |]. split; [exact HB |].
  split; [exact Hname |].
  vm_compute in Hst. destruct Hst as (Hs & Hm & _). auto.
Defined.

Lemma Entry_Validate_enrich name e : Entry_Validate (enrich name e) = Entry_Validate e.
Proof. unfold enrich. destruct (negb (String.eqb (Summary e) "")); reflexivity. Qed.

Lemma ID_enrich name e : ID (enrich name e) = ID e.
Proof. unfold enrich. destruct (negb (String.eqb (Summary e) "")); reflexivity. Qed.

Lemma fetchFeedWithTimeout_valid net i a url feed :
  fetchFeedWithTimeout net i a url = Ok feed -> Feed_Validate feed = None.
Proof.
  unfold fetchFeedWithTimeout.
  destruct (net i (fetchTimeout a) url) as [e | code status [f | e]]; try discriminate.
  - destruct (negb (code =? StatusOK)); [discriminate |].
    destruct (Feed_Validate f) eqn:Hval; [discriminate |]. intros [= <-]. exact Hval.
  - destruct (negb (code =? StatusOK)); discriminate.
Qed.

Lemma mergedEntries_valid net sched a :
  Forall (fun e => Entry_Validate e = None) (mergedEntries net sched a).
Proof.
  apply Forall_forall. intros e He.
  destruct (mergedEntries_origin _ _ _ _ He) as (i & src & feed & e0 & _ & Hok & He0 & ->).
  rewrite Entry_Validate_enrich.
  apply fetchFeedWithTimeout_valid, Feed_Validate_None_iff in Hok as (_ & Hall & _).
  rewrite Forall_forall in Hall. apply Hall, He0.
Qed.

(** X17: every entry of the feed a cycle publishes passes
    [Entry.Validate]; the feed itself passes [Feed.Validate] exactly when
    the aggregator's title is not blank, its feed URL is valid, and the
    published entries have distinct identifiers, which the cycle does not
    see to. *)
Theorem cycle_published_feed_validity {SS : SliceSorter} {Spec : SliceSorterSpec SS}
  (net : Network) (sched : list nat) (a : Aggregator) (w : World) (old : Feed) :
  AggregatedFeed a = Some old ->
  exists a' w' feed,
    FetchAllFeeds net sched a w = Ret ((None, a'), w')
    /\ AggregatedFeed a' = Some feed
    /\ Forall (fun e => Entry_Validate e = None) (Items feed)
    /\ (Feed_Validate feed = None
        <-> blank (FeedTitle old) = false
            /\ isValidURL (FeedURL old) = true
            /\ NoDup (map ID (Items feed))).
Proof.
  intros Hold.
  destruct (FetchAllFeeds_full net sched a w old Hold) as (srcs' & Hrun & _).
  match type of Hrun with
  | _ = Ret ((None, mkAggregator _ (Some ?f) _), ?w1) =>
    exists (mkAggregator srcs' (Some f) (fetchTimeout a)), w1, f
  end.
  split; [exact Hrun |]. split; [reflexivity |]. cbn [Items].
  assert (Hvalid : Forall (fun e => Entry_Validate e = None)
                     (cap (sort_Slice Entry newerFirst (mergedEntries net sched a)))).
  { rewrite cap_take. apply Forall_take.
    rewrite <- (sort_Slice_perm Entry newerFirst). apply mergedEntries_valid. }
  split; [exact Hvalid |].
  rewrite Feed_Validate_None_iff. unfold feedFieldsValid.
  cbn [FeedVersion FeedTitle FeedURL HomePageURL Items].
  rewrite TrimSpace_blank.
  change (String.eqb Version Version) with true.
  change (String.eqb "" "") with true.
  cbn [andb orb]. rewrite !andb_true_iff, negb_true_iff. intuition.
Qed.

(** The scenario of the specification: the published feed validates. *)
Lemma cycle_published_feed_validity_witness :
  AggregatedFeed aggregatorAB <> None
  /\ exists a' w' feed,
       FetchAllFeeds (SS := stableSorter) (netServing feedA) [1; 0]%nat aggregatorAB world0
       = Ret ((None, a'), w')
       /\ AggregatedFeed a' = Some feed
       /\ Feed_Validate feed = None.
Proof.
  split; [discriminate |].
  destruct (cycle_published_feed_validity (Spec := stableSorter_spec) (netServing feedA)
              [1; 0]%nat aggregatorAB world0 _ eq_refl)
    as (a' & w' & feed & Hrun & Hfeed & _ & Hiff).
  exists a', w', feed. split; [exact Hrun |]. split; [exact Hfeed |].
  assert (H := Hrun). vm_compute in H. injection H as Ha' _.
  rewrite <- Ha' in Hfeed. injection Hfeed as <-.
  vm_compute. reflexivity.
Defined.

Lemma concat_shared {B} (ls : list (list B)) : forall (i j : nat) l1 l2 x,
  i <> j -> ls !! i = Some l1 -> ls !! j = Some l2 -> x ∈ l1 -> x ∈ l2 ->
  ~ NoDup (concat ls).
Proof.
  induction ls as [| h t IH]; intros i j l1 l2 x Hij Hi Hj H1 H2 Hnd; [discriminate |].
  cbn in Hnd. apply NoDup_app in Hnd as (_ & Hdisj & Hnd).
  assert (Hin : forall k l, t !! k = Some l -> x ∈ l -> x ∈ concat t).
  { intros k l Hk Hl. apply list_elem_of_In, in_concat. exists l.
    split; [apply list_elem_of_In; eapply list_elem_of_lookup_2, Hk | apply list_elem_of_In, Hl]. }
  destruct i as [| i], j as [| j]; cbn in Hi, Hj; try congruence.
  - injection Hi as ->. apply (Hdisj x H1). eapply Hin; eassumption.
  - injection Hj as ->. apply (Hdisj x H2). eapply Hin; eassumption.
  - apply (IH i j l1 l2 x); auto.
Qed.

Lemma mergedEntries_ids_perm net sched a :
  Permutation (map ID (mergedEntries net sched a))
              (concat (map (fun r => map ID (entriesOf (Sources a) r)) (launch net a))).
Proof.
  unfold mergedEntries. rewrite concat_map, map_map.
  rewrite <- !flat_map_concat_map.
  apply Permutation_flat_map, arrival_launch.
Qed.

(** X18: the cycle merges by concatenation and never compares identifiers:
    when two different sources both succeed and serve entries with the
    same identifier, and the merged sequence is within the cap, the
    published feed has that identifier twice and fails [Feed.Validate]. *)
Theorem cycle_keeps_duplicates_across_sources {SS : SliceSorter} {Spec : SliceSorterSpec SS}
  (net : Network) (sched : list nat) (a : Aggregator) (w : World) (old : Feed)
  (i j : nat) (srcI srcJ : FeedSource) (feedI feedJ : Feed) (eI eJ : Entry) :
  AggregatedFeed a = Some old ->
  i <> j ->
  Sources a !! i = Some srcI ->
  Sources a !! j = Some srcJ ->
  fetchFeedWithTimeout net i a (SourceURL srcI) = Ok feedI ->
  fetchFeedWithTimeout net j a (SourceURL srcJ) = Ok feedJ ->
  eI ∈ Items feedI ->
  eJ ∈ Items feedJ ->
  ID eI = ID eJ ->
  (length (mergedEntries net sched a) <= 100)%nat ->
  exists a' w' feed,
    FetchAllFeeds net sched a w = Ret ((None, a'), w')
    /\ AggregatedFeed a' = Some feed
    /\ Permutation (Items feed) (mergedEntries net sched a)
    /\ ~ NoDup (map ID (Items feed))
    /\ Feed_Validate feed <> None.
Proof.
  intros Hold Hij HsrcI HsrcJ HokI HokJ HeI HeJ Hid Hlen.
  destruct (FetchAllFeeds_full net sched a w old Hold) as (srcs' & Hrun & _).
  match type of Hrun with
  | _ = Ret ((None, mkAggregator _ (Some ?f) _), ?w1) =>
    exists (mkAggregator srcs' (Some f) (fetchTimeout a)), w1, f
  end.
  split; [exact Hrun |]. split; [reflexivity |]. cbn [Items].
  assert (Hperm : Permutation (cap (sort_Slice Entry newerFirst (mergedEntries net sched a)))
                              (mergedEntries net sched a)).
  { rewrite cap_take, take_ge.
    - symmetry. apply sort_Slice_perm.
    - rewrite <- (Permutation_length (sort_Slice_perm Entry newerFirst _)).
      exact Hlen. }
  assert (Hdup : ~ NoDup (map ID (cap (sort_Slice Entry newerFirst
                                         (mergedEntries net sched a))))).
  { rewrite (Permutation_map ID Hperm), mergedEntries_ids_perm.
    apply (concat_shared _ i j (map ID (entriesOf (Sources a) (resultOf net a i srcI)))
             (map ID (entriesOf (Sources a) (resultOf net a j srcJ))) (ID eI) Hij).
    - change (map ?f ?l) with (f <$> l).
      rewrite list_lookup_fmap, launch_lookup, HsrcI. reflexivity.
    - change (map ?f ?l) with (f <$> l).
      rewrite list_lookup_fmap, launch_lookup, HsrcJ. reflexivity.
    - unfold entriesOf, resultOf. cbn. rewrite HokI, HsrcI.
      rewrite map_map. apply list_elem_of_In, in_map_iff. exists eI.
      split; [apply ID_enrich | apply list_elem_of_In, HeI].
    - unfold entriesOf, resultOf. cbn. rewrite HokJ, HsrcJ.
      rewrite map_map. apply list_elem_of_In, in_map_iff. exists eJ.
      split; [rewrite ID_enrich; congruence | apply list_elem_of_In, HeJ]. }
  split; [exact Hperm |]. split; [exact Hdup |].
  intros Hval. apply Feed_Validate_None_iff in Hval as (_ & _ & Hnd).
  exact (Hdup Hnd).
Qed.

(** A and B mirror the same feed: the published feed has [a1] and [a2]
    twice and does not validate. *)
Lemma cycle_keeps_duplicates_across_sources_witness :
  exists a' w' feed,
    FetchAllFeeds (SS := stableSorter) (netMirror feedA) [0; 0]%nat aggregatorAB world0
    = Ret ((None, a'), w')
    /\ AggregatedFeed a' = Some feed
    /\ Feed_Validate feed <> None.
Proof.
  destruct (cycle_keeps_duplicates_across_sources (Spec := stableSorter_spec)
              (netMirror feedA) [0; 0]%nat aggregatorAB world0 _
              0%nat 1%nat
              (mkFeedSource urlA "Feed 01" "Latest technology news" TimeOps.zero "new" "")
              (mkFeedSource urlB "Feed 02" "Social news for hackers" TimeOps.zero "new" "")
              feedA feedA
              (sampleEntry "a1" 1735725600) (sampleEntry "a1" 1735725600) eq_refl)
    as (a' & w' & feed & Hrun & Hfeed & _ & _ & Hval).
  - discriminate.
  - reflexivity.
  - reflexivity.
  - vm_compute. reflexivity.
  - vm_compute. reflexivity.
  - left.
  - left.
  - reflexivity.
  - vm_compute. lia.
  - exists a', w', feed. auto.
Defined.

(** ** Aggregators made by the constructor *)

Lemma NewAggregator_run title feedURL w :
  NewAggregator title feedURL w
  = Ret (mkAggregator []
           (Some (mkFeed Version title "" "" feedURL "" None
                          (Some (TimeOps.UTC (clock w (tick w)))) [] false))
           (30 * Second),
         advance w 1).
Proof. unfold NewAggregator. rewrite (bind_Ret _ _ _ _ _ (NewFeed_run _ _ _)). reflexivity. Qed.

Lemma Built_holds_feed title feedURL a :
  Built title feedURL a ->
  exists feed t,
    AggregatedFeed a = Some feed
    /\ FeedVersion feed = Version
    /\ FeedTitle feed = title
    /\ FeedURL feed = feedURL
    /\ LastUpdated feed = Some t.
Proof.
  induction 1 as [w a w' Hnew | a url name description _ IH
                  | SS net sched a w err a' w' _ IH Hrun].
  - rewrite NewAggregator_run in Hnew. injection Hnew as <- _.
    eexists _, _. cbn. repeat split.
  - exact IH.
  - destruct IH as (old & t & Hold & _ & Htitle & Hurl & _).
    destruct (FetchAllFeeds_full net sched a w old Hold) as (srcs' & Hfull & _).
    rewrite Hfull in Hrun. injection Hrun as _ <- _.
    eexists _, _. cbn. repeat split; assumption.
Qed.

(** X19: an aggregator obtained from [NewAggregator] through [AddSource]
    and cycles always holds a feed with the constructor's title and feed
    URL and with a timestamp.  So its statistics never panic, every cycle
    on it returns nil, and a GET is answered 200, 304 or 500: the 503 of
    [Aggregator.ServeHTTP] is never sent and the nil dereference of
    [Feed.ServeHTTP] never reached. *)
Theorem built_aggregator_always_serves {TF : TimeFormat} {JF : Json Feed}
  (title feedURL : string) (a : Aggregator) :
  Built title feedURL a ->
  exists feed t stats,
    AggregatedFeed a = Some feed
    /\ FeedTitle feed = title
    /\ FeedURL feed = feedURL
    /\ LastUpdated feed = Some t
    /\ GetStats a = Ret stats
    /\ (forall (SS : SliceSorter) net sched w,
          exists a' w',
            FetchAllFeeds net sched a w = Ret ((None, a'), w')
            /\ Built title feedURL a')
    /\ (forall rw r,
          RespStatus rw = None ->
          exists rw',
            Aggregator_ServeHTTP a rw r = Ret rw'
            /\ (RespStatus rw' = Some StatusOK
                \/ RespStatus rw' = Some StatusNotModified
                \/ RespStatus rw' = Some StatusInternalServerError)).
Proof.
  intros Hbuilt.
  destruct (Built_holds_feed _ _ _ Hbuilt) as (feed & t & Hfeed & _ & Htitle & Hurl & Ht).
  assert (Hstats : exists stats, GetStats a = Ret stats).
  { unfold GetStats. rewrite Hfeed. eauto. }
  destruct Hstats as (stats & Hstats).
  exists feed, t, stats. repeat (split; [assumption |]). split.
  - intros SS net sched w.
    destruct (FetchAllFeeds_full net sched a w feed Hfeed) as (srcs' & Hrun & _).
    eexists _, _. split; [exact Hrun |].
    eapply Built_cycle; [exact Hbuilt | exact Hrun].
  - intros rw r Hfresh. unfold Aggregator_ServeHTTP. rewrite Hfeed.
    apply (Feed_ServeHTTP_status feed t rw r Ht Hfresh).
Qed.

(** The aggregator of the example program with its first source. *)
Lemma built_aggregator_always_serves_witness :
  Built "Tech News Aggregator" "http://localhost:8181/feed.json"
        (AddSource freshAggregator urlA "Feed 01" "Latest technology news")
  /\ exists rw',
       Aggregator_ServeHTTP (TF := unixTimeFormat) (JF := oneDocumentJson)
         (AddSource freshAggregator urlA "Feed 01" "Latest technology news")
         newResponseWriter (mkRequest ∅) = Ret rw'
       /\ RespStatus rw' <> Some StatusServiceUnavailable.
Proof.
  assert (Hbuilt : Built "Tech News Aggregator" "http://localhost:8181/feed.json"
                     (AddSource freshAggregator urlA "Feed 01" "Latest technology news")).
  { apply Built_source. apply (Built_new _ _ world0 _ (advance world0 1)). reflexivity. }
  split; [exact Hbuilt |].
  destruct (built_aggregator_always_serves (TF := unixTimeFormat) (JF := oneDocumentJson)
              _ _ _ Hbuilt)
    as (feed & t & stats & _ & _ & _ & _ & _ & _ & Hserve).
  destruct (Hserve newResponseWriter (mkRequest ∅) eq_refl) as (rw' & Hrun & Hstatus).
  exists rw'. split; [exact Hrun |].
  destruct Hstatus as [-> | [-> | ->]]; discriminate.
Defined.

(** ** Markup and reading time *)

Lemma list_ascii_of_string_app (s1 s2 : string) :
  list_ascii_of_string (s1 +:+ s2)
  = (list_ascii_of_string s1 ++ list_ascii_of_string s2)%list.
Proof.
  induction s1 as [| c s1 IH]; [reflexivity |].
  change (String c s1 +:+ s2) with (String c (s1 +:+ s2)).
  cbn [list_ascii_of_string app]. f_equal. exact IH.
Qed.

Lemma replaceTags_plain repl (l1 l2 : list ascii) :
  ~ In Regexp.lt_sign l1 ->
  Regexp.replaceTags repl false (l1 ++ l2) = (l1 ++ Regexp.replaceTags repl false l2)%list.
Proof.
  induction l1 as [| c l1 IH]; intros Hno; [reflexivity |].
  cbn [app Regexp.replaceTags].
  destruct (Ascii.eqb c Regexp.lt_sign) eqn:Hc.
  - apply Ascii.eqb_eq in Hc. exfalso. apply Hno. left. congruence.
  - cbn [andb]. rewrite IH; [reflexivity |]. intros Hin. apply Hno. right. exact Hin.
Qed.

Lemma replaceTags_inside repl (t l2 : list ascii) :
  ~ In Regexp.gt_sign t ->
  Regexp.replaceTags repl true (t ++ Regexp.gt_sign :: l2)
  = Regexp.replaceTags repl false l2.
Proof.
  induction t as [| c t IH]; intros Hno.
  - cbn. reflexivity.
  - cbn [app Regexp.replaceTags].
    destruct (Ascii.eqb c Regexp.gt_sign) eqn:Hc.
    + apply Ascii.eqb_eq in Hc. exfalso. apply Hno. left. congruence.
    + apply IH. intros Hin. apply Hno. right. exact Hin.
Qed.

Lemma has_gt_closing (t l2 : list ascii) :
  Regexp.has_gt (t ++ Regexp.gt_sign :: l2) = true.
Proof.
  unfold Regexp.has_gt. rewrite existsb_app. cbn.
  rewrite orb_true_r. reflexivity.
Qed.

Lemma append_not_empty (s1 : string) c s2 :
  String.eqb (s1 +:+ String c s2) "" = false.
Proof. apply String.eqb_neq. destruct s1; discriminate. Qed.

(** X20: a tag counts as one blank, whatever is inside it: content that
    holds a "<", then text free of ">", then ">", has the reading time of
    the same content with a single space in place of all that (the text
    before the tag being free of "<").  Words inside tags are not counted,
    and words a tag separates are counted apart. *)
Theorem reading_time_skips_tag (before inside after : string) :
  ~ In Regexp.lt_sign (list_ascii_of_string before) ->
  ~ In Regexp.gt_sign (list_ascii_of_string inside) ->
  CalculateReadingTime (before +:+ "<" +:+ inside +:+ ">" +:+ after)
  = CalculateReadingTime (before +:+ " " +:+ after).
Proof.
  intros Hbefore Hinside. unfold CalculateReadingTime.
  change ("<" +:+ inside +:+ ">" +:+ after) with (String "<" (inside +:+ ">" +:+ after)).
  change (" " +:+ after) with (String " " after).
  rewrite !append_not_empty.
  assert (Hstrip : Regexp.ReplaceAllTags (before +:+ String "<" (inside +:+ ">" +:+ after)) " "
                   = Regexp.ReplaceAllTags (before +:+ String " " after) " ").
  { unfold Regexp.ReplaceAllTags. f_equal.
    rewrite !list_ascii_of_string_app. cbn [list_ascii_of_string].
    rewrite !replaceTags_plain by exact Hbefore. f_equal.
    rewrite list_ascii_of_string_app.
    change (list_ascii_of_string (">" +:+ after))
      with (Regexp.gt_sign :: list_ascii_of_string after).
    change "<"%char with Regexp.lt_sign.
    cbn [Regexp.replaceTags]. rewrite Ascii.eqb_refl, has_gt_closing. cbn [andb].
    rewrite replaceTags_inside by exact Hinside. reflexivity. }
  rewrite Hstrip. reflexivity.
Qed.

Lemma reading_time_skips_tag_witness :
  CalculateReadingTime "Hello<br class=x>world" = CalculateReadingTime "Hello world".
Proof.
  apply (reading_time_skips_tag "Hello" "br class=x" "world").
  - cbn. intros H. repeat (destruct H as [H | H]; [discriminate |]). exact H.
  - cbn. intros H. repeat (destruct H as [H | H]; [discriminate |]). exact H.
Defined.

(** ** Serving when the feed cannot be serialized *)

(** X21: when [ToJSON] fails and the request does not present the current
    ETag, [Feed.ServeHTTP] answers 500 with the body "Internal server
    error" and the content type of plain text; the Cache-Control and ETag
    headers set before stay on the error response. *)
Theorem serve_serialization_failure {TF : TimeFormat} {JF : Json Feed}
  (f : Feed) (t : Time) (w : ResponseWriter) (r : Request) (err : ErrorValue) :
  LastUpdated f = Some t ->
  RespStatus w = None ->
  ToJSON f = Err err ->
  Header_Get (ReqHeader r) "If-None-Match"
    <> etagOf (TimeOps.Unix t) (Z.of_nat (length (Items f))) ->
  exists w',
    Feed_ServeHTTP f w r = Ret w'
    /\ RespStatus w' = Some StatusInternalServerError
    /\ RespBody w' = RespBody w +:+ ("Internal server error" +:+ newline)
    /\ RespHeader w' !! "Content-Type" = Some ["text/plain; charset=utf-8"]
    /\ RespHeader w' !! "X-Content-Type-Options" = Some ["nosniff"]
    /\ RespHeader w' !! "Cache-Control" = Some [DefaultCacheControl]
    /\ RespHeader w' !! "ETag"
       = Some [etagOf (TimeOps.Unix t) (Z.of_nat (length (Items f)))].
Proof.
  intros Ht Hfresh Hjson Hmatch. unfold Feed_ServeHTTP. rewrite Ht, Hjson.
  apply String.eqb_neq in Hmatch. rewrite Hmatch.
  set (w1 := SetHeader (SetHeader (SetHeader (SetHeader w _ _) _ _) _ _) _ _).
  assert (Hst : RespStatus w1 = None) by exact Hfresh.
  destruct (http_Error_fresh w1 "Internal server error" StatusInternalServerError Hst)
    as (Hstatus & Hbody & Hkeep).
  eexists. split; [reflexivity |]. split; [exact Hstatus |]. split; [exact Hbody |].
  rewrite (Hkeep "Cache-Control") by discriminate.
  rewrite (Hkeep "ETag") by discriminate.
  split; [| split; [| split]].
  - unfold http_Error, Write, WriteHeader. cbn. rewrite Hfresh. cbn. unfold Header_Set.
    rewrite lookup_insert_ne by discriminate. apply lookup_insert_eq.
  - unfold http_Error, Write, WriteHeader. cbn. rewrite Hfresh. cbn. unfold Header_Set.
    apply lookup_insert_eq.
  - subst w1. cbn. unfold Header_Set.
    rewrite !lookup_insert_ne by discriminate. apply lookup_insert_eq.
  - subst w1. cbn. unfold Header_Set. apply lookup_insert_eq.
Qed.

(** A feed with an entry dated in the year 10000. *)
Lemma serve_serialization_failure_witness :
  exists w',
    Feed_ServeHTTP (TF := unixTimeFormat) (JF := yearCheckedJson) farFutureFeed
      newResponseWriter (mkRequest ∅) = Ret w'
    /\ RespStatus w' = Some StatusInternalServerError
    /\ RespHeader w' !! "Cache-Control" = Some [DefaultCacheControl].
Proof.
  destruct (serve_serialization_failure (TF := unixTimeFormat) (JF := yearCheckedJson)
              farFutureFeed (mkTime 1735725000 0) newResponseWriter (mkRequest ∅)
              (EText "Time.MarshalJSON: year outside of range [0,9999]")
              eq_refl eq_refl)
    as (w' & Hrun & Hstatus & _ & _ & _ & Hcache & _).
  - vm_compute. reflexivity.
  - vm_compute. discriminate.
  - exists w'. auto.
Defined.

(** ** Headers of a served feed *)

(** X22: every response of [Feed.ServeHTTP] that is not an error, the 304
    as well as the 200, carries the content type of JSON and the
    Cache-Control directive of one hour. *)
Theorem serve_sets_json_headers {TF : TimeFormat} {JF : Json Feed}
  (f : Feed) (t : Time) (w w' : ResponseWriter) (r : Request) :
  LastUpdated f = Some t ->
  RespStatus w = None ->
  Feed_ServeHTTP f w r = Ret w' ->
  RespStatus w' <> Some StatusInternalServerError ->
  (RespStatus w' = Some StatusOK \/ RespStatus w' = Some StatusNotModified)
  /\ RespHeader w' !! "Content-Type" = Some [ContentTypeJSON]
  /\ RespHeader w' !! "Cache-Control" = Some [DefaultCacheControl].
Proof.
  intros Ht Hfresh Hrun Hnot500. unfold Feed_ServeHTTP in Hrun. rewrite Ht in Hrun.
  set (w1 := SetHeader (SetHeader (SetHeader (SetHeader w _ _) _ _) _ _) _ _) in Hrun.
  assert (Hst : RespStatus w1 = None) by exact Hfresh.
  assert (Hct : RespHeader w1 !! "Content-Type" = Some [ContentTypeJSON]).
  { subst w1. cbn. unfold Header_Set.
    rewrite !lookup_insert_ne by discriminate. apply lookup_insert_eq. }
  assert (Hcc : RespHeader w1 !! "Cache-Control" = Some [DefaultCacheControl]).
  { subst w1. cbn. unfold Header_Set.
    rewrite !lookup_insert_ne by discriminate. apply lookup_insert_eq. }
  destruct (String.eqb _ _) in Hrun.
  - injection Hrun as <-. unfold WriteHeader. rewrite Hst. cbn. auto.
  - destruct (ToJSON f) as [data | err].
    + injection Hrun as <-. rewrite Write_fresh by exact Hst. cbn. auto.
    + injection Hrun as <-. exfalso. apply Hnot500.
      apply (http_Error_fresh w1 _ _ Hst).
Qed.

Lemma serve_sets_json_headers_witness :
  exists w',
    Feed_ServeHTTP (TF := unixTimeFormat) (JF := oneDocumentJson) feedA newResponseWriter
      (mkRequest {[ "If-None-Match" := [etagOf 1735725000 2] ]}) = Ret w'
    /\ RespStatus w' = Some StatusNotModified
    /\ RespHeader w' !! "Content-Type" = Some [ContentTypeJSON]
    /\ RespHeader w' !! "Cache-Control" = Some [DefaultCacheControl].
Proof.
  eexists. split; [vm_compute; reflexivity |].
  split; [reflexivity |].
  apply (serve_sets_json_headers (TF := unixTimeFormat) (JF := oneDocumentJson)
           feedA (mkTime 1735725000 0) newResponseWriter _
           (mkRequest {[ "If-None-Match" := [etagOf 1735725000 2] ]}) eq_refl eq_refl).
  - vm_compute. reflexivity.
  - discriminate.
Defined.

(** ** What the cap discards *)

(** X23: when a cycle collects more than 100 entries, those it leaves out
    are the tail of the sorted sequence: the published and the discarded
    entries together are a rearrangement of the merged sequence, and no
    discarded entry is newer than a published one. *)
Theorem cycle_cap_discards_oldest {SS : SliceSorter} {Spec : SliceSorterSpec SS}
  (net : Network) (sched : list nat) (a : Aggregator) (w : World) (old : Feed) :
  AggregatedFeed a = Some old ->
  exists a' w' feed discarded,
    FetchAllFeeds net sched a w = Ret ((None, a'), w')
    /\ AggregatedFeed a' = Some feed
    /\ Permutation (Items feed ++ discarded) (mergedEntries net sched a)
    /\ length (Items feed) = Nat.min 100 (length (mergedEntries net sched a))
    /\ (forall x y, x ∈ Items feed -> y ∈ discarded ->
          TimeOps.After (Published y) (Published x) = false).
Proof.
  intros Hold.
  destruct (FetchAllFeeds_full net sched a w old Hold) as (srcs' & Hrun & _).
  set (sorted := sort_Slice Entry newerFirst (mergedEntries net sched a)) in Hrun.
  match type of Hrun with
  | _ = Ret ((None, mkAggregator _ (Some ?f) _), ?w1) =>
    exists (mkAggregator srcs' (Some f) (fetchTimeout a)), w1, f, (drop 100 sorted)
  end.
  assert (Hperm : Permutation (mergedEntries net sched a) sorted)
    by apply sort_Slice_perm.
  assert (Hsorted : SortedBy newerFirst sorted)
    by apply sort_Slice_sorted, newerFirst_strict_weak.
  split; [exact Hrun |]. split; [reflexivity |]. cbn [Items].
  rewrite cap_take. unfold maxEntries.
  split; [rewrite take_drop; symmetry; exact Hperm |].
  split; [rewrite length_take, (Permutation_length Hperm); reflexivity |].
  intros x y Hx Hy.
  apply elem_of_take in Hx as (i & Hi & Hlt).
  apply list_elem_of_lookup in Hy as [j Hj]. rewrite lookup_drop in Hj.
  apply (SortedBy_lookup newerFirst sorted Hsorted i (100 + j) x y); [lia | assumption..].
Qed.

(** A source that serves a hundred and two entries: the cycle publishes the
    hundred newest, [n101] first and [n2] last, and discards [n1] and
    [n0]. *)
Lemma cycle_cap_discards_oldest_witness :
  AggregatedFeed aggregatorA <> None
  /\ exists a' w' feed,
       FetchAllFeeds (SS := stableSorter) (netServing (sampleFeed hundredAndTwo)) []
         aggregatorA world0
       = Ret ((None, a'), w')
       /\ AggregatedFeed a' = Some feed
       /\ length (mergedEntries (netServing (sampleFeed hundredAndTwo)) [] aggregatorA)
          = 102%nat
       /\ length (Items feed) = 100%nat
       /\ map ID (take 2 (Items feed)) = ["n101"; "n100"]
       /\ map ID (drop 98 (Items feed)) = ["n3"; "n2"].
Proof.
  split; [discriminate |].
  destruct (cycle_cap_discards_oldest (Spec := stableSorter_spec)
              (netServing (sampleFeed hundredAndTwo)) [] aggregatorA world0 _ eq_refl)
    as (a' & w' & feed & discarded & Hrun & Hfeed & _ & Hlen & _).
  exists a', w', feed. split; [exact Hrun |]. split; [exact Hfeed |].
  split; [vm_compute; reflexivity |].
  split; [rewrite Hlen; vm_compute; reflexivity |].
  vm_compute in Hrun. injection Hrun as <- _. injection Hfeed as <-.
  split; vm_compute; reflexivity.
Defined.

(** ** Setters and validation *)

(** X24: the setters check nothing, and validation does not look at what
    most of them set: an entry validates the same after [SetContent],
    [SetSummary], [SetTags], [SetCategory], [SetUpdated] or [SetAuthor],
    and a feed the same after [SetDescription], [SetLanguage] or
    [SetAuthor].  Only [Entry.SetImage] and [Feed.SetHomePageURL] can turn
    a valid value into an invalid one, and do so exactly when given a
    non-empty string that is not an http(s) URL. *)
Theorem setters_and_validation (e : Entry) (f : Feed)
  (text name email url : string) (tags : list string) (t : Time) :
  Entry_Validate (SetContent e text) = Entry_Validate e
  /\ Entry_Validate (SetSummary e text) = Entry_Validate e
  /\ Entry_Validate (SetTags e tags) = Entry_Validate e
  /\ Entry_Validate (SetCategory e text) = Entry_Validate e
  /\ Entry_Validate (SetUpdated e t) = Entry_Validate e
  /\ Entry_Validate (Entry_SetAuthor e name email url) = Entry_Validate e
  /\ Feed_Validate (SetDescription f text) = Feed_Validate f
  /\ Feed_Validate (SetLanguage f text) = Feed_Validate f
  /\ Feed_Validate (Feed_SetAuthor f name email url) = Feed_Validate f
  /\ (Entry_Validate e = None ->
      (Entry_Validate (SetImage e url) = None <-> url = "" \/ isValidURL url = true))
  /\ (Feed_Validate f = None ->
      (Feed_Validate (SetHomePageURL f url) = None <-> url = "" \/ isValidURL url = true)).
Proof.
  repeat (split; [reflexivity |]). split.
  - intros Hvalid. unfold Entry_Validate in *. cbn [SetImage ID Title URL Published Image].
    destruct (String.eqb (Strings.TrimSpace (ID e)) ""); [discriminate |].
    destruct (String.eqb (Strings.TrimSpace (Title e)) ""); [discriminate |].
    destruct (negb (isValidURL (URL e))); [discriminate |].
    destruct (TimeOps.IsZero (Published e)); [discriminate |].
    destruct (String.eqb url "") eqn:Hurl; cbn.
    + apply String.eqb_eq in Hurl. tauto.
    + apply String.eqb_neq in Hurl.
      destruct (isValidURL url); cbn; [tauto |].
      split; [discriminate | intros [? | ?]; [contradiction | discriminate]].
  - intros Hvalid. rewrite Feed_Validate_None_iff in *.
    destruct Hvalid as (Hfields & Hall & Hnd).
    unfold feedFieldsValid in *. cbn [SetHomePageURL FeedVersion FeedTitle FeedURL HomePageURL Items].
    apply andb_true_iff in Hfields as [Hfields _]. rewrite Hfields. cbn [andb].
    rewrite orb_true_iff, String.eqb_eq. tauto.
Qed.
